(** * The RSVP reader engine of speed-reader

    A shallow embedding of [Reader], the object defined in [src/js/reader.js],
    together with the functions of the second copy of that object found in
    [src/unnamed/part_000] where the two copies differ.

    JavaScript strings are sequences of UTF-16 code units and are modelled as
    lists of integers; JavaScript numbers are IEEE 754 binary64 values and are
    modelled by Rocq's primitive floats, whose operations are the same
    round-to-nearest-even operations.  Array lengths and indices, which the
    engine only ever uses as integers, are modelled in [Z]. *)

From Stdlib Require Import ZArith List Bool Lia String Ascii.
From Stdlib Require Import PrimFloat.
From Stdlib Require FloatOps SpecFloat Uint63 Decimal DecimalString.
Import ListNotations.

Local Open Scope Z_scope.

Set Warnings "-inexact-float".

(* ================================================================== *)
(** ** The host language: strings, regular-expression classes *)
(* ================================================================== *)

Module JS.

(** A string value: the list of its UTF-16 code units. *)
Definition jsstring := list Z.

(** An ASCII literal as a string value. *)
Definition lit (s : string) : jsstring :=
  map (fun a => Z.of_nat (nat_of_ascii a)) (list_ascii_of_string s).

Definition between (lo hi c : Z) : bool := (lo <=? c) && (c <=? hi).

(** [\d] without the unicode flag: the ten ASCII digits. *)
Definition isDigit (c : Z) : bool := between 48 57 c.

(** [\w]: ASCII letters, ASCII digits and the underscore. *)
Definition isWordChar (c : Z) : bool :=
  between 97 122 c || between 65 90 c || isDigit c || (c =? 95).

(** Letters and digits only, the reading of "alphanumeric" that leaves the
    underscore out. *)
Definition isAlnum (c : Z) : bool :=
  between 97 122 c || between 65 90 c || isDigit c.

(** [\s], which is also the set removed by [String.prototype.trim]:
    WhiteSpace and LineTerminator of ECMA-262. *)
Definition isWhiteSpace (c : Z) : bool :=
  between 9 13 c || (c =? 32) || (c =? 160) || (c =? 5760)
  || between 8192 8202 c || (c =? 8232) || (c =? 8233) || (c =? 8239)
  || (c =? 8287) || (c =? 12288) || (c =? 65279).

(** [s.length] *)
Definition len (s : jsstring) : Z := Z.of_nat (List.length s).

(** [s.replace(/[^C]/g, '')] for a character class [C]. *)
Definition keep (C : Z -> bool) (s : jsstring) : jsstring := filter C s.

(** The longest prefix of [s] made of characters of class [C]: what a greedy
    [C*] consumes. *)
Fixpoint run (C : Z -> bool) (s : jsstring) : nat :=
  match s with
  | c :: rest => if C c then S (run C rest) else O
  | [] => O
  end.

(** Does [s] start with the literal [p]?  Gives the rest of [s] if so. *)
Fixpoint literal (p s : jsstring) : option jsstring :=
  match p, s with
  | [], _ => Some s
  | a :: p', c :: s' => if a =? c then literal p' s' else None
  | _ :: _, [] => None
  end.

(** [s.replace(re, '')] with the global flag, for a pattern [re] given by its
    matcher [m]: [m s] is the length of the match of [re] anchored at the
    start of [s], if there is one.  The scan tries every start position from
    the left; after a match it resumes behind the matched text.  [skip]
    counts the characters of the current match still to be dropped. *)
Fixpoint replaceAll (m : jsstring -> option nat) (skip : nat) (s : jsstring)
  : jsstring :=
  match s with
  | [] => []
  | c :: rest =>
      match skip with
      | S k => replaceAll m k rest
      | O =>
          match m s with
          | Some (S k) => replaceAll m k rest
          | _ => c :: replaceAll m O rest
          end
      end
  end.

(** [s.replace(/^[C]+/, '')] and [s.replace(/[C]+$/, '')]: the longest
    leading, respectively trailing, run of characters of class [C] is
    removed. *)
Fixpoint dropStart (C : Z -> bool) (s : jsstring) : jsstring :=
  match s with
  | c :: rest => if C c then dropStart C rest else s
  | [] => []
  end.

Definition dropEnd (C : Z -> bool) (s : jsstring) : jsstring :=
  rev (dropStart C (rev s)).

(** [s.trim()] *)
Definition trim (s : jsstring) : jsstring :=
  dropEnd isWhiteSpace (dropStart isWhiteSpace s).

(** [s.split(/\s+/)]: the pieces of [s] between the maximal runs of
    whitespace.  A run at the very start or end of [s] produces an empty
    first or last piece, and the empty string splits into one empty piece.
    [sep] tells that the previous character belonged to a separator; [cur]
    is the piece being read, most recent character first. *)
Fixpoint splitWS (sep : bool) (cur : jsstring) (s : jsstring)
  : list jsstring :=
  match s with
  | [] => [rev cur]
  | c :: rest =>
      if isWhiteSpace c
      then if sep then splitWS true cur rest
           else rev cur :: splitWS true [] rest
      else splitWS false (c :: cur) rest
  end.

Definition split_whitespace (s : jsstring) : list jsstring :=
  splitWS false [] s.

(** [s.substring(a, b)]: both bounds are clamped to [0, s.length] and
    swapped when they come in the wrong order. *)
Definition clamp (s : jsstring) (i : Z) : nat :=
  Z.to_nat (Z.min (Z.max i 0) (len s)).

Definition substring (s : jsstring) (a b : Z) : jsstring :=
  let lo := Nat.min (clamp s a) (clamp s b) in
  let hi := Nat.max (clamp s a) (clamp s b) in
  firstn (hi - lo) (skipn lo s).

(** [s.substring(a)] *)
Definition substringFrom (s : jsstring) (a : Z) : jsstring :=
  substring s a (len s).

(** [s[i]]: [None] stands for [undefined]. *)
Definition charAt (s : jsstring) (i : Z) : option Z :=
  if i <? 0 then None else nth_error s (Z.to_nat i).

(** [a[i]] on an array of strings: [None] stands for [undefined]. *)
Definition elementAt (a : list jsstring) (i : Z) : option jsstring :=
  if i <? 0 then None else nth_error a (Z.to_nat i).

(** [s.padStart(n, c)] for a one-character filler [c]. *)
Definition padStart (s : jsstring) (n : Z) (c : Z) : jsstring :=
  repeat c (Z.to_nat (n - len s)) ++ s.

End JS.

Import JS.

(* ================================================================== *)
(** ** The host language: numbers *)
(* ================================================================== *)

Module Num.

Import FloatOps SpecFloat.

(** An integer as a number value.  Exact below [2^53]; array lengths and
    indices stay below [2^32]. *)
Definition ofZ (z : Z) : float :=
  match z with
  | Z0 => zero
  | Zpos _ => of_uint63 (Uint63Axioms.of_Z z)
  | Zneg p => (- of_uint63 (Uint63Axioms.of_Z (Zpos p)))%float
  end.

(** The signed integer mantissa of a finite non-zero number
    [(-1)^s * m * 2^e]. *)
Definition mantissa (s : bool) (m : positive) : Z :=
  if s then Zneg m else Zpos m.

(** [Math.floor(x)] *)
Definition Math_floor (x : float) : float :=
  match Prim2SF x with
  | S754_finite s m e =>
      if 0 <=? e then x else ofZ (mantissa s m / 2 ^ (- e))
  | _ => x
  end.

(** [Math.round(x)]: the nearest integer, a tie going towards plus
    infinity; a result of zero keeps the sign of [x]. *)
Definition Math_round (x : float) : float :=
  match Prim2SF x with
  | S754_finite s m e =>
      if 0 <=? e then x
      else
        let z := (2 * mantissa s m + 2 ^ (- e)) / 2 ^ (1 - e) in
        if z =? 0 then (if s then neg_zero else zero) else ofZ z
  | _ => x
  end.

(** [Math.max(0, x)] *)
Definition Math_max0 (x : float) : float :=
  if is_nan x then nan else if ltb zero x then x else zero.

(** [x % y]: the remainder of the truncating division, computed exactly; it
    has the sign of [x]. *)
Definition rem (x y : float) : float :=
  match Prim2SF x, Prim2SF y with
  | S754_nan, _ | _, S754_nan => nan
  | S754_infinity _, _ => nan
  | _, S754_zero _ => nan
  | _, S754_infinity _ => x
  | S754_zero _, _ => x
  | S754_finite s m1 e1, S754_finite _ m2 e2 =>
      let e := Z.min e1 e2 in
      match (Zpos m1 * 2 ^ (e1 - e)) mod (Zpos m2 * 2 ^ (e2 - e)) with
      | Zpos r => SF2Prim (S754_finite s r e)
      | _ => if s then neg_zero else zero
      end
  end.

(** Is the number truthy?  Zero and NaN are not. *)
Definition truthy (x : float) : bool := negb (is_zero x || is_nan x).

(** The decimal digits of a natural number. *)
Definition digits (n : Z) : jsstring :=
  lit (DecimalString.NilZero.string_of_uint (N.to_uint (Z.to_N n))).

(** The numbers that round to [m * 2^e], a positive number value: those
    between [low * 2^q] and [high * 2^q], the bounds included when [m] is
    even; the value itself is [mid * 2^q].  The bounds lie half way to the
    neighbouring number values; below a power of two the neighbour is at
    half the distance. *)
Definition roundingInterval (m : positive) (e : Z) : Z * Z * Z * Z :=
  if (Zpos m =? 2 ^ 52) && (-1074 <? e)
  then (4 * Zpos m - 1, 4 * Zpos m, 4 * Zpos m + 2, e - 2)
  else (2 * Zpos m - 1, 2 * Zpos m, 2 * Zpos m + 1, e - 1).

(** The integers [s] for which [s * 10^p] rounds to [m * 2^e], as the
    smallest and the largest of them, and the one among them that is
    nearest to [m * 2^e / 10^p], the even one when two are as near. *)
Definition multiples (m : positive) (e : Z) (p : Z) : Z * Z * Z :=
  let '(low, mid, high, q) := roundingInterval m e in
  let closed := Z.even (Zpos m) in
  let ns := 10 ^ Z.max p 0 * 2 ^ Z.max (- q) 0 in
  let na := 10 ^ Z.max (- p) 0 * 2 ^ Z.max q 0 in
  let ceil a := - ((- a) / ns) in
  let least := if closed then ceil (low * na) else (low * na) / ns + 1 in
  let most := if closed then (high * na) / ns else ceil (high * na) - 1 in
  let f := (mid * na) / ns in
  let r := (mid * na) mod ns in
  let near :=
    match 2 * r ?= ns with
    | Lt => f
    | Gt => f + 1
    | Eq => if Z.even f then f else f + 1
    end in
  (least, most, Z.min most (Z.max least near)).

(** The largest [p] for which a multiple of [10^p] rounds to [m * 2^e],
    searched downwards from [p], with that multiple.  A multiple is found
    after twenty steps at most. *)
Fixpoint shortestFrom (steps : nat) (m : positive) (e : Z) (p : Z)
  : Z * Z :=
  let '(least, most, s) := multiples m e p in
  match steps with
  | S k => if least <=? most then (s, p) else shortestFrom k m e (p - 1)
  | O => (s, p)
  end.

(** The digits [s] and the exponent [p] of the shortest decimal
    [s * 10^p] that rounds to [m * 2^e].  The search starts above the
    decimal logarithm of the number, [30103 / 100000] being a little more
    than the logarithm of 2. *)
Definition shortest (m : positive) (e : Z) : Z * Z :=
  let '(_, _, high, q) := roundingInterval m e in
  let bits := Z.log2 high + 1 + q in
  let start :=
    if 0 <=? bits then bits * 30103 / 100000 + 1
    else bits * 30102 / 100000 + 1 in
  shortestFrom 30 m e start.

(** The text of the number with digits [s] and exponent [p], as
    [Number::toString] lays it out: [n] is the position of the decimal
    point counted from the first digit. *)
Definition layout (s p : Z) : jsstring :=
  let d := digits s in
  let k := len d in
  let n := p + k in
  if (k <=? n) && (n <=? 21) then d ++ repeat 48 (Z.to_nat (n - k))
  else if (0 <? n) && (n <=? 21)
  then firstn (Z.to_nat n) d ++ lit "." ++ skipn (Z.to_nat n) d
  else if (-6 <? n) && (n <=? 0)
  then lit "0." ++ repeat 48 (Z.to_nat (- n)) ++ d
  else
    let significand :=
      match d with
      | c :: (_ :: _) as rest => c :: lit "." ++ rest
      | _ => d
      end in
    significand ++ lit "e" ++ (if 0 <=? n - 1 then lit "+" else lit "-")
    ++ digits (Z.abs (n - 1)).

(** [String(x)] and [x.toString()], which the template string of
    [formatTime] applies: NaN, the infinities, zero of either sign as "0",
    and for any other number a minus sign if it is negative and then the
    shortest decimal that reads back as the same number, laid out without
    an exponent while its decimal point stands within the first 21
    digits or up to six zeros after it.  Every number has such a text;
    the answer is always [Some]. *)
Definition toString (x : float) : option jsstring :=
  match Prim2SF x with
  | S754_nan => Some (lit "NaN")
  | S754_infinity s => Some (if s then lit "-Infinity" else lit "Infinity")
  | S754_zero _ => Some (lit "0")
  | S754_finite s m e =>
      let sign := if s then lit "-" else [] in
      let '(d, p) := shortest m e in
      Some (sign ++ layout d p)
  end.

End Num.

Import Num.

(* ================================================================== *)
(** ** [src/js/reader.js]: the [Reader] object *)
(* ================================================================== *)

Module Reader.

(** *** Text parsing *)

(** [/\[\d+\]/] anchored at the start of [s]. *)
Definition matchCitation (s : jsstring) : option nat :=
  match s with
  | 91 :: rest =>
      let n := run isDigit rest in
      match n, skipn n rest with
      | S _, 93 :: _ => Some (n + 2)%nat
      | _, _ => None
      end
  | _ => None
  end.

(** One or more non-whitespace characters, [[^\s]+], as the tail of a
    pattern whose head consumed [k] characters. *)
Definition thenNonSpace (k : nat) (rest : jsstring) : option nat :=
  match run (fun c => negb (isWhiteSpace c)) rest with
  | O => None
  | n => Some (k + n)%nat
  end.

(** [/https?:\/\/[^\s]+/] anchored at the start of [s]. *)
Definition matchHttp (s : jsstring) : option nat :=
  match literal (lit "https://") s with
  | Some rest => thenNonSpace 8 rest
  | None =>
      match literal (lit "http://") s with
      | Some rest => thenNonSpace 7 rest
      | None => None
      end
  end.

(** [/www\.[^\s]+/] anchored at the start of [s]. *)
Definition matchWww (s : jsstring) : option nat :=
  match literal (lit "www.") s with
  | Some rest => thenNonSpace 4 rest
  | None => None
  end.

Definition removeCitations (text : jsstring) : jsstring :=
  replaceAll matchWww O
    (replaceAll matchHttp O
      (replaceAll matchCitation O text)).

Definition parseText (text : jsstring) : list jsstring :=
  filter (fun word => 0 <? len word)
    (split_whitespace (trim (removeCitations text))).

(** *** Highlight position and the displayed parts of a word *)

(** Spritz-style optimal recognition point, at roughly the first third of
    the word. *)
Definition getORPIndex (word : jsstring) : Z :=
  let cleanWord := keep isWordChar word in
  let length := len cleanWord in
  if length <=? 1 then 0
  else if length <=? 5 then 1
  else if length <=? 9 then 2
  else if length <=? 13 then 3
  else 4.

(** The length of the leading run of non-word characters, plus the
    recognition point. *)
Definition getHighlightIndex (word : jsstring) : Z :=
  let leadingPunct := Z.of_nat (run (fun c => negb (isWordChar c)) word) in
  leadingPunct + getORPIndex word.

Definition stripPunctuation (word : jsstring) : jsstring :=
  keep isWordChar word.

Record wordParts := mkParts {
  before : jsstring;
  highlight : jsstring;
  after : jsstring
}.

(** [s[i] || '']: a one-character string is truthy, [undefined] is not. *)
Definition charOrEmpty (s : jsstring) (i : Z) : jsstring :=
  match charAt s i with
  | Some c => [c]
  | None => []
  end.

Definition splitWord (word : jsstring) : wordParts :=
  let cleanWord := stripPunctuation word in
  let highlightIndex := getORPIndex word in
  {| before := substring cleanWord 0 highlightIndex;
     highlight := charOrEmpty cleanWord highlightIndex;
     after := substringFrom cleanWord (highlightIndex + 1) |}.

(** *** Display duration *)

(** The character class of the pattern that strips the end of a word:
    apostrophe, double quote (written three times in the source), closing
    parenthesis, closing square bracket. *)
Definition isClosing (c : Z) : bool :=
  (c =? 39) || (c =? 34) || (c =? 41) || (c =? 93).

(** The multiplier table, an object literal: its keys in source order.  The
    seventh key is written in the source file as the three characters
    U+00E2 U+20AC U+201D, the bytes of an em dash U+2014 read in a
    single-byte encoding. *)
Definition punctuationMultipliers : list (jsstring * float) :=
  [ (lit ".", 2.0%float);
    (lit "!", 2.0%float);
    (lit "?", 2.0%float);
    (lit ",", 1.5%float);
    (lit ";", 1.5%float);
    (lit ":", 1.5%float);
    ([226; 8364; 8221], 1.3%float);
    (lit "-", 1.2%float) ].

Definition eqb_string (a b : jsstring) : bool :=
  if list_eq_dec Z.eq_dec a b then true else false.

(** [table[key]]; [None] stands for [undefined].  The table has no
    properties of its own besides its keys, and nothing it inherits has a
    name of one character or the name [undefined]. *)
Fixpoint property (table : list (jsstring * float)) (key : jsstring)
  : option float :=
  match table with
  | (k, v) :: rest => if eqb_string k key then Some v else property rest key
  | [] => None
  end.

(** A property key made from [s[i]]: the character, or the text
    [undefined]. *)
Definition keyOf (c : option Z) : jsstring :=
  match c with
  | Some c => [c]
  | None => lit "undefined"
  end.

(** [v || d] *)
Definition orElse (v : option float) (d : float) : float :=
  match v with
  | Some x => if truthy x then x else d
  | None => d
  end.

Definition multiplierOf (word : jsstring) : float :=
  let cleanWord := dropEnd isClosing word in
  let lastChar := charAt cleanWord (len cleanWord - 1) in
  orElse (property punctuationMultipliers (keyOf lastChar)) 1.0%float.

Definition getWordDuration (word : jsstring) (wpm : float) : float :=
  let baseDelay := (60000 / wpm)%float in
  let multiplier := multiplierOf word in
  (baseDelay * multiplier)%float.

(** *** Progress and time formatting *)

Definition formatTime (seconds : float) : option jsstring :=
  let mins := Math_floor (seconds / 60)%float in
  let secs := Math_round (rem seconds 60%float) in
  match toString mins, toString secs with
  | Some m, Some s => Some (m ++ lit ":" ++ padStart s 2 48)
  | _, _ => None
  end.

Record progress := mkProgress {
  percentage : float;
  currentWord : Z;
  totalWords : Z;
  remainingTime : option jsstring
}.

(** [getProgress] reads [words.length] and [currentIndex] from the engine;
    here they are its first two arguments. *)
Definition getProgress (total index : Z) (wpm : float) : progress :=
  let percentage :=
    if 0 <? total then (ofZ index / ofZ total * 100)%float else zero in
  let remainingWords := total - index in
  let remainingSeconds := (ofZ remainingWords / wpm * 60)%float in
  {| percentage := Math_round percentage;
     currentWord := index + 1;
     totalWords := total;
     remainingTime := formatTime remainingSeconds |}.

(** *** The engine: playback state, timers and callbacks *)

(** What the engine hands to its callbacks. *)
Inductive event :=
| WordChanged (parts : wordParts)
| ProgressChanged (p : progress)
| Completed.

(** The fields of the [Reader] object, and next to them the part of the host
    the engine acts on: the timeouts that are set and have neither fired nor
    been cleared ([pending], each with its delay), the next identifier
    [setTimeout] will return ([nextId], identifiers are positive), and the
    calls received by the callbacks, oldest first ([log]).  A callback field
    is [true] when a function is installed; the callbacks observe, they do
    not call back into the engine. *)
Record world := mkWorld {
  words : list jsstring;
  currentIndex : Z;
  isPlaying : bool;
  timer : option nat;
  expectedTime : float;
  onWordChange : bool;
  onProgress : bool;
  onComplete : bool;
  pending : list (nat * float);
  nextId : nat;
  log : list event
}.

(** The object literal of the source, with the callbacks its owner
    installs before using it ([true]) or leaves out ([false]). *)
Definition boot (wordChange progress complete : bool) : world :=
  {| words := []; currentIndex := 0; isPlaying := false; timer := None;
     expectedTime := zero;
     onWordChange := wordChange; onProgress := progress;
     onComplete := complete;
     pending := []; nextId := 1%nat; log := [] |}.

Definition total (w : world) : Z := Z.of_nat (List.length (words w)).

Definition set_words (v : list jsstring) (w : world) : world :=
  mkWorld v (currentIndex w) (isPlaying w) (timer w) (expectedTime w)
    (onWordChange w) (onProgress w) (onComplete w)
    (pending w) (nextId w) (log w).

Definition set_currentIndex (v : Z) (w : world) : world :=
  mkWorld (words w) v (isPlaying w) (timer w) (expectedTime w)
    (onWordChange w) (onProgress w) (onComplete w)
    (pending w) (nextId w) (log w).

Definition set_isPlaying (v : bool) (w : world) : world :=
  mkWorld (words w) (currentIndex w) v (timer w) (expectedTime w)
    (onWordChange w) (onProgress w) (onComplete w)
    (pending w) (nextId w) (log w).

Definition set_timer (v : option nat) (w : world) : world :=
  mkWorld (words w) (currentIndex w) (isPlaying w) v (expectedTime w)
    (onWordChange w) (onProgress w) (onComplete w)
    (pending w) (nextId w) (log w).

Definition set_expectedTime (v : float) (w : world) : world :=
  mkWorld (words w) (currentIndex w) (isPlaying w) (timer w) v
    (onWordChange w) (onProgress w) (onComplete w)
    (pending w) (nextId w) (log w).

Definition emit (e : event) (w : world) : world :=
  mkWorld (words w) (currentIndex w) (isPlaying w) (timer w) (expectedTime w)
    (onWordChange w) (onProgress w) (onComplete w)
    (pending w) (nextId w) (log w ++ [e]).

(** [clearTimeout(id)] *)
Definition clearTimeout (id : nat) (w : world) : world :=
  mkWorld (words w) (currentIndex w) (isPlaying w) (timer w) (expectedTime w)
    (onWordChange w) (onProgress w) (onComplete w)
    (filter (fun t => negb (Nat.eqb (fst t) id)) (pending w))
    (nextId w) (log w).

(** [this.timer = setTimeout(callback, delay)] *)
Definition setTimeout (delay : float) (w : world) : world :=
  mkWorld (words w) (currentIndex w) (isPlaying w) (Some (nextId w))
    (expectedTime w)
    (onWordChange w) (onProgress w) (onComplete w)
    (pending w ++ [(nextId w, delay)]) (S (nextId w)) (log w).

(** An operation either finishes in a new state or throws: reading a
    property of [undefined], which is what an index outside [words] leads
    to, is a [TypeError]. *)
Inductive outcome :=
| Done (w : world)
| Throws.

(** [words[i]] *)
Definition wordAt (w : world) (i : Z) : option jsstring :=
  elementAt (words w) i.

Definition getTotalWords (w : world) : Z := total w.

(** [None] stands for [null]. *)
Definition getCurrentWord (w : world) : option jsstring :=
  if currentIndex w <? total w then wordAt w (currentIndex w) else None.

(** The two guarded callback calls that show a word: [onWordChange] gets the
    parts of [word], [onProgress] the progress at rate [wpm]. *)
Definition showWord (word : jsstring) (w : world) : world :=
  if onWordChange w then emit (WordChanged (splitWord word)) w else w.

Definition showProgress (wpm : float) (w : world) : world :=
  if onProgress w
  then emit (ProgressChanged (getProgress (total w) (currentIndex w) wpm)) w
  else w.

Definition pause (w : world) : world :=
  let w := set_isPlaying false w in
  match timer w with
  | Some id => set_timer None (clearTimeout id w)
  | None => w
  end.

Definition stop (w : world) : world :=
  set_currentIndex 0 (pause w).

Definition init (text : jsstring) (w : world) : world :=
  let w := set_words (parseText text) w in
  let w := set_currentIndex 0 w in
  let w := set_isPlaying false w in
  stop w.

(** [scheduleNext]: [rate] is what [getWPM] answers when it is installed,
    [None] when it is not; [now] is the reading of [Date.now()]. *)
Definition scheduleNext (now : float) (rate : option float) (w : world)
  : outcome :=
  if negb (isPlaying w) || (total w <=? currentIndex w) then
    let w' := set_isPlaying false w in
    if (total w <=? currentIndex w) && onComplete w
    then Done (emit Completed w')
    else Done w'
  else
    let wpm := match rate with Some r => r | None => 300%float end in
    match wordAt w (currentIndex w) with
    | None => Throws
    | Some word =>
        let duration := getWordDuration word wpm in
        let drift := (now - expectedTime w)%float in
        let delay := Math_max0 (duration - drift)%float in
        let w := set_expectedTime (expectedTime w + duration)%float w in
        let w := showWord word w in
        let w := showProgress wpm w in
        Done (setTimeout delay w)
    end.

(** [play]: [now0] is the clock reading taken by [play] itself, [now] the
    one taken by [scheduleNext]. *)
Definition play (now0 now : float) (rate : option float) (w : world)
  : outcome :=
  if isPlaying w then Done w
  else
    let w := if total w <=? currentIndex w then set_currentIndex 0 w else w in
    let w := set_isPlaying true w in
    let w := set_expectedTime now0 w in
    scheduleNext now rate w.

(** The callback given to [setTimeout], run by the host when timeout [id]
    expires.  A timeout that is not pending does not fire. *)
Definition expire (id : nat) (now : float) (rate : option float) (w : world)
  : outcome :=
  if existsb (fun t => Nat.eqb (fst t) id) (pending w) then
    let w := clearTimeout id w in
    let w := set_currentIndex (currentIndex w + 1) w in
    scheduleNext now rate w
  else Done w.

Definition restart (w : world) : world :=
  let w := pause w in
  let w := set_currentIndex 0 w in
  let w :=
    match words w with
    | first :: _ => showWord first w
    | [] => w
    end in
  showProgress 300%float w.

Definition goToEnd (w : world) : outcome :=
  let w := pause w in
  let w := set_currentIndex (Z.max 0 (total w - 1)) w in
  if 0 <? total w then
    if onWordChange w then
      match wordAt w (currentIndex w) with
      | Some word => Done (showProgress 300%float (showWord word w))
      | None => Throws
      end
    else Done (showProgress 300%float w)
  else Done (showProgress 300%float w).

Definition displayWordAt (index : Z) (wpm : float) (w : world) : outcome :=
  if (0 <=? index) && (index <? total w) then
    let w := set_currentIndex index w in
    if onWordChange w then
      match wordAt w index with
      | Some word => Done (showProgress wpm (showWord word w))
      | None => Throws
      end
    else Done (showProgress wpm w)
  else Done w.

(** The operations a controller and the host can apply to the engine. *)
Inductive op :=
| Init (text : jsstring)
| Play (now0 now : float) (rate : option float)
| Expire (id : nat) (now : float) (rate : option float)
| Pause
| Stop
| Restart
| GoToEnd
| SeekTo (index : Z) (wpm : float).

Definition exec (o : op) (w : world) : outcome :=
  match o with
  | Init text => Done (init text w)
  | Play now0 now rate => play now0 now rate w
  | Expire id now rate => expire id now rate w
  | Pause => Done (pause w)
  | Stop => Done (stop w)
  | Restart => Done (restart w)
  | GoToEnd => goToEnd w
  | SeekTo index wpm => displayWordAt index wpm w
  end.

(** A sequence of operations, stopping at the first that throws. *)
Fixpoint run_ops (os : list op) (w : world) : outcome :=
  match os with
  | [] => Done w
  | o :: rest =>
      match exec o w with
      | Done w' => run_ops rest w'
      | Throws => Throws
      end
  end.

(** Uninterrupted playing: the host lets the pending timeout expire, once
    for every pair of clock and rate readings. *)
Definition tick (now : float) (rate : option float) (w : world) : outcome :=
  match pending w with
  | (id, _) :: _ => expire id now rate w
  | [] => Done w
  end.

Fixpoint ticks (readings : list (float * option float)) (w : world)
  : outcome :=
  match readings with
  | [] => Done w
  | (now, rate) :: rest =>
      match tick now rate w with
      | Done w' => ticks rest w'
      | Throws => Throws
      end
  end.

(** How often the completion callback was called. *)
Fixpoint completions (l : list event) : nat :=
  match l with
  | Completed :: rest => S (completions rest)
  | _ :: rest => completions rest
  | [] => O
  end.

End Reader.

(* ================================================================== *)
(** ** [src/unnamed/part_000]: the functions that differ *)
(* ================================================================== *)

(** The second copy of the [Reader] object has no [removeCitations] and no
    [stripPunctuation]; its recognition point is the middle letter and its
    [splitWord] cuts the word as it stands.  Its other functions are those
    of [src/js/reader.js], character for character. *)
Module Part000.

Definition parseText (text : jsstring) : list jsstring :=
  filter (fun word => 0 <? len word) (split_whitespace (trim text)).

(** [Math.floor((length - 1) / 2)] is taken on an integer of at least 3,
    where the division by two and the floor are exact. *)
Definition getORPIndex (word : jsstring) : Z :=
  let cleanWord := keep isWordChar word in
  let length := len cleanWord in
  if length <=? 1 then 0
  else if length <=? 3 then 1
  else (length - 1) / 2.

Definition getHighlightIndex (word : jsstring) : Z :=
  let leadingPunct := Z.of_nat (run (fun c => negb (isWordChar c)) word) in
  leadingPunct + getORPIndex word.

Definition splitWord (word : jsstring) : Reader.wordParts :=
  let highlightIndex := getHighlightIndex word in
  {| Reader.before := substring word 0 highlightIndex;
     Reader.highlight := Reader.charOrEmpty word highlightIndex;
     Reader.after := substringFrom word (highlightIndex + 1) |}.

End Part000.

(* ================================================================== *)
(** ** [src/js/storage.js]: the controller, where it drives the engine *)
(* ================================================================== *)

(** The application controller.  Its functions update the page and call the
    engine; the updates of the page do not reach the engine and are left
    out, the calls of the engine are kept in their order.  [wpm] stands for
    [this.settings.wpm]. *)
Module App.

(** [updateWordCount]: the count shown under the text box. *)
Definition wordCount (value : jsstring) : Z :=
  let text := trim value in
  let words :=
    match text with
    | [] => []
    | _ :: _ => filter (fun w => 0 <? len w) (split_whitespace text)
    end in
  Z.of_nat (List.length words).

(** [startBtn.disabled], as [updateWordCount] sets it. *)
Definition startDisabled (value : jsstring) : bool := wordCount value =? 0.

(** [startReading], on the content [value] of the text box. *)
Definition startReading (value : jsstring) (wpm : float) (w : Reader.world)
  : Reader.outcome :=
  let text := trim value in
  match text with
  | [] => Reader.Done w
  | _ :: _ => Reader.displayWordAt 0 wpm (Reader.init text w)
  end.

(** [startReadingDirect], used when the page is opened by the bookmarklet. *)
Definition startReadingDirect (text : jsstring) (wpm : float)
  (w : Reader.world) : Reader.outcome :=
  match text, trim text with
  | [], _ | _, [] => Reader.Done w
  | _, _ => Reader.displayWordAt 0 wpm (Reader.init text w)
  end.

Definition showInputView (w : Reader.world) : Reader.world :=
  Reader.stop w.

Definition togglePlayPause (now0 now : float) (rate : option float)
  (w : Reader.world) : Reader.outcome :=
  if Reader.isPlaying w then Reader.Done (Reader.pause w)
  else Reader.play now0 now rate w.

Definition restart (wpm : float) (w : Reader.world) : Reader.outcome :=
  Reader.displayWordAt 0 wpm (Reader.restart w).

Definition goToEnd (w : Reader.world) : Reader.outcome :=
  Reader.goToEnd w.

End App.

(* ================================================================== *)
(** ** [src/js/storage.js]: the theme preference *)
(* ================================================================== *)

(** [localStorage] as the module uses it: the stored items, and whether the
    browser refuses to read or to write (both calls then throw, and the
    module catches what they throw).  The settings functions go through
    [JSON] and are not part of this development. *)
Module Storage.

Record localStorage := mkStorage {
  items : list (jsstring * jsstring);
  refusesRead : bool;
  refusesWrite : bool
}.

Definition SETTINGS : jsstring := lit "speedreader_settings".

Definition THEME : jsstring := lit "speedreader_theme".

(** [localStorage.getItem(key)] where reading is allowed; [None] stands for
    [null]. *)
Fixpoint getItem (l : list (jsstring * jsstring)) (key : jsstring)
  : option jsstring :=
  match l with
  | (k, v) :: rest =>
      if Reader.eqb_string k key then Some v else getItem rest key
  | [] => None
  end.

(** [localStorage.setItem(key, value)] where writing is allowed. *)
Definition setItem (l : list (jsstring * jsstring)) (key value : jsstring)
  : list (jsstring * jsstring) :=
  (key, value)
  :: filter (fun kv => negb (Reader.eqb_string (fst kv) key)) l.

Definition getTheme (s : localStorage) : jsstring :=
  if refusesRead s then lit "system"
  else
    match getItem (items s) THEME with
    | Some (c :: v) => c :: v
    | _ => lit "system"
    end.

Definition saveTheme (theme : jsstring) (s : localStorage) : localStorage :=
  if refusesWrite s then s
  else mkStorage (setItem (items s) THEME theme)
         (refusesRead s) (refusesWrite s).

End Storage.


(* ================================================================== *)
(** ** Specification vocabulary *)
(* ================================================================== *)

Definition nonSpace (c : Z) : Prop := isWhiteSpace c = false.

Definition endsWithSpace (p : jsstring) : Prop :=
  exists p' c, p = p' ++ [c] /\ isWhiteSpace c = true.

Definition startsWithSpace (q : jsstring) : Prop :=
  exists c q', q = c :: q' /\ isWhiteSpace c = true.

(** [t] is a maximal run of non-whitespace characters of [s]: it occurs in
    [s], is not empty, holds no whitespace, and is bounded on either side by
    whitespace or by the end of [s]. *)
Definition MaximalRun (t s : jsstring) : Prop :=
  t <> [] /\ Forall nonSpace t /\
  exists pre post,
    s = pre ++ t ++ post /\
    (pre = [] \/ endsWithSpace pre) /\
    (post = [] \/ startsWithSpace post).

(** [toks] are the maximal runs of non-whitespace characters of [s], each
    one once, in the order in which they stand in [s]: [s] is whitespace
    only and there is none, or [s] is whitespace, then the first run up to
    the next whitespace or the end, then a rest with the other runs. *)
Inductive Tokens : jsstring -> list jsstring -> Prop :=
| Tokens_none s :
    Forall (fun c => isWhiteSpace c = true) s -> Tokens s []
| Tokens_next pre tok rest toks :
    Forall (fun c => isWhiteSpace c = true) pre ->
    tok <> [] -> Forall nonSpace tok ->
    rest = [] \/ startsWithSpace rest ->
    Tokens rest toks ->
    Tokens (pre ++ tok ++ rest) (tok :: toks).

(** What a global replacement by the empty string does, told as a relation
    on a pattern [P], where [P s n] says that the pattern matches the first
    [n] characters of [s]: going through the text from the left, a match at
    the current position is dropped whole, a character where nothing
    matches is kept. *)
Inductive Scan (P : jsstring -> nat -> Prop) : jsstring -> jsstring -> Prop :=
| Scan_end : Scan P [] []
| Scan_drop s n out :
    P s (S n) -> Scan P (skipn (S n) s) out -> Scan P s out
| Scan_keep c s out :
    (forall n, ~ P (c :: s) n) -> Scan P s out -> Scan P (c :: s) (c :: out).

(** A pattern never matches more characters than the text has, nor the
    empty string. *)
Definition Bounded (P : jsstring -> nat -> Prop) : Prop :=
  forall s n, P s n -> (1 <= n <= List.length s)%nat.

(** The patterns in the words of the comments of [removeCitations]: a
    citation is an opening bracket, one or more digits and a closing
    bracket; a URL is its prefix followed by every character up to the next
    whitespace, at least one. *)
Definition CitationAt (s : jsstring) (n : nat) : Prop :=
  exists ds rest,
    s = 91 :: ds ++ 93 :: rest /\ ds <> [] /\
    Forall (fun c => isDigit c = true) ds /\ n = (List.length ds + 2)%nat.

Definition UrlAt (prefix s : jsstring) (n : nat) : Prop :=
  exists body rest,
    s = prefix ++ body ++ rest /\ body <> [] /\
    Forall (fun c => negb (isWhiteSpace c) = true) body /\
    (rest = [] \/ startsWithSpace rest) /\
    n = (List.length prefix + List.length body)%nat.

Definition HttpAt (s : jsstring) (n : nat) : Prop :=
  UrlAt (lit "https://") s n \/ UrlAt (lit "http://") s n.

(** The offset policy in the words of the specification: 0 up to length 1,
    1 up to length 3, the floor of [(length - 1) / 2] beyond; the length
    counts the letters and digits of the token. *)
Definition specOffset (length : Z) : Z :=
  if length <=? 1 then 0
  else if length <=? 3 then 1
  else (length - 1) / 2.

Definition claimedOffset (word : jsstring) : Z :=
  specOffset (len (keep isAlnum word)).

(** The table [src/js/reader.js] implements. *)
Definition spritzOffset (length : Z) : Z :=
  if length <=? 1 then 0
  else if length <=? 5 then 1
  else if length <=? 9 then 2
  else if length <=? 13 then 3
  else 4.

(** The number of word characters of a token: ASCII letters, digits and
    underscores. *)
Definition wordLength (word : jsstring) : Z := len (keep isWordChar word).

Definition noParts : Reader.wordParts := Reader.mkParts [] [] [].

(** What the multiplier table yields for a last character [c]. *)
Definition tableMultiplier (c : Z) : float :=
  if (c =? 46) || (c =? 33) || (c =? 63) then 2.0%float
  else if (c =? 44) || (c =? 59) || (c =? 58) then 1.5%float
  else if c =? 45 then 1.2%float
  else 1.0%float.

Import Reader.

(** The completion callback is the last callback that was called. *)
Definition endsCompleted (l : list event) : Prop :=
  exists l', l = l' ++ [Completed].

(** At most one timeout is pending; one is pending exactly while the engine
    is playing, it is the one [timer] names, and the index is then short of
    the terminal position. *)
Definition TimerInv (w : world) : Prop :=
  match pending w with
  | [] => isPlaying w = false
  | [(id, _)] =>
      isPlaying w = true /\ timer w = Some id /\ currentIndex w < total w
  | _ => False
  end.

(** The index at the terminal position of a sequence that is not empty
    means that playback ran to its end and nothing was shown since. *)
Definition TerminalInv (w : world) : Prop :=
  currentIndex w = total w ->
  total w = 0 \/ (onComplete w = true -> endsCompleted (log w)).

Definition Inv (w : world) : Prop :=
  0 <= currentIndex w <= total w /\ TimerInv w /\ TerminalInv w.

(** Two states of one session: same words, same callbacks. *)
Definition SameSetup (w w' : world) : Prop :=
  words w' = words w /\ onWordChange w' = onWordChange w /\
  onProgress w' = onProgress w /\ onComplete w' = onComplete w.

(** The pending timeout, if there is one, is the one [timer] names. *)
Definition TimerOk (w : world) : Prop :=
  match pending w with
  | [] => True
  | [(id, _)] => timer w = Some id
  | _ => False
  end.

(** Reading a field of a state built by the setters. *)
Ltac fields :=
  cbn [words currentIndex isPlaying timer expectedTime onWordChange
       onProgress onComplete pending nextId log set_words set_currentIndex
       set_isPlaying set_timer set_expectedTime emit setTimeout total
       showWord showProgress] in *.

Ltac split_inv :=
  unfold Inv, TimerInv, TerminalInv, total in *; fields;
  repeat split; try lia.

(** A well-formed state whose index is on a word, or whose sequence is
    empty: showing the word or the progress keeps it so. *)
Definition Live (w : world) : Prop :=
  Inv w /\ (currentIndex w < total w \/ total w = 0).

(** The states the engine can be in: those a sequence of operations leads to
    from the initial object, whatever callbacks are installed. *)
Definition Reachable (w : world) : Prop :=
  exists wc pr co os, run_ops os (boot wc pr co) = Done w.

(** The text of the end-to-end scenario, tokenized by [init]. *)
Definition demo : world :=
  init (lit "Hello, world. This is a test") (boot true true true).

(** The words a sequence of callback calls has shown, each put together
    again from its three parts. *)
Fixpoint shown (l : list event) : list jsstring :=
  match l with
  | WordChanged p :: rest => (before p ++ highlight p ++ after p) :: shown rest
  | _ :: rest => shown rest
  | [] => []
  end.

(** The scenario as a run: [init], [play], and the six timeouts expiring in
    the order they were set. *)
Definition demoRun : list op :=
  Init (lit "Hello, world. This is a test")
  :: Play zero zero None
  :: map (fun id => Expire id zero None) (seq 1 6).

(** The clause of C6 on the terminal position, read on the callbacks in its
    weakest sense: in whatever state the engine is brought to, with the
    completion callback installed, an index equal to the length means that
    playback has completed, that is, the completion callback was called. *)
Definition TerminalOnlyAtCompletion : Prop :=
  forall os w,
    run_ops os (boot true true true) = Done w ->
    currentIndex w = total w -> (0 < completions (log w))%nat.

(** A sequence of five tokens. *)
Definition fiveWords : world :=
  init (lit "one two three four five") (boot true true true).

(** *** Vocabulary of the further properties *)

(** No position of [s] is the start of a match of the pattern that the
    matcher [m] implements. *)
Fixpoint unmatched (m : jsstring -> option nat) (s : jsstring) : bool :=
  match m s with
  | Some _ => false
  | None =>
      match s with
      | [] => true
      | _ :: rest => unmatched m rest
      end
  end.

(** Four properties of the matchers of [removeCitations].  A match never
    looks beyond the next whitespace; it has at least one character and no
    more than the text; it ends where whitespace or the end of the text
    follows; it is not lost when the text is made longer. *)
Definition LocalM (m : jsstring -> option nat) : Prop :=
  forall x w y, isWhiteSpace w = true -> m (x ++ w :: y) = m x.

Definition BoundedM (m : jsstring -> option nat) : Prop :=
  forall s n, m s = Some n -> (1 <= n <= List.length s)%nat.

Definition ToSpace (m : jsstring -> option nat) : Prop :=
  forall s n,
    m s = Some n -> skipn n s = [] \/ startsWithSpace (skipn n s).

Definition Extends (m : jsstring -> option nat) : Prop :=
  forall x q n, m x = Some n -> exists n', m (x ++ q) = Some n'.

(** The characters of [s] before its first whitespace. *)
Definition lead (s : jsstring) : jsstring :=
  firstn (run (fun c => negb (isWhiteSpace c)) s) s.

(** The pieces of [s] between whitespace, empty pieces left out. *)
Definition pieces (sep : bool) (cur s : jsstring) : list jsstring :=
  filter (fun word => 0 <? len word) (splitWS sep cur s).

(** [words.join(' ')] *)
Fixpoint joinSpace (l : list jsstring) : jsstring :=
  match l with
  | [] => []
  | [t] => t
  | t :: rest => t ++ 32 :: joinSpace rest
  end.

(** A token as [parseText] returns them: not empty, no whitespace. *)
Definition isToken (tok : jsstring) : bool :=
  match tok with
  | [] => false
  | _ :: _ => forallb (fun c => negb (isWhiteSpace c)) tok
  end.

(** No citation marker and no URL starts anywhere in [s]. *)
Definition plain (s : jsstring) : bool :=
  unmatched Reader.matchCitation s && unmatched Reader.matchHttp s
  && unmatched Reader.matchWww s.

(** A delay that [setTimeout] can be given by [scheduleNext]: NaN, zero or
    a positive number. *)
Definition okDelay (d : float) : bool :=
  is_nan d || PrimFloat.eqb d zero || ltb zero d.

(** A progress report that makes sense: word [k] of [n] with
    [1 <= k <= n], or word 1 of 0 for an empty sequence. *)
Definition goodProgress (p : progress) : bool :=
  ((totalWords p =? 0) && (currentWord p =? 1))
  || ((1 <=? currentWord p) && (currentWord p <=? totalWords p)).

Definition goodEvent (e : event) : bool :=
  match e with
  | ProgressChanged p => goodProgress p
  | _ => true
  end.

(** The timeouts of the host carry identifiers that [setTimeout] has
    already given out, and delays that are not negative; the callbacks
    have only seen sensible progress reports. *)
Definition Good (w : world) : Prop :=
  (1 <= nextId w)%nat /\
  Forall (fun t => (1 <= fst t < nextId w)%nat /\ okDelay (snd t) = true)
    (pending w) /\
  forallb goodEvent (log w) = true.

(** Is [id] the timeout that the engine is waiting for? *)
Definition awaited (w : world) (id : nat) : bool :=
  isPlaying w &&
  match timer w with
  | Some t => Nat.eqb t id
  | None => false
  end.

(** What the callbacks receive when [word] is shown, and when the progress
    is reported at rate [wpm], in state [w]. *)
Definition wordEvents (word : jsstring) (w : world) : list event :=
  if onWordChange w then [WordChanged (splitWord word)] else [].

Definition progressEvents (index : Z) (wpm : float) (w : world)
  : list event :=
  if onProgress w
  then [ProgressChanged (getProgress (total w) index wpm)] else [].

(** The six-word scenario, playing: its first word is on display. *)
Definition demoPlaying : world :=
  match play zero zero None demo with
  | Done w => w
  | Throws => demo
  end.

(* ================================================================== *)
(** ** Strings: trimming and splitting *)
(* ================================================================== *)

Section Strings.

Variable C : Z -> bool.

Lemma dropStart_split (s : jsstring) :
  exists lead, s = lead ++ dropStart C s /\ Forall (fun c => C c = true) lead.
Proof.
  induction s as [|c s IH]; simpl.
  - exists []. split; [reflexivity | constructor].
  - destruct (C c) eqn:Hc.
    + destruct IH as [lead [Heq Hall]].
      exists (c :: lead). split.
      * simpl. f_equal. exact Heq.
      * constructor; assumption.
    + exists []. split; [reflexivity | constructor].
Qed.

Lemma dropEnd_split (s : jsstring) :
  exists trail, s = dropEnd C s ++ trail /\ Forall (fun c => C c = true) trail.
Proof.
  unfold dropEnd.
  destruct (dropStart_split (rev s)) as [lead [Heq Hall]].
  exists (rev lead). split.
  - rewrite <- rev_app_distr, <- Heq, rev_involutive. reflexivity.
  - apply Forall_rev. exact Hall.
Qed.


Lemma run_all (s rest : jsstring) :
  Forall (fun c => C c = true) s ->
  run C (s ++ rest) = (List.length s + run C rest)%nat.
Proof.
  induction 1 as [|c s Hc _ IH]; simpl; [reflexivity|].
  rewrite Hc, IH. reflexivity.
Qed.

Lemma run_le (s : jsstring) : (run C s <= List.length s)%nat.
Proof.
  induction s as [|c s IH]; simpl; [lia|].
  destruct (C c); simpl; lia.
Qed.

Lemma run_prefix (s : jsstring) :
  Forall (fun c => C c = true) (firstn (run C s) s).
Proof.
  induction s as [|c s IH]; simpl; [constructor|].
  destruct (C c) eqn:Hc; simpl; constructor; assumption.
Qed.

Lemma run_stops (s : jsstring) c rest :
  skipn (run C s) s = c :: rest -> C c = false.
Proof.
  induction s as [|d s IH]; simpl; [discriminate|].
  destruct (C d) eqn:Hd; simpl.
  - exact IH.
  - intros E. injection E as -> _. exact Hd.
Qed.

End Strings.

Lemma trim_split (s : jsstring) :
  exists lead trail,
    s = lead ++ trim s ++ trail /\
    Forall (fun c => isWhiteSpace c = true) lead /\
    Forall (fun c => isWhiteSpace c = true) trail.
Proof.
  unfold trim.
  destruct (dropStart_split isWhiteSpace s) as [lead [H1 Hl]].
  destruct (dropEnd_split isWhiteSpace (dropStart isWhiteSpace s))
    as [trail [H2 Ht]].
  exists lead, trail. split; [|split; assumption].
  rewrite <- H2. exact H1.
Qed.


Lemma splitWS_pieces (s : jsstring) :
  forall sep cur,
    Forall nonSpace cur ->
    Forall (Forall nonSpace) (splitWS sep cur s).
Proof.
  induction s as [|c s IH]; intros sep cur Hcur; simpl.
  - constructor; [|constructor]. apply Forall_rev. exact Hcur.
  - destruct (isWhiteSpace c) eqn:Hc.
    + destruct sep.
      * apply IH. exact Hcur.
      * constructor.
        -- apply Forall_rev. exact Hcur.
        -- apply IH. constructor.
    + apply IH. constructor; assumption.
Qed.

Lemma all_space_last (l : jsstring) :
  Forall (fun c => isWhiteSpace c = true) l -> l = [] \/ endsWithSpace l.
Proof.
  intros H. destruct l as [|d l0]; [now left | right].
  assert (Hne : d :: l0 <> []) by discriminate.
  destruct (exists_last Hne) as [l' [c E]].
  exists l', c. split; [exact E|].
  rewrite E in H. apply Forall_app in H. destruct H as [_ H].
  now inversion H.
Qed.

Lemma all_space_first (l : jsstring) :
  Forall (fun c => isWhiteSpace c = true) l -> l = [] \/ startsWithSpace l.
Proof.
  intros H. destruct H as [|c l Hc _]; [now left | right].
  exists c, l. split; [reflexivity | exact Hc].
Qed.

(** A maximal run of the trimmed text is one of the text. *)
Lemma MaximalRun_widen (t core lead trail : jsstring) :
  MaximalRun t core ->
  Forall (fun c => isWhiteSpace c = true) lead ->
  Forall (fun c => isWhiteSpace c = true) trail ->
  MaximalRun t (lead ++ core ++ trail).
Proof.
  intros [Hne [Hns [pre [post [Heq [Hpre Hpost]]]]]] Hl Ht.
  split; [exact Hne | split; [exact Hns|]].
  exists (lead ++ pre), (post ++ trail). split; [|split].
  - subst core. now rewrite !app_assoc.
  - destruct Hpre as [->|[p' [c [-> Hc]]]].
    + rewrite app_nil_r. now apply all_space_last.
    + right. exists (lead ++ p'), c. split; [now rewrite app_assoc | exact Hc].
  - destruct Hpost as [->|[c [q' [-> Hc]]]].
    + simpl. now apply all_space_first.
    + right. exists c, (q' ++ trail). split; [reflexivity | exact Hc].
Qed.

(** Every non-empty piece of a split is a maximal run of the text read so
    far ([pre], then the piece in progress) followed by the text still to
    read. *)
Lemma splitWS_runs (s : jsstring) :
  forall sep cur pre,
    Forall nonSpace cur ->
    (sep = true -> cur = []) ->
    (pre = [] \/ endsWithSpace pre) ->
    forall t, In t (splitWS sep cur s) -> t <> [] ->
    MaximalRun t (pre ++ rev cur ++ s).
Proof.
  induction s as [|c s IH]; intros sep cur pre Hcur Hsep Hpre t Hin Hne; simpl in Hin.
  - destruct Hin as [<-|[]].
    split; [exact Hne | split; [now apply Forall_rev|]].
    exists pre, []. split; [reflexivity | split; [exact Hpre | now left]].
  - destruct (isWhiteSpace c) eqn:Hc.
    + destruct sep.
      * rewrite (Hsep eq_refl) in *. simpl.
        replace (pre ++ c :: s) with ((pre ++ [c]) ++ rev [] ++ s)
          by (simpl; now rewrite <- app_assoc).
        apply (IH true [] (pre ++ [c])); auto.
        right. now exists pre, c.
      * destruct Hin as [<-|Hin].
        -- split; [exact Hne | split; [now apply Forall_rev|]].
           exists pre, (c :: s). split; [reflexivity|].
           split; [exact Hpre | right; now exists c, s].
        -- replace (pre ++ rev cur ++ c :: s)
             with ((pre ++ rev cur ++ [c]) ++ rev [] ++ s)
             by (simpl; now rewrite <- !app_assoc).
           apply (IH true [] (pre ++ rev cur ++ [c])); auto.
           right. exists (pre ++ rev cur), c. split; [now rewrite app_assoc | exact Hc].
    + replace (pre ++ rev cur ++ c :: s) with (pre ++ rev (c :: cur) ++ s)
        by (simpl; now rewrite <- app_assoc).
      apply (IH false (c :: cur) pre); auto.
      congruence.
Qed.

Lemma tokens_of_split (s : jsstring) :
  Forall (fun tok => MaximalRun tok s)
    (filter (fun word => 0 <? len word) (split_whitespace (trim s))).
Proof.
  apply Forall_forall. intros t Hin.
  apply filter_In in Hin. destruct Hin as [Hin Hlen].
  assert (Hne : t <> []).
  { intros ->. discriminate Hlen. }
  destruct (trim_split s) as [lead [trail [Heq [Hl Ht]]]].
  rewrite Heq. apply MaximalRun_widen; auto.
  apply (splitWS_runs (trim s) false [] []); auto.
Qed.

(* ================================================================== *)
(** ** Global replacement and the three patterns of [removeCitations] *)
(* ================================================================== *)

Section Replace.

Variable m : jsstring -> option nat.

Lemma replaceAll_skip (s : jsstring) :
  forall k, replaceAll m k s = replaceAll m O (skipn k s).
Proof.
  induction s as [|c s IH]; intros [|k]; try reflexivity.
  simpl skipn. rewrite <- IH. reflexivity.
Qed.

Variable P : jsstring -> nat -> Prop.

Hypothesis m_spec : forall s n, m s = Some n <-> P s n.

Hypothesis P_bounded : Bounded P.

Lemma replaceAll_scan_fuel (n : nat) :
  forall s, (List.length s <= n)%nat -> Scan P s (replaceAll m O s).
Proof.
  induction n as [|n IH]; intros [|c s] Hlen; simpl in Hlen; try lia;
    try apply Scan_end.
  simpl. destruct (m (c :: s)) as [[|k]|] eqn:Hm.
  - apply m_spec, P_bounded in Hm. lia.
  - apply Scan_drop with (n := k); [now apply m_spec|].
    rewrite replaceAll_skip. simpl skipn. apply IH.
    rewrite length_skipn. lia.
  - apply Scan_keep; [|apply IH; lia].
    intros k Hk. apply m_spec in Hk. congruence.
Qed.

Lemma replaceAll_scan (s : jsstring) : Scan P s (replaceAll m O s).
Proof. apply (replaceAll_scan_fuel (List.length s)). lia. Qed.

End Replace.

Lemma literal_spec (p s rest : jsstring) :
  literal p s = Some rest <-> s = p ++ rest.
Proof.
  revert s. induction p as [|a p IH]; intros s; simpl.
  - split; [intros [= ->] | intros ->]; reflexivity.
  - destruct s as [|c s]; [split; discriminate|].
    destruct (Z.eqb_spec a c) as [->|Hne].
    + rewrite IH. split; [intros ->; reflexivity | intros [= ->]; reflexivity].
    + split; [discriminate | intros [= H _]; congruence].
Qed.

Lemma split_at_run (C : Z -> bool) (s : jsstring) :
  s = firstn (run C s) s ++ skipn (run C s) s.
Proof. symmetry. apply firstn_skipn. Qed.

Lemma run_rest (C : Z -> bool) (s : jsstring) :
  skipn (run C s) s = [] \/
  exists c q, skipn (run C s) s = c :: q /\ C c = false.
Proof.
  destruct (skipn (run C s) s) as [|c q] eqn:E; [now left | right].
  exists c, q. split; [reflexivity|]. eapply run_stops. exact E.
Qed.

Lemma run_exact (C : Z -> bool) (body rest : jsstring) :
  Forall (fun c => C c = true) body ->
  (rest = [] \/ exists c q, rest = c :: q /\ C c = false) ->
  run C (body ++ rest) = List.length body.
Proof.
  intros Hb Hr. rewrite run_all by exact Hb.
  destruct Hr as [->|[c [q [-> Hc]]]]; simpl; [|rewrite Hc]; lia.
Qed.

Lemma matchCitation_spec (s : jsstring) (n : nat) :
  Reader.matchCitation s = Some n <-> CitationAt s n.
Proof.
  unfold Reader.matchCitation, CitationAt. split.
  - destruct s as [|c r]; [discriminate|].
    destruct (Z.eq_dec c 91) as [->|Hc].
    + pose proof (split_at_run isDigit r) as Hr.
      pose proof (run_prefix isDigit r) as Hd.
      destruct (run isDigit r) as [|k] eqn:Hk; [discriminate|].
      destruct (skipn (S k) r) as [|d q] eqn:Hq; [discriminate|].
      destruct (Z.eq_dec d 93) as [->|Hd93].
      * intros [= <-].
        exists (firstn (S k) r), q. split; [congruence|]. split; [|split].
        -- destruct r; [discriminate Hk | discriminate].
        -- exact Hd.
        -- rewrite length_firstn.
           pose proof (run_le isDigit r). lia.
      * intros H. exfalso.
        destruct d as [|d|d]; try discriminate H.
        do 7 (destruct d as [d|d|]; try discriminate H).
        apply Hd93. reflexivity.
    + intros H. exfalso.
      destruct c as [|c|c]; try discriminate H.
      do 7 (destruct c as [c|c|]; try discriminate H).
      apply Hc. reflexivity.
  - intros [ds [rest [-> [Hne [Hd ->]]]]].
    assert (Hrun : run isDigit (ds ++ 93 :: rest) = List.length ds).
    { apply run_exact; [exact Hd | right; now exists 93, rest]. }
    assert (Hskip : skipn (List.length ds) (ds ++ 93 :: rest) = 93 :: rest).
    { rewrite skipn_app, skipn_all, Nat.sub_diag. reflexivity. }
    cbv zeta. rewrite Hrun.
    destruct (List.length ds) as [|k] eqn:Hk.
    + destruct ds; [contradiction | discriminate Hk].
    + rewrite Hskip. reflexivity.
Qed.

Lemma thenNonSpace_spec (k : nat) (r : jsstring) (n : nat) :
  Reader.thenNonSpace k r = Some n <->
  exists body rest,
    r = body ++ rest /\ body <> [] /\
    Forall (fun c => negb (isWhiteSpace c) = true) body /\
    (rest = [] \/ startsWithSpace rest) /\
    n = (k + List.length body)%nat.
Proof.
  unfold Reader.thenNonSpace.
  set (C := fun c => negb (isWhiteSpace c)). split.
  - pose proof (split_at_run C r) as Hr.
    pose proof (run_prefix C r) as Hb.
    pose proof (run_rest C r) as Hrest.
    pose proof (run_le C r) as Hle.
    destruct (run C r) as [|j] eqn:Hj; [discriminate|].
    intros [= <-].
    exists (firstn (S j) r), (skipn (S j) r).
    split; [exact Hr|]. split; [|split; [exact Hb|split]].
    + destruct r; [discriminate Hj | discriminate].
    + destruct Hrest as [->|[c [q [-> Hc]]]]; [now left | right].
      exists c, q. split; [reflexivity|].
      unfold C in Hc. now destruct (isWhiteSpace c).
    + rewrite length_firstn. lia.
  - intros [body [rest [-> [Hne [Hb [Hrest ->]]]]]].
    assert (Hrun : run C (body ++ rest) = List.length body).
    { apply run_exact; [exact Hb|].
      destruct Hrest as [->|[c [q [-> Hc]]]]; [now left | right].
      exists c, q. split; [reflexivity|]. unfold C. now rewrite Hc. }
    rewrite Hrun. destruct body; [contradiction | reflexivity].
Qed.

Lemma matchWww_spec (s : jsstring) (n : nat) :
  Reader.matchWww s = Some n <-> UrlAt (lit "www.") s n.
Proof.
  unfold Reader.matchWww, UrlAt. split.
  - destruct (literal (lit "www.") s) as [r|] eqn:Hl; [|discriminate].
    apply literal_spec in Hl. intros H.
    apply thenNonSpace_spec in H.
    destruct H as [body [rest [-> H]]]. now exists body, rest.
  - intros [body [rest [-> H]]].
    assert (Hl : literal (lit "www.") (lit "www." ++ body ++ rest)
                 = Some (body ++ rest)) by now apply literal_spec.
    rewrite Hl. apply thenNonSpace_spec. now exists body, rest.
Qed.

Lemma matchHttp_spec (s : jsstring) (n : nat) :
  Reader.matchHttp s = Some n <-> HttpAt s n.
Proof.
  unfold Reader.matchHttp, HttpAt, UrlAt. split.
  - destruct (literal (lit "https://") s) as [r|] eqn:Hl.
    + apply literal_spec in Hl. intros H. left.
      apply thenNonSpace_spec in H.
      destruct H as [body [rest [-> H]]]. now exists body, rest.
    + destruct (literal (lit "http://") s) as [r|] eqn:Hl'; [|discriminate].
      apply literal_spec in Hl'. intros H. right.
      apply thenNonSpace_spec in H.
      destruct H as [body [rest [-> H]]]. now exists body, rest.
  - intros [[body [rest [-> H]]]|[body [rest [-> H]]]].
    + assert (Hl : literal (lit "https://") (lit "https://" ++ body ++ rest)
                   = Some (body ++ rest)) by now apply literal_spec.
      rewrite Hl. apply thenNonSpace_spec. now exists body, rest.
    + assert (Hl : literal (lit "https://") (lit "http://" ++ body ++ rest)
                   = None) by reflexivity.
      assert (Hl' : literal (lit "http://") (lit "http://" ++ body ++ rest)
                   = Some (body ++ rest)) by now apply literal_spec.
      rewrite Hl, Hl'. apply thenNonSpace_spec. now exists body, rest.
Qed.

Lemma UrlAt_bounded (prefix s : jsstring) (n : nat) :
  UrlAt prefix s n -> (1 <= n <= List.length s)%nat.
Proof.
  intros [body [rest [-> [Hne [_ [_ ->]]]]]].
  rewrite !length_app. destruct body; [contradiction | simpl; lia].
Qed.

Lemma CitationAt_bounded : Bounded CitationAt.
Proof.
  intros s n [ds [rest [-> [_ [_ ->]]]]].
  simpl. rewrite length_app. simpl. lia.
Qed.

Lemma HttpAt_bounded : Bounded HttpAt.
Proof.
  intros s n [H|H]; eapply UrlAt_bounded; exact H.
Qed.

Lemma WwwAt_bounded : Bounded (UrlAt (lit "www.")).
Proof. intros s n H. eapply UrlAt_bounded; exact H. Qed.

(* ================================================================== *)
(** ** The tokenizer *)
(* ================================================================== *)

Lemma nonempty_tokens (s : jsstring) :
  Forall (fun tok => tok <> [] /\ Forall nonSpace tok)
    (filter (fun word => 0 <? len word) (split_whitespace s)).
Proof.
  apply Forall_forall. intros t Hin.
  apply filter_In in Hin. destruct Hin as [Hin Hlen]. split.
  - intros ->. discriminate Hlen.
  - pose proof (splitWS_pieces s false [] (Forall_nil _)) as H.
    rewrite Forall_forall in H. now apply H.
Qed.

(** C10.  For every text, every token returned by [parseText] is a
    non-empty string without a whitespace character; the same holds for the
    [parseText] of the second copy of the engine. *)
Theorem parseText_tokens_nonempty_nonspace (text : jsstring) :
  Forall (fun tok => tok <> [] /\ Forall nonSpace tok)
    (Reader.parseText text) /\
  Forall (fun tok => tok <> [] /\ Forall nonSpace tok)
    (Part000.parseText text).
Proof.
  split; apply nonempty_tokens.
Qed.

(** The tokens of the second copy are the maximal runs of the text as it
    stands: that copy strips neither citations nor URLs. *)
Lemma part000_tokens_are_maximal_runs (text : jsstring) :
  Forall (fun tok => MaximalRun tok text) (Part000.parseText text).
Proof. apply tokens_of_split. Qed.

Lemma literal_mismatch (a c : Z) (p s : jsstring) :
  a <> c -> literal (a :: p) (c :: s) = None.
Proof.
  intros H. simpl. apply Z.eqb_neq in H. now rewrite H.
Qed.

Lemma removeCitations_of_space (text : jsstring) :
  Forall (fun c => isWhiteSpace c = true) text ->
  Reader.removeCitations text = text.
Proof.
  intros H. unfold Reader.removeCitations.
  assert (Hid : forall m : jsstring -> option nat,
             (forall c s, isWhiteSpace c = true -> m (c :: s) = None) ->
             replaceAll m O text = text).
  { intros m Hm. induction H as [|c s Hc _ IH]; simpl; [reflexivity|].
    rewrite (Hm c s Hc). now rewrite IH. }
  rewrite (Hid Reader.matchCitation), (Hid Reader.matchHttp), (Hid Reader.matchWww);
    try reflexivity; intros c s Hc.
  - unfold Reader.matchWww.
    change (lit "www.") with (119 :: lit "ww.").
    rewrite (literal_mismatch 119 c); [reflexivity | intros <-; discriminate Hc].
  - unfold Reader.matchHttp.
    change (lit "https://") with (104 :: lit "ttps://").
    change (lit "http://") with (104 :: lit "ttp://").
    rewrite !(literal_mismatch 104 c);
      [reflexivity | intros <-; discriminate Hc ..].
  - unfold Reader.matchCitation.
    destruct (Z.eq_dec c 91) as [->|Hne]; [discriminate Hc|].
    destruct c as [|c|c]; try reflexivity.
    do 7 (destruct c as [c|c|]; try reflexivity). contradiction.
Qed.


(* ================================================================== *)
(** ** Highlight position and word parts *)
(* ================================================================== *)

(** Both recognition points fall inside a cleaned token that is not
    empty. *)
Lemma orp_inside (word : jsstring) :
  wordLength word = 0 \/
  0 <= Reader.getORPIndex word < wordLength word /\
  0 <= Part000.getORPIndex word < wordLength word.
Proof.
  unfold Reader.getORPIndex, Part000.getORPIndex, wordLength.
  set (n := len (keep isWordChar word)).
  assert (0 <= n) by (unfold n, len; lia).
  destruct (Z.eq_dec n 0) as [->|Hn]; [now left | right].
  cbv zeta.
  destruct (Z.leb_spec n 1), (Z.leb_spec n 3), (Z.leb_spec n 5),
    (Z.leb_spec n 9), (Z.leb_spec n 13); try lia;
    (split; [lia|]); (split; [try lia | try lia]);
    try (apply Z.div_pos; lia);
    try (apply Z.div_lt_upper_bound; lia).
Qed.

(** C1, as the code has it.  For every token the highlight offset depends
    only on the number of its word characters (ASCII letters, digits and
    underscores).  In [src/js/reader.js] it is 0 up to length 1, 1 up to
    length 5, 2 up to length 9, 3 up to length 13 and 4 beyond, so that the
    offsets of a, to, the, word, reading are 0, 1, 1, 1, 2.  In the second
    copy of the engine it is 0 up to length 1, 1 up to length 3 and the
    floor of [(length - 1) / 2] beyond, so that the same words give
    0, 1, 1, 1, 3.  In both, the offset lies inside a non-empty cleaned
    token. *)
Theorem getORPIndex_table (word : jsstring) :
  Reader.getORPIndex word = spritzOffset (wordLength word) /\
  Part000.getORPIndex word = specOffset (wordLength word) /\
  (wordLength word = 0 \/
   0 <= Reader.getORPIndex word < wordLength word /\
   0 <= Part000.getORPIndex word < wordLength word) /\
  map Reader.getORPIndex
    (map lit ["a"; "to"; "the"; "word"; "reading"]%string) = [0; 1; 1; 1; 2] /\
  map Part000.getORPIndex
    (map lit ["a"; "to"; "the"; "word"; "reading"]%string) = [0; 1; 1; 1; 3].
Proof.
  split; [reflexivity|]. split; [reflexivity|].
  split; [apply orp_inside | split; reflexivity].
Qed.

(** The claim fails on both copies at the token "to", whose offset is 1 and
    not 0, and on [src/js/reader.js] at "reading", whose offset is 2 where
    the stated policy and the stated example give 3. *)
Lemma getORPIndex_counterexample :
  Reader.getORPIndex (lit "to") <> 0 /\
  Part000.getORPIndex (lit "to") <> 0 /\
  claimedOffset (lit "to") <> 0 /\
  Reader.getORPIndex (lit "reading") <> claimedOffset (lit "reading") /\
  Reader.getORPIndex (lit "reading") <> 3.
Proof. repeat split; discriminate. Qed.

(** An underscore counts towards the length, a letter outside ASCII does
    not. *)
Example getORPIndex_underscore :
  Reader.getORPIndex (lit "a_") = 1 /\ claimedOffset (lit "a_") = 0 /\
  Part000.getORPIndex (lit "a_") = 1 /\
  Reader.getORPIndex [233; 233] = 0.
Proof. repeat split. Qed.

Lemma clamp_nat (s : jsstring) (i : Z) :
  0 <= i -> clamp s i = Nat.min (Z.to_nat i) (List.length s).
Proof. intros H. unfold clamp, len. lia. Qed.

Lemma skipn_nth (A : Type) (l : list A) :
  forall n c, nth_error l n = Some c -> skipn n l = c :: skipn (S n) l.
Proof.
  induction l as [|a l IH]; intros [|n] c H; try discriminate H.
  - injection H as ->. reflexivity.
  - simpl in H. apply IH in H. exact H.
Qed.

(** Cutting a string at any non-negative index the way [splitWord] does
    gives three parts that make up the string. *)
Lemma cut_partition (s : jsstring) (h : Z) :
  0 <= h ->
  substring s 0 h ++ Reader.charOrEmpty s h ++ substringFrom s (h + 1) = s.
Proof.
  intros Hh. unfold substringFrom, substring, Reader.charOrEmpty, charAt.
  rewrite !clamp_nat by (unfold len; lia).
  destruct (Z.ltb_spec h 0) as [|_]; [lia|].
  replace (Z.to_nat (len s)) with (List.length s) by (unfold len; lia).
  replace (Z.to_nat (h + 1)) with (S (Z.to_nat h)) by lia.
  set (n := Z.to_nat h). simpl Z.to_nat.
  rewrite Nat.min_id.
  replace (Nat.min (Nat.min 0 (List.length s)) (Nat.min n (List.length s)))
    with O by lia.
  rewrite Nat.sub_0_r. simpl skipn at 1.
  replace (Nat.max (Nat.min 0 (List.length s)) (Nat.min n (List.length s)))
    with (Nat.min n (List.length s)) by lia.
  replace (Nat.max (Nat.min (S n) (List.length s)) (List.length s))
    with (List.length s) by lia.
  replace (Nat.min (Nat.min (S n) (List.length s)) (List.length s))
    with (Nat.min (S n) (List.length s)) by lia.
  rewrite (firstn_all2 (skipn _ s)) by (rewrite length_skipn; lia).
  destruct (nth_error s n) as [c|] eqn:Hc.
  - assert (n < List.length s)%nat by (apply nth_error_Some; congruence).
    rewrite !Nat.min_l by lia.
    change ([c] ++ skipn (S n) s) with (c :: skipn (S n) s).
    rewrite <- (skipn_nth _ s n c Hc). apply firstn_skipn.
  - apply nth_error_None in Hc.
    rewrite !Nat.min_r by lia.
    rewrite firstn_all, skipn_all. simpl. apply app_nil_r.
Qed.

Lemma getORPIndex_nonneg (word : jsstring) : 0 <= Reader.getORPIndex word.
Proof.
  unfold Reader.getORPIndex. cbv zeta.
  repeat match goal with |- context [if ?b then _ else _] => destruct b end;
    lia.
Qed.

Lemma part000_getORPIndex_nonneg (word : jsstring) :
  0 <= Part000.getORPIndex word.
Proof.
  unfold Part000.getORPIndex. cbv zeta.
  set (n := len (keep isWordChar word)).
  destruct (Z.leb_spec n 1); [lia|].
  destruct (Z.leb_spec n 3); [lia|].
  apply Z.div_pos; lia.
Qed.

(** C9, as the code has it.  For every string the three parts returned by
    [splitWord] make up, in order, the string with every character other
    than an ASCII letter, a digit or an underscore removed; when nothing
    remains all three parts are empty, and otherwise the highlighted part
    is exactly one character. *)
Theorem splitWord_partition (word : jsstring) :
  let p := Reader.splitWord word in
  Reader.before p ++ Reader.highlight p ++ Reader.after p
  = keep isWordChar word /\
  match keep isWordChar word with
  | [] => p = noParts
  | _ :: _ => List.length (Reader.highlight p) = 1%nat
  end.
Proof.
  cbv zeta. split.
  - unfold Reader.splitWord. cbn [Reader.before Reader.highlight Reader.after].
    apply cut_partition, getORPIndex_nonneg.
  - destruct (orp_inside word) as [H0|[[Hlo Hhi] _]];
      unfold wordLength in *.
    + assert (E : keep isWordChar word = []).
      { destruct (keep isWordChar word); [reflexivity | discriminate H0]. }
      unfold Reader.splitWord, Reader.stripPunctuation, Reader.getORPIndex.
      rewrite E. reflexivity.
    + destruct (keep isWordChar word) as [|c s] eqn:E.
      * unfold len in Hhi. simpl in Hhi. lia.
      * unfold Reader.splitWord, Reader.stripPunctuation.
        cbn [Reader.highlight]. rewrite E.
        unfold Reader.charOrEmpty, charAt.
        destruct (Z.ltb_spec (Reader.getORPIndex word) 0) as [|_]; [lia|].
        destruct (nth_error (c :: s) (Z.to_nat (Reader.getORPIndex word)))
          eqn:Hn; [reflexivity|].
        apply nth_error_None in Hn. unfold len in Hhi. lia.
Qed.

(** The claim fails at the token made of one underscore: no letter or digit
    remains of it, yet the highlighted part is the underscore. *)
Lemma splitWord_counterexample :
  let p := Reader.splitWord (lit "_") in
  keep isAlnum (lit "_") = [] /\
  Reader.highlight p <> [] /\
  Reader.before p ++ Reader.highlight p ++ Reader.after p
  <> keep isAlnum (lit "_").
Proof. cbv zeta. repeat split; discriminate. Qed.

(** Without an underscore the word characters of a token are its ASCII
    letters and digits. *)
Lemma keep_word_alnum (word : jsstring) :
  Forall (fun c => c <> 95) word ->
  keep isWordChar word = keep isAlnum word.
Proof.
  induction 1 as [|c s Hc _ IH]; [reflexivity|].
  unfold keep in *. simpl. rewrite IH.
  replace (isWordChar c) with (isAlnum c); [reflexivity|].
  unfold isWordChar, isAlnum. apply Z.eqb_neq in Hc. rewrite Hc.
  now rewrite orb_false_r.
Qed.

(** The second copy cuts the token itself, punctuation included. *)
Lemma part000_splitWord_partition (word : jsstring) :
  let p := Part000.splitWord word in
  Reader.before p ++ Reader.highlight p ++ Reader.after p = word.
Proof.
  cbv zeta. unfold Part000.splitWord.
  cbn [Reader.before Reader.highlight Reader.after].
  apply cut_partition. unfold Part000.getHighlightIndex.
  pose proof (part000_getORPIndex_nonneg word). lia.
Qed.

Example splitWord_reading :
  Reader.splitWord (lit "(reading),")
  = Reader.mkParts (lit "re") (lit "a") (lit "ding").
Proof. reflexivity. Qed.

(* ================================================================== *)
(** ** Display duration *)
(* ================================================================== *)

Lemma dropEnd_last (C : Z -> bool) (body : jsstring) (c : Z) :
  C c = false -> dropEnd C (body ++ [c]) = body ++ [c].
Proof.
  intros Hc. unfold dropEnd. rewrite rev_app_distr. simpl.
  rewrite Hc. simpl. now rewrite rev_involutive.
Qed.

Lemma dropEnd_closing (C : Z -> bool) (s : jsstring) (c : Z) :
  C c = true -> dropEnd C (s ++ [c]) = dropEnd C s.
Proof.
  intros Hc. unfold dropEnd. rewrite rev_app_distr. simpl.
  now rewrite Hc.
Qed.

Lemma last_char (body : jsstring) (c : Z) :
  charAt (body ++ [c]) (len (body ++ [c]) - 1) = Some c.
Proof.
  unfold charAt, len. rewrite length_app. simpl.
  destruct (Z.ltb_spec (Z.of_nat (List.length body + 1) - 1) 0); [lia|].
  replace (Z.to_nat (Z.of_nat (List.length body + 1) - 1))
    with (List.length body) by lia.
  rewrite nth_error_app2 by lia. now rewrite Nat.sub_diag.
Qed.

Lemma property_of_char (c : Z) :
  Reader.orElse
    (Reader.property Reader.punctuationMultipliers [c]) 1.0%float
  = tableMultiplier c.
Proof.
  unfold tableMultiplier.
  destruct (Z.eqb_spec c 46) as [->|H1]; [reflexivity|].
  destruct (Z.eqb_spec c 33) as [->|H2]; [reflexivity|].
  destruct (Z.eqb_spec c 63) as [->|H3]; [reflexivity|].
  destruct (Z.eqb_spec c 44) as [->|H4]; [reflexivity|].
  destruct (Z.eqb_spec c 59) as [->|H5]; [reflexivity|].
  destruct (Z.eqb_spec c 58) as [->|H6]; [reflexivity|].
  destruct (Z.eqb_spec c 45) as [->|H7]; [reflexivity|].
  unfold Reader.punctuationMultipliers, Reader.property, Reader.eqb_string.
  repeat match goal with
         | |- context [list_eq_dec Z.eq_dec ?k ?l] =>
             destruct (list_eq_dec Z.eq_dec k l) as [E|_];
             [exfalso; inversion E; congruence|]
         end.
  reflexivity.
Qed.

(** The duration is the base delay times the multiplier of the last
    character that remains once the closing quotes and brackets at the end
    of the word are gone. *)
Lemma getWordDuration_last (word body : jsstring) (c : Z) (wpm : float) :
  dropEnd Reader.isClosing word = body ++ [c] ->
  Reader.getWordDuration word wpm = (60000 / wpm * tableMultiplier c)%float.
Proof.
  intros H. unfold Reader.getWordDuration, Reader.multiplierOf.
  cbv zeta. rewrite H, last_char. cbn [Reader.keyOf].
  now rewrite property_of_char.
Qed.

(** When nothing remains, the multiplier is 1. *)
Lemma getWordDuration_nothing_left (word : jsstring) (wpm : float) :
  dropEnd Reader.isClosing word = [] ->
  Reader.getWordDuration word wpm = (60000 / wpm * 1)%float.
Proof.
  intros H. unfold Reader.getWordDuration, Reader.multiplierOf.
  cbv zeta. rewrite H. reflexivity.
Qed.

Example getWordDuration_examples :
  Reader.getWordDuration (lit "word.") 300 = 400%float /\
  Reader.getWordDuration (lit "word,") 300 = 300%float /\
  Reader.getWordDuration (lit "word") 300 = 200%float /\
  Reader.getWordDuration (lit "word." ++ [34]) 300 = 400%float /\
  Reader.getWordDuration (lit "(end).") 300 = 400%float /\
  Reader.getWordDuration (lit "well-") 300 = 240%float.
Proof. repeat split. Qed.

(** C2, where the code departs from it.  A word that ends in an em dash
    (U+2014) is shown for the base delay alone, whatever the rate: the table
    entry meant for the em dash has a key of three characters, which no
    last character equals.  At 300 words per minute the word lasts 200
    milliseconds, not the 260 that a multiplier of 1.3 gives. *)
Theorem getWordDuration_em_dash (body : jsstring) (wpm : float) :
  Reader.getWordDuration (body ++ [8212]) wpm = (60000 / wpm * 1)%float /\
  Reader.getWordDuration (lit "word" ++ [8212]) 300 = 200%float /\
  (60000 / 300 * 1.3)%float = 260%float.
Proof.
  split; [|split; reflexivity].
  rewrite (getWordDuration_last (body ++ [8212]) body 8212 wpm).
  - reflexivity.
  - now apply dropEnd_last.
Qed.

(** A typographic closing quote (U+201D) is not among the characters
    stripped from the end of a word, so it hides the full stop before it. *)
Example getWordDuration_curly_quote :
  Reader.getWordDuration (lit "word." ++ [8221]) 300 = 200%float.
Proof. reflexivity. Qed.

(* ================================================================== *)
(** ** Time formatting *)
(* ================================================================== *)

(** Numbers as text: the shortest digits that read back as the number,
    zeros up to the decimal point, an exponent from [10^21] on and below
    [10^-6]. *)
Example toString_examples :
  Num.toString 60 = Some (lit "60") /\
  Num.toString 0x1p+53 = Some (lit "9007199254740992") /\
  Num.toString 0x1p+60 = Some (lit "1152921504606847000") /\
  Num.toString 1e21 = Some (lit "1e+21") /\
  Num.toString 0.1 = Some (lit "0.1") /\
  Num.toString 1.5e-7 = Some (lit "1.5e-7") /\
  Num.toString (-2.5) = Some (lit "-2.5") /\
  Reader.formatTime 0x1.ep+58 = Some (lit "9007199254740992:00").
Proof. vm_compute. repeat split. Qed.

Example formatTime_examples :
  Reader.formatTime 0 = Some (lit "0:00") /\
  Reader.formatTime 5 = Some (lit "0:05") /\
  Reader.formatTime 59.4 = Some (lit "0:59") /\
  Reader.formatTime 125.5 = Some (lit "2:06") /\
  Reader.formatTime 3600 = Some (lit "60:00").
Proof. repeat split. Qed.

(** C4, where the code departs from it.  The seconds are rounded after the
    minutes have been taken by a floor, and nothing carries a rounded 60
    over: 59.5 seconds are formatted as "0:60" and 119.5 seconds as "1:60".
    The engine reaches the case by itself: with 299 words left at 300 words
    per minute the remaining time is about 59.8 seconds. *)
Theorem formatTime_shows_60_seconds :
  Reader.formatTime 59.5 = Some (lit "0:60") /\
  Reader.formatTime 119.5 = Some (lit "1:60") /\
  Reader.remainingTime (Reader.getProgress 299 0 300) = Some (lit "0:60").
Proof. repeat split. Qed.

(* ================================================================== *)
(** ** The engine *)
(* ================================================================== *)

Lemma completions_app (l1 l2 : list event) :
  completions (l1 ++ l2) = (completions l1 + completions l2)%nat.
Proof.
  induction l1 as [|e l1 IH]; [reflexivity|].
  destruct e; simpl; rewrite IH; reflexivity.
Qed.

Lemma wordAt_some (w : world) (i : Z) :
  0 <= i < total w -> exists word, wordAt w i = Some word.
Proof.
  intros [Hlo Hhi]. unfold wordAt, elementAt, total in *.
  destruct (Z.ltb_spec i 0) as [|_]; [lia|].
  destruct (nth_error (words w) (Z.to_nat i)) as [word|] eqn:E.
  - now exists word.
  - apply nth_error_None in E. lia.
Qed.

Lemma TimerInv_ok (w : world) : TimerInv w -> TimerOk w.
Proof.
  unfold TimerInv, TimerOk.
  destruct (pending w) as [|[id d] [|t pd]]; tauto.
Qed.

(** [pause] where the timer is in order: the timeout, if any, is gone. *)
Lemma pause_eq (w : world) :
  TimerOk w ->
  pause w = mkWorld (words w) (currentIndex w) false None (expectedTime w)
              (onWordChange w) (onProgress w) (onComplete w)
              [] (nextId w) (log w).
Proof.
  destruct w as [ws idx pl tm et wc pr co pd nid lg].
  unfold TimerOk, pause. simpl.
  destruct pd as [|[id d] [|t pd]]; simpl.
  - intros _. destruct tm; reflexivity.
  - intros ->. unfold set_timer, clearTimeout. simpl.
    now rewrite Nat.eqb_refl.
  - intros [].
Qed.

Lemma showWord_facts (word : jsstring) (w : world) :
  let w' := showWord word w in
  SameSetup w w' /\ currentIndex w' = currentIndex w /\
  isPlaying w' = isPlaying w /\ timer w' = timer w /\
  pending w' = pending w /\ nextId w' = nextId w /\
  expectedTime w' = expectedTime w /\
  completions (log w') = completions (log w).
Proof.
  unfold showWord, SameSetup. destruct (onWordChange w) eqn:E; simpl;
    rewrite ?completions_app, ?E; simpl; repeat split; lia.
Qed.

Lemma showProgress_facts (wpm : float) (w : world) :
  let w' := showProgress wpm w in
  SameSetup w w' /\ currentIndex w' = currentIndex w /\
  isPlaying w' = isPlaying w /\ timer w' = timer w /\
  pending w' = pending w /\ nextId w' = nextId w /\
  expectedTime w' = expectedTime w /\
  completions (log w') = completions (log w).
Proof.
  unfold showProgress, SameSetup. destruct (onProgress w) eqn:E; simpl;
    rewrite ?completions_app, ?E; simpl; repeat split; lia.
Qed.

(** [scheduleNext] while playing short of the end: the word is shown and one
    more timeout is set. *)
Lemma scheduleNext_shows (now : float) (rate : option float) (w : world) :
  isPlaying w = true ->
  0 <= currentIndex w < total w ->
  exists w' delay,
    scheduleNext now rate w = Done w' /\
    SameSetup w w' /\ currentIndex w' = currentIndex w /\
    isPlaying w' = true /\ timer w' = Some (nextId w) /\
    pending w' = pending w ++ [(nextId w, delay)] /\
    completions (log w') = completions (log w).
Proof.
  intros Hp Hi. unfold scheduleNext. rewrite Hp.
  destruct (Z.leb_spec (total w) (currentIndex w)) as [|_]; [lia|].
  simpl negb. simpl orb. cbv iota.
  destruct (wordAt_some w (currentIndex w) Hi) as [word ->].
  eexists. eexists. split; [reflexivity|].
  match goal with
  | |- context [showProgress ?r (showWord ?wd ?w0)] =>
      pose proof (showProgress_facts r (showWord wd w0)) as HP;
      pose proof (showWord_facts wd w0) as HW
  end.
  cbv zeta in HP, HW.
  destruct HP as [[P1 [P2 [P3 P4]]] [P5 [P6 [P7 [P8 [P9 [P10 P11]]]]]]].
  destruct HW as [[W1 [W2 [W3 W4]]] [W5 [W6 [W7 [W8 [W9 [W10 W11]]]]]]].
  unfold SameSetup, setTimeout. simpl.
  rewrite P1, P2, P3, P4, P5, P6, P8, P9, P11.
  rewrite W1, W2, W3, W4, W5, W6, W8, W9, W11.
  simpl. repeat split; assumption.
Qed.

(** [scheduleNext] at the terminal position: the engine stops and calls the
    completion callback, if there is one. *)
Lemma scheduleNext_ends (now : float) (rate : option float) (w : world) :
  total w <= currentIndex w ->
  scheduleNext now rate w
  = Done (if onComplete w then emit Completed (set_isPlaying false w)
          else set_isPlaying false w).
Proof.
  intros H. unfold scheduleNext.
  destruct (Z.leb_spec (total w) (currentIndex w)) as [_|]; [|lia].
  rewrite orb_true_r. simpl. now destruct (onComplete w).
Qed.

Lemma not_playing_idle (w : world) :
  TimerInv w -> isPlaying w = false -> pending w = [].
Proof.
  unfold TimerInv. destruct (pending w) as [|[id d] [|t pd]]; try tauto.
  intros [H _] H'. congruence.
Qed.

Lemma playing_one_timeout (w : world) :
  TimerInv w -> isPlaying w = true ->
  exists id d, pending w = [(id, d)] /\ timer w = Some id /\
               currentIndex w < total w.
Proof.
  unfold TimerInv. destruct (pending w) as [|[id d] [|t pd]]; try tauto.
  - congruence.
  - intros [_ [H1 H2]] _. now exists id, d.
Qed.

Lemma Inv_pause (w : world) : Inv w -> Inv (pause w).
Proof.
  intros [Hb [Ht Hc]]. rewrite pause_eq by now apply TimerInv_ok.
  unfold Inv, TimerInv, TerminalInv, total in *. simpl. auto.
Qed.

Lemma Inv_stop (w : world) : Inv w -> Inv (stop w).
Proof.
  intros [Hb [Ht Hc]]. unfold stop. rewrite pause_eq by now apply TimerInv_ok.
  unfold Inv, TimerInv, TerminalInv, total in *. simpl.
  repeat split; lia.
Qed.

Lemma Inv_init (text : jsstring) (w : world) : TimerOk w -> Inv (init text w).
Proof.
  intros Ht. unfold init, stop. rewrite pause_eq by exact Ht.
  unfold Inv, TimerInv, TerminalInv, total. simpl.
  repeat split; lia.
Qed.

Lemma Inv_restart (w : world) : Inv w -> Inv (restart w).
Proof.
  intros [Hb [Ht Hc]]. unfold restart.
  rewrite pause_eq by now apply TimerInv_ok.
  destruct w as [ws idx pl tm et wc pr co pd nid lg]. fields.
  destruct ws as [|first rest], wc, pr; split_inv.
Qed.

Lemma Live_showWord (word : jsstring) (w : world) :
  Live w -> Live (showWord word w).
Proof.
  intros [[Hb [Ht Hc]] Hl].
  destruct w as [ws idx pl tm et wc pr co pd nid lg].
  unfold Live. destruct wc; split_inv; auto.
Qed.

Lemma Live_showProgress (wpm : float) (w : world) :
  Live w -> Live (showProgress wpm w).
Proof.
  intros [[Hb [Ht Hc]] Hl].
  destruct w as [ws idx pl tm et wc pr co pd nid lg].
  unfold Live. destruct pr; split_inv; auto.
Qed.

Lemma Inv_goToEnd (w : world) :
  Inv w -> exists w', goToEnd w = Done w' /\ Inv w'.
Proof.
  intros [Hb [Ht Hc]]. unfold goToEnd.
  rewrite pause_eq by now apply TimerInv_ok.
  set (w1 := set_currentIndex _ _).
  assert (H1 : Live w1 /\ 0 <= currentIndex w1 /\
               (0 < total w1 -> currentIndex w1 < total w1)).
  { subst w1. destruct w as [ws idx pl tm et wc pr co pd nid lg].
    unfold Live. split_inv. }
  destruct H1 as [Hl [H0 Hlt]].
  destruct (Z.ltb_spec 0 (total w1)) as [Hpos|Hemp].
  - destruct (onWordChange w1).
    + destruct (wordAt_some w1 (currentIndex w1)) as [word ->]; [lia|].
      eexists. split; [reflexivity|].
      now apply Live_showProgress, Live_showWord.
    + eexists. split; [reflexivity|]. now apply Live_showProgress.
  - eexists. split; [reflexivity|]. now apply Live_showProgress.
Qed.

Lemma Inv_displayWordAt (index : Z) (wpm : float) (w : world) :
  Inv w -> exists w', displayWordAt index wpm w = Done w' /\ Inv w'.
Proof.
  intros HI. unfold displayWordAt.
  destruct (Z.leb_spec 0 index) as [Hlo|]; cbn [andb];
    [|exists w; now split].
  destruct (Z.ltb_spec index (total w)) as [Hhi|]; [|exists w; now split].
  set (w1 := set_currentIndex index w).
  assert (Hl : Live w1 /\ total w1 = total w).
  { subst w1. destruct HI as [Hb [Ht Hc]].
    destruct w as [ws idx pl tm et wc pr co pd nid lg].
    unfold Live. split_inv.
    destruct pd as [|[id d] [|t pd]]; auto.
    destruct Ht as [? [? ?]]. auto. }
  destruct Hl as [Hl Htot].
  destruct (onWordChange w1).
  - destruct (wordAt_some w1 index) as [word ->]; [lia|].
    eexists. split; [reflexivity|].
    now apply Live_showProgress, Live_showWord.
  - eexists. split; [reflexivity|]. now apply Live_showProgress.
Qed.

(** What [scheduleNext] leaves behind when called on a playing engine with
    no timeout pending. *)
Lemma Inv_scheduleNext (now : float) (rate : option float) (w : world) :
  isPlaying w = true -> pending w = [] ->
  0 <= currentIndex w <= total w ->
  exists w',
    scheduleNext now rate w = Done w' /\ Inv w' /\ SameSetup w w' /\
    if total w <=? currentIndex w
    then currentIndex w' = currentIndex w /\ isPlaying w' = false /\
         completions (log w')
         = (completions (log w) + if onComplete w then 1 else 0)%nat
    else currentIndex w' = currentIndex w /\ isPlaying w' = true /\
         completions (log w') = completions (log w).
Proof.
  intros Hp Hpd Hb. destruct (Z.leb_spec (total w) (currentIndex w)) as [He|Hs].
  - rewrite scheduleNext_ends by exact He.
    eexists. split; [reflexivity|].
    destruct w as [ws idx pl tm et wc pr co pd nid lg].
    unfold SameSetup. fields. subst pd.
    destruct co; split_inv; rewrite ?completions_app; simpl; try lia.
    intros _. right. intros _. now exists lg.
  - destruct (scheduleNext_shows now rate w Hp) as [w' [d [E H]]]; [lia|].
    destruct H as [Hs' [Hi [Hpl [Htm [Hpe Hco]]]]].
    exists w'. split; [exact E|]. split; [|split; [exact Hs'|auto]].
    destruct Hs' as [Hw _].
    unfold Inv, TimerInv, TerminalInv, total in *.
    rewrite Hi, Hpl, Htm, Hpe, Hpd, Hw. simpl. repeat split; lia.
Qed.

(** [play] on a paused or stopped engine. *)
Lemma play_spec (now0 now : float) (rate : option float) (w : world) :
  Inv w -> isPlaying w = false ->
  let start := if total w <=? currentIndex w then 0 else currentIndex w in
  exists w',
    play now0 now rate w = Done w' /\ Inv w' /\ SameSetup w w' /\
    currentIndex w' = start /\
    if total w <=? start
    then isPlaying w' = false /\
         completions (log w')
         = (completions (log w) + if onComplete w then 1 else 0)%nat
    else isPlaying w' = true /\
         completions (log w') = completions (log w).
Proof.
  intros [Hb [Ht Hc]] Hp. cbv zeta. unfold play. rewrite Hp.
  pose proof (not_playing_idle w Ht Hp) as Hpd.
  set (w3 := set_expectedTime now0 _).
  assert (H3 : isPlaying w3 = true /\ pending w3 = [] /\
               SameSetup w w3 /\ log w3 = log w /\
               currentIndex w3
               = (if total w <=? currentIndex w then 0 else currentIndex w)).
  { subst w3. unfold SameSetup.
    destruct (total w <=? currentIndex w); fields; auto 10. }
  destruct H3 as [H1 [H2 [[Hw [Hwc [Hpr Hco]]] [Hlog Hidx]]]].
  assert (Htot : total w3 = total w) by (unfold total; now rewrite Hw).
  destruct (Inv_scheduleNext now rate w3 H1 H2) as [w' [E [HI [HS Hcase]]]].
  { rewrite Hidx, Htot. destruct (Z.leb_spec (total w) (currentIndex w)); lia. }
  exists w'. split; [exact E|]. split; [exact HI|].
  destruct HS as [Sw [Swc [Spr Sco]]].
  split; [unfold SameSetup; repeat split; congruence|].
  rewrite Htot, Hidx, Hlog, Hco in Hcase.
  destruct (total w <=? (if total w <=? currentIndex w then 0
                         else currentIndex w));
    destruct Hcase as [Ha [Hb' Hc']]; auto.
Qed.

(** The pending timeout of a playing engine expires. *)
Lemma expire_spec (id : nat) (d now : float) (rate : option float)
  (w : world) :
  Inv w -> pending w = [(id, d)] ->
  exists w',
    expire id now rate w = Done w' /\ Inv w' /\ SameSetup w w' /\
    currentIndex w' = currentIndex w + 1 /\
    if total w <=? currentIndex w + 1
    then isPlaying w' = false /\
         completions (log w')
         = (completions (log w) + if onComplete w then 1 else 0)%nat
    else isPlaying w' = true /\
         completions (log w') = completions (log w).
Proof.
  intros [Hb [Ht Hc]] Hpd. unfold expire. rewrite Hpd.
  cbn [existsb fst]. rewrite Nat.eqb_refl. cbn [orb].
  unfold TimerInv in Ht. rewrite Hpd in Ht. destruct Ht as [Hp [Htm Hlt]].
  set (w2 := set_currentIndex _ _).
  assert (H2 : isPlaying w2 = true /\ pending w2 = [] /\
               SameSetup w w2 /\ log w2 = log w /\
               currentIndex w2 = currentIndex w + 1).
  { subst w2. unfold SameSetup, clearTimeout. fields. rewrite Hpd.
    cbn [filter fst]. rewrite Nat.eqb_refl. cbn [negb]. auto 10. }
  destruct H2 as [H1 [H2 [[Hw [Hwc [Hpr Hco]]] [Hlog Hidx]]]].
  assert (Htot : total w2 = total w) by (unfold total; now rewrite Hw).
  destruct (Inv_scheduleNext now rate w2 H1 H2) as [w' [E [HI [HS Hcase]]]].
  { rewrite Hidx, Htot. lia. }
  exists w'. split; [exact E|]. split; [exact HI|].
  destruct HS as [Sw [Swc [Spr Sco]]].
  split; [unfold SameSetup; repeat split; congruence|].
  rewrite Htot, Hidx, Hlog, Hco in Hcase.
  destruct (total w <=? currentIndex w + 1);
    destruct Hcase as [Ha [Hb' Hc']]; auto.
Qed.

Lemma expire_stale (id : nat) (now : float) (rate : option float)
  (w : world) :
  pending w = [] -> expire id now rate w = Done w.
Proof. intros H. unfold expire. now rewrite H. Qed.

(** Every operation finishes, and keeps a well-formed state well formed. *)
Lemma Inv_exec (o : op) (w : world) :
  Inv w -> exists w', exec o w = Done w' /\ Inv w'.
Proof.
  intros HI. destruct o as [text|now0 now rate|id now rate| | | | |index wpm];
    cbn [exec].
  - eexists. split; [reflexivity|].
    apply Inv_init, TimerInv_ok. apply HI.
  - destruct (isPlaying w) eqn:Hp.
    + exists w. split; [|exact HI]. unfold play. now rewrite Hp.
    + destruct (play_spec now0 now rate w HI Hp) as [w' [E [HI' _]]].
      now exists w'.
  - destruct (pending w) as [|[id' d] rest] eqn:Hpd.
    + exists w. split; [now apply expire_stale | exact HI].
    + assert (rest = []) as ->.
      { destruct HI as [_ [Ht _]]. unfold TimerInv in Ht. rewrite Hpd in Ht.
        destruct rest; [reflexivity | contradiction]. }
      destruct (Nat.eqb_spec id' id) as [->|Hne].
      * destruct (expire_spec id d now rate w HI Hpd) as [w' [E [HI' _]]].
        now exists w'.
      * exists w. split; [|exact HI]. unfold expire. rewrite Hpd.
        cbn [existsb fst]. apply Nat.eqb_neq in Hne. now rewrite Hne.
  - eexists. split; [reflexivity | now apply Inv_pause].
  - eexists. split; [reflexivity | now apply Inv_stop].
  - eexists. split; [reflexivity | now apply Inv_restart].
  - now apply Inv_goToEnd.
  - now apply Inv_displayWordAt.
Qed.

Lemma Inv_boot (wc pr co : bool) : Inv (boot wc pr co).
Proof. unfold boot. split_inv. Qed.

(** Whatever the controller and the host do from the start, no operation
    throws and the state stays well formed. *)
Lemma Inv_run_ops (os : list op) :
  forall w, Inv w -> exists w', run_ops os w = Done w' /\ Inv w'.
Proof.
  induction os as [|o os IH]; intros w HI; cbn [run_ops].
  - now exists w.
  - destruct (Inv_exec o w HI) as [w1 [-> HI1]]. now apply IH.
Qed.

Lemma Reachable_Inv (w : world) : Reachable w -> Inv w.
Proof.
  intros [wc [pr [co [os E]]]].
  destruct (Inv_run_ops os (boot wc pr co) (Inv_boot wc pr co))
    as [w' [E' HI]].
  congruence.
Qed.

(** The operations other than [play] and the expiry of a timeout never call
    the completion callback. *)
Lemma completions_showWord (word : jsstring) (w : world) :
  completions (log (showWord word w)) = completions (log w).
Proof. apply (showWord_facts word w). Qed.

Lemma completions_showProgress (wpm : float) (w : world) :
  completions (log (showProgress wpm w)) = completions (log w).
Proof. apply (showProgress_facts wpm w). Qed.

Lemma quiet_exec (o : op) (w w' : world) :
  TimerOk w ->
  match o with Play _ _ _ | Expire _ _ _ => False | _ => True end ->
  exec o w = Done w' ->
  completions (log w') = completions (log w).
Proof.
  intros Ht Ho E.
  destruct o as [text|now0 now rate|id now rate| | | | |index wpm];
    try contradiction; cbn [exec] in E.
  - injection E as <-. unfold init, stop. now rewrite pause_eq.
  - injection E as <-. now rewrite pause_eq.
  - injection E as <-. unfold stop. now rewrite pause_eq.
  - injection E as <-. unfold restart. rewrite pause_eq by exact Ht.
    rewrite completions_showProgress.
    match goal with
    | |- context [match ?x with [] => _ | _ :: _ => _ end] => destruct x
    end; rewrite ?completions_showWord; reflexivity.
  - unfold goToEnd in E. rewrite pause_eq in E by exact Ht.
    repeat match type of E with
           | (if ?b then _ else _) = _ => destruct b
           | match ?x with Some _ => _ | None => _ end = _ => destruct x
           end; try discriminate E; injection E as <-;
      rewrite ?completions_showProgress, ?completions_showWord; reflexivity.
  - unfold displayWordAt in E.
    repeat match type of E with
           | (if ?b then _ else _) = _ => destruct b
           | match ?x with Some _ => _ | None => _ end = _ => destruct x
           end; try discriminate E; injection E as <-;
      rewrite ?completions_showProgress, ?completions_showWord; reflexivity.
Qed.

(** An operation calls the completion callback at most once, and when it
    does it leaves the engine stopped at the terminal position. *)
Lemma completion_step (o : op) (w : world) :
  Inv w ->
  exists w',
    exec o w = Done w' /\
    (completions (log w') = completions (log w) \/
     completions (log w') = S (completions (log w)) /\
     currentIndex w' = total w' /\ isPlaying w' = false).
Proof.
  intros HI.
  assert (Hq : match o with Play _ _ _ | Expire _ _ _ => False | _ => True end
               -> exists w',
                    exec o w = Done w' /\
                    (completions (log w') = completions (log w) \/
                     completions (log w') = S (completions (log w)) /\
                     currentIndex w' = total w' /\ isPlaying w' = false)).
  { intros Ho. destruct (Inv_exec o w HI) as [w' [E _]].
    exists w'. split; [exact E | left].
    eapply quiet_exec; eauto. apply TimerInv_ok, HI. }
  assert (Hcase : forall w' : world,
             SameSetup w w' ->
             forall i : Z,
             currentIndex w' = i ->
             (if total w <=? i
              then isPlaying w' = false /\
                   completions (log w')
                   = (completions (log w) + if onComplete w then 1 else 0)%nat
              else isPlaying w' = true /\
                   completions (log w') = completions (log w)) ->
             Inv w' ->
             completions (log w') = completions (log w) \/
             completions (log w') = S (completions (log w)) /\
             currentIndex w' = total w' /\ isPlaying w' = false).
  { intros w' [Hw _] i Hi Hc [Hb _].
    assert (Htot : total w' = total w) by (unfold total; now rewrite Hw).
    destruct (Z.leb_spec (total w) i); destruct Hc as [Hp Hn].
    - destruct (onComplete w); cbn iota in Hn; [right | left];
        repeat split; try lia; exact Hp.
    - now left. }
  destruct o as [text|now0 now rate|id now rate| | | | |index wpm];
    try (apply Hq; exact I); cbn [exec].
  - destruct (isPlaying w) eqn:Hp.
    + exists w. split; [unfold play; now rewrite Hp | now left].
    + destruct (play_spec now0 now rate w HI Hp)
        as [w' [E [HI' [HS [Hi Hc]]]]].
      exists w'. split; [exact E|]. eapply Hcase; eauto.
  - destruct (pending w) as [|[id' d] rest] eqn:Hpd.
    + exists w. split; [now apply expire_stale | now left].
    + assert (rest = []) as ->.
      { destruct HI as [_ [Ht _]]. unfold TimerInv in Ht. rewrite Hpd in Ht.
        destruct rest; [reflexivity | contradiction]. }
      destruct (Nat.eqb_spec id' id) as [->|Hne].
      * destruct (expire_spec id d now rate w HI Hpd)
          as [w' [E [HI' [HS [Hi Hc]]]]].
        exists w'. split; [exact E|]. eapply Hcase; eauto.
      * exists w. split; [|now left]. unfold expire. rewrite Hpd.
        cbn [existsb fst]. apply Nat.eqb_neq in Hne. now rewrite Hne.
Qed.

(** Uninterrupted playing from a playing state: every expiry moves the index
    by one until the terminal position is reached; the engine then stops,
    calls the completion callback once, and further readings of the clock
    find no timeout to expire. *)
Lemma ticks_spec (readings : list (float * option float)) :
  forall w, Inv w ->
  exists wk,
    ticks readings w = Done wk /\ Inv wk /\ SameSetup w wk /\
    if isPlaying w then
      if Z.of_nat (List.length readings) <? total w - currentIndex w
      then currentIndex wk = currentIndex w + Z.of_nat (List.length readings)
           /\ isPlaying wk = true
           /\ completions (log wk) = completions (log w)
      else currentIndex wk = total w /\ isPlaying wk = false
           /\ completions (log wk)
              = (completions (log w) + if onComplete w then 1 else 0)%nat
    else wk = w.
Proof.
  induction readings as [|[now rate] rest IH]; intros w HI.
  - exists w. cbn [ticks List.length]. split; [reflexivity|].
    split; [exact HI|]. split; [unfold SameSetup; auto|].
    destruct (isPlaying w) eqn:Hp; [|reflexivity].
    destruct (playing_one_timeout w) as [id [d [_ [_ Hlt]]]];
      [apply HI | exact Hp |].
    destruct (Z.ltb_spec (Z.of_nat 0) (total w - currentIndex w)); [|lia].
    repeat split; try exact Hp; simpl; lia.
  - cbn [ticks]. unfold tick.
    destruct (isPlaying w) eqn:Hp.
    + destruct (playing_one_timeout w) as [id [d [Hpd [_ Hlt]]]];
        [apply HI | exact Hp |].
      rewrite Hpd.
      destruct (expire_spec id d now rate w HI Hpd)
        as [w2 [E [HI2 [HS [Hi Hc]]]]].
      rewrite E. destruct (IH w2 HI2) as [wk [Ek [HIk [HSk Hk]]]].
      exists wk. split; [exact Ek|]. split; [exact HIk|].
      destruct HS as [Sw [Swc [Spr Sco]]].
      destruct HSk as [Kw [Kwc [Kpr Kco]]].
      split; [unfold SameSetup; repeat split; congruence|].
      assert (Htot : total w2 = total w) by (unfold total; now rewrite Sw).
      cbn [List.length]. rewrite Nat2Z.inj_succ.
      destruct (Z.leb_spec (total w) (currentIndex w + 1));
        destruct Hc as [Hp2 Hn2]; rewrite Hp2 in Hk.
      * subst wk.
        destruct (Z.ltb_spec (Z.succ (Z.of_nat (List.length rest)))
                    (total w - currentIndex w)); [lia|].
        repeat split; [lia | exact Hp2 | exact Hn2].
      * rewrite Htot, Hi, Hn2, Sco in Hk.
        destruct (Z.ltb_spec (Z.of_nat (List.length rest))
                    (total w - (currentIndex w + 1)));
          destruct (Z.ltb_spec (Z.succ (Z.of_nat (List.length rest)))
                      (total w - currentIndex w)); try lia;
          destruct Hk as [K1 [K2 K3]]; repeat split; auto; lia.
    + rewrite (not_playing_idle w) by (apply HI || exact Hp).
      destruct (IH w HI) as [wk [Ek [HIk [HSk Hk]]]].
      rewrite Hp in Hk. subst wk. exists w.
      split; [exact Ek|]. split; [exact HI|]. split; [exact HSk | reflexivity].
Qed.

(** C5.  Let [play] be called on a paused or stopped engine and the timeout
    expire after it [steps] times in a row with nothing in between, and let
    [start] be the index playback starts from (0 when the index stood at the
    terminal position).  While fewer steps were taken than words remained,
    the index is [start + steps], the engine is playing and the completion
    callback was not called.  From the step that reaches the terminal
    position on, the index is the length of the sequence, the engine is
    stopped with no timeout pending, and the completion callback was called
    exactly once if it is installed: further expiries find nothing to do.
    Besides, any single operation [o] on any state the engine can be in
    calls the completion callback at most once, and if it does, it leaves
    the engine stopped at the terminal position. *)
Theorem uninterrupted_playback
  (w : world) (now0 now : float) (rate : option float)
  (readings : list (float * option float)) (o : op) (w0 : world) :
  Reachable w -> isPlaying w = false -> Reachable w0 ->
  let start := if total w <=? currentIndex w then 0 else currentIndex w in
  let steps := Z.of_nat (List.length readings) in
  (exists w1 wk,
     play now0 now rate w = Done w1 /\ currentIndex w1 = start /\
     ticks readings w1 = Done wk /\
     if steps <? total w - start
     then currentIndex wk = start + steps /\ isPlaying wk = true /\
          completions (log wk) = completions (log w)
     else currentIndex wk = total w /\ isPlaying wk = false /\
          pending wk = [] /\
          completions (log wk)
          = (completions (log w) + if onComplete w then 1 else 0)%nat) /\
  (exists w',
     exec o w0 = Done w' /\
     (completions (log w') = completions (log w0) \/
      completions (log w') = S (completions (log w0)) /\
      currentIndex w' = total w' /\ isPlaying w' = false)).
Proof.
  intros HI Hp HI0. apply Reachable_Inv in HI, HI0.
  cbv zeta. split; [|now apply completion_step].
  destruct (play_spec now0 now rate w HI Hp) as [w1 [E1 [HI1 [HS1 [Hi1 Hc1]]]]].
  cbv zeta in Hi1, Hc1.
  destruct (ticks_spec readings w1 HI1) as [wk [Ek [HIk [HSk Hk]]]].
  exists w1, wk. split; [exact E1|]. split; [exact Hi1|]. split; [exact Ek|].
  set (start := if total w <=? currentIndex w then 0 else currentIndex w) in *.
  assert (Htot : total w1 = total w).
  { destruct HS1 as [Hw _]. unfold total. now rewrite Hw. }
  assert (Hstart : 0 <= start <= total w).
  { destruct HI as [Hb _]. subst start.
    destruct (Z.leb_spec (total w) (currentIndex w)); lia. }
  assert (Hco : onComplete w1 = onComplete w) by apply HS1.
  destruct (Z.leb_spec (total w) start) as [Hend|Hgo];
    destruct Hc1 as [Hp1 Hn1]; rewrite Hp1 in Hk.
  - subst wk.
    destruct (Z.ltb_spec (Z.of_nat (List.length readings)) (total w - start));
      [lia|].
    repeat split; try assumption; try lia.
    apply not_playing_idle; [apply HI1 | exact Hp1].
  - rewrite Htot, Hi1, Hn1, Hco in Hk.
    destruct (Z.ltb_spec (Z.of_nat (List.length readings)) (total w - start));
      destruct Hk as [K1 [K2 K3]]; repeat split; try assumption.
    apply not_playing_idle; [apply HIk | exact K2].
Qed.

Lemma Reachable_demo : Reachable demo.
Proof.
  exists true, true, true, [Init (lit "Hello, world. This is a test")].
  reflexivity.
Defined.

(** Six expiries after [play] take the six-word text to its end. *)
Lemma uninterrupted_playback_witness :
  let readings := repeat (zero, Some 600%float) 6 in
  (exists w1 wk,
     play zero zero (Some 600%float) demo = Done w1 /\ currentIndex w1 = 0 /\
     ticks readings w1 = Done wk /\
     currentIndex wk = 6 /\ isPlaying wk = false /\ pending wk = [] /\
     completions (log wk) = 1%nat) /\
  (exists w',
     exec Pause demo = Done w' /\
     (completions (log w') = completions (log demo) \/
      completions (log w') = S (completions (log demo)) /\
      currentIndex w' = total w' /\ isPlaying w' = false)).
Proof.
  destruct (uninterrupted_playback demo zero zero (Some 600%float)
              (repeat (zero, Some 600%float) 6) Pause demo
              Reachable_demo eq_refl Reachable_demo)
    as [[w1 [wk [E1 [Hi [Ek Hk]]]]] H2].
  assert (Htot : total demo = 6) by (vm_compute; reflexivity).
  assert (Hidx : currentIndex demo = 0) by reflexivity.
  assert (Hlog : log demo = []) by reflexivity.
  assert (Hco : onComplete demo = true) by reflexivity.
  rewrite Htot, Hidx, Hlog, Hco in *.
  cbn in Hi, Hk.
  split; [|exact H2].
  exists w1, wk. repeat split; tauto.
Defined.

(** The scenario itself at 600 words per minute, on a clock that shows no
    drift: the first two timeouts are set to 150 and 200 milliseconds, and
    the durations of the six words are 150, 200, 100, 100, 100 and 100
    milliseconds. *)
Example demo_first_delays :
  exists w1 w2,
    play zero zero (Some 600%float) demo = Done w1 /\
    pending w1 = [(1%nat, 150%float)] /\
    tick 150 (Some 600%float) w1 = Done w2 /\
    pending w2 = [(2%nat, 200%float)] /\
    map (fun word => getWordDuration word 600) (words demo)
    = [150; 200; 100; 100; 100; 100]%float.
Proof.
  eexists. eexists.
  repeat (split; [vm_compute; reflexivity|]).
  vm_compute. reflexivity.
Qed.

(** The whole run shows the six words in order, cleaned of punctuation, and
    then calls the completion callback, once. *)
Example demoRun_log :
  match run_ops demoRun (boot true true true) with
  | Done w =>
      shown (log w) = map lit ["Hello"; "world"; "This"; "is"; "a"; "test"]%string
      /\ completions (log w) = 1%nat /\ endsCompleted (log w)
  | Throws => False
  end.
Proof.
  vm_compute. split; [reflexivity|]. split; [reflexivity|].
  match goal with
  | |- exists l', ?l = _ => exists (removelast l); reflexivity
  end.
Qed.

(** C6, as the code has it.  From the initial object, with any choice of
    callbacks, every sequence of operations ([init], [play], timeout
    expiries, [pause], [stop], [restart], [goToEnd], [displayWordAt]) runs
    without an error and ends in a state with [0 <= currentIndex <= length];
    one more operation of any kind keeps it so.  The index equals the length
    only when the engine is stopped with no timeout pending and, moreover,
    either the sequence is empty or the completion callback, if installed,
    was the last callback called. *)
Theorem position_invariant (wc pr co : bool) (os : list op) :
  match run_ops os (boot wc pr co) with
  | Done w =>
      0 <= currentIndex w <= total w /\
      (currentIndex w = total w ->
       isPlaying w = false /\ pending w = [] /\
       (total w = 0 \/ (onComplete w = true -> endsCompleted (log w)))) /\
      (forall o,
         match exec o w with
         | Done w' => 0 <= currentIndex w' <= total w'
         | Throws => False
         end)
  | Throws => False
  end.
Proof.
  destruct (Inv_run_ops os (boot wc pr co) (Inv_boot wc pr co))
    as [w [-> HI]].
  split; [apply HI|]. split.
  - intros Hend. destruct HI as [Hb [Ht Hc]].
    assert (Hpd : pending w = []).
    { unfold TimerInv in Ht.
      destruct (pending w) as [|[id d] [|t pd]]; [reflexivity | lia | tauto]. }
    unfold TimerInv in Ht. rewrite Hpd in Ht. auto.
  - intros o. destruct (Inv_exec o w HI) as [w' [-> HI']]. apply HI'.
Qed.

(** Playing the six-word text to its end leaves the index at the length,
    right after the completion callback. *)
Lemma position_invariant_witness :
  exists w,
    run_ops demoRun (boot true true true) = Done w /\
    currentIndex w = 6 /\ total w = 6 /\ isPlaying w = false /\
    endsCompleted (log w).
Proof.
  pose proof (position_invariant true true true demoRun) as H.
  assert (E : match run_ops demoRun (boot true true true) with
              | Done w => currentIndex w = 6 /\ total w = 6 /\
                          onComplete w = true
              | Throws => False
              end) by (vm_compute; repeat split).
  destruct (run_ops demoRun (boot true true true)) as [w|]; [|contradiction].
  destruct E as [Hi [Ht Hc]].
  destruct H as [_ [H _]].
  destruct H as [Hp [_ [Hz|Hl]]]; [lia | lia |].
  exists w. repeat split; auto.
Defined.

(** The clause fails after [init] on an empty text: the index is 0, which
    is the length, and no callback was ever called. *)
Lemma position_invariant_counterexample : ~ TerminalOnlyAtCompletion.
Proof.
  intros H.
  specialize (H [Init []] (init [] (boot true true true)) eq_refl eq_refl).
  simpl in H. lia.
Qed.

(** C7.  A call of [displayWordAt] with an index below 0 or not below the
    length returns normally and changes nothing: the state after it is the
    state before it, index and mode included, and no callback is called. *)
Theorem displayWordAt_out_of_range (w : world) (index : Z) (wpm : float) :
  index < 0 \/ total w <= index ->
  displayWordAt index wpm w = Done w /\
  exec (SeekTo index wpm) w = Done w.
Proof.
  intros H. cbn [exec]. unfold displayWordAt.
  destruct (Z.leb_spec 0 index), (Z.ltb_spec index (total w));
    cbn [andb]; try lia; now split.
Qed.

Lemma displayWordAt_out_of_range_witness :
  total fiveWords = 5 /\
  displayWordAt (-1) 300 fiveWords = Done fiveWords /\
  displayWordAt 5 300 fiveWords = Done fiveWords.
Proof.
  split; [vm_compute; reflexivity|].
  split.
  - apply (displayWordAt_out_of_range fiveWords (-1) 300). left. lia.
  - apply (displayWordAt_out_of_range fiveWords 5 300). right.
    vm_compute. discriminate.
Defined.

(** Inside the range the word is shown and the index moves. *)
Example displayWordAt_in_range :
  exists w, displayWordAt 2 300 fiveWords = Done w /\ currentIndex w = 2 /\
            List.length (log w) = 2%nat.
Proof. eexists. split; [vm_compute; reflexivity|]. split; reflexivity. Qed.



(* ================================================================== *)
(** ** The tokenizer, pass by pass *)
(* ================================================================== *)

Lemma option_nat_ext (a b : option nat) :
  (forall n, a = Some n <-> b = Some n) -> a = b.
Proof.
  intros H. destruct a as [n|], b as [k|]; try reflexivity.
  - symmetry. apply H. reflexivity.
  - symmetry. apply (H n). reflexivity.
  - apply (H k). reflexivity.
Qed.

(** A part of a text that holds no whitespace and starts the text lies
    before the first whitespace. *)
Lemma prefix_before_space (u : jsstring) :
  forall x w y r,
    x ++ w :: y = u ++ r -> Forall nonSpace u -> isWhiteSpace w = true ->
    exists x', x = u ++ x' /\ r = x' ++ w :: y.
Proof.
  induction u as [|a u IH]; intros x w y r E Hu Hw.
  - exists x. split; [reflexivity | now symmetry].
  - inversion Hu as [|? ? Ha Hu']; subst.
    destruct x as [|c x]; simpl in E.
    + injection E as -> _. unfold nonSpace in Ha. congruence.
    + injection E as -> E.
      destruct (IH x w y r E Hu' Hw) as [x' [-> ->]].
      exists x'. split; reflexivity.
Qed.

Lemma digit_nonSpace (c : Z) : isDigit c = true -> nonSpace c.
Proof.
  unfold isDigit, nonSpace, isWhiteSpace, between. intros H.
  apply andb_true_iff in H. destruct H as [H1 H2].
  apply Z.leb_le in H1, H2.
  repeat match goal with
         | |- context [?a <=? ?b] => destruct (Z.leb_spec a b); try lia
         | |- context [?a =? ?b] => destruct (Z.eqb_spec a b); try lia
         end; reflexivity.
Qed.

Lemma negb_space (c : Z) : negb (isWhiteSpace c) = true -> nonSpace c.
Proof. unfold nonSpace. now destruct (isWhiteSpace c). Qed.

Lemma rest_local (x' : jsstring) (w : Z) (y : jsstring) :
  isWhiteSpace w = true ->
  (x' ++ w :: y = [] \/ startsWithSpace (x' ++ w :: y)) ->
  x' = [] \/ startsWithSpace x'.
Proof.
  intros Hw [E|[c [q [E Hc]]]].
  - destruct x'; discriminate E.
  - destruct x' as [|d x']; [now left | right].
    injection E as -> _. now exists c, x'.
Qed.

Lemma rest_extend (rest : jsstring) (w : Z) (y : jsstring) :
  isWhiteSpace w = true ->
  rest = [] \/ startsWithSpace rest ->
  startsWithSpace (rest ++ w :: y).
Proof.
  intros Hw [->|[c [q [-> Hc]]]].
  - now exists w, y.
  - now exists c, (q ++ w :: y).
Qed.

Lemma CitationAt_local (x : jsstring) (w : Z) (y : jsstring) (n : nat) :
  isWhiteSpace w = true -> CitationAt (x ++ w :: y) n <-> CitationAt x n.
Proof.
  intros Hw. split.
  - intros [ds [rest [E [Hne [Hd ->]]]]].
    assert (E' : x ++ w :: y = (91 :: ds ++ [93]) ++ rest).
    { rewrite E. simpl. now rewrite <- app_assoc. }
    destruct (prefix_before_space _ x w y rest E') as [x' [-> _]];
      [|exact Hw|].
    + constructor; [reflexivity|]. apply Forall_app. split.
      * eapply Forall_impl; [|exact Hd]. apply digit_nonSpace.
      * constructor; [reflexivity | constructor].
    + exists ds, x'. split; [simpl; now rewrite <- app_assoc|]. auto.
  - intros [ds [rest [-> [Hne [Hd ->]]]]].
    exists ds, (rest ++ w :: y). split; [|auto].
    simpl. now rewrite <- app_assoc.
Qed.

Lemma UrlAt_local (p x : jsstring) (w : Z) (y : jsstring) (n : nat) :
  Forall nonSpace p -> isWhiteSpace w = true ->
  UrlAt p (x ++ w :: y) n <-> UrlAt p x n.
Proof.
  intros Hp Hw. split.
  - intros [body [rest [E [Hne [Hb [Hr ->]]]]]].
    rewrite app_assoc in E.
    destruct (prefix_before_space _ x w y rest E) as [x' [-> ->]];
      [|exact Hw|].
    + apply Forall_app. split; [exact Hp|].
      eapply Forall_impl; [|exact Hb]. apply negb_space.
    + exists body, x'. split; [now rewrite app_assoc|].
      split; [exact Hne|]. split; [exact Hb|]. split; [|reflexivity].
      eapply rest_local; eauto.
  - intros [body [rest [-> [Hne [Hb [Hr ->]]]]]].
    exists body, (rest ++ w :: y). split; [now rewrite <- !app_assoc|].
    split; [exact Hne|]. split; [exact Hb|]. split; [|reflexivity].
    right. now apply rest_extend.
Qed.

Lemma lit_nonSpace_www : Forall nonSpace (lit "www.").
Proof. repeat constructor. Qed.

Lemma lit_nonSpace_http : Forall nonSpace (lit "http://").
Proof. repeat constructor. Qed.

Lemma lit_nonSpace_https : Forall nonSpace (lit "https://").
Proof. repeat constructor. Qed.

Lemma matchCitation_local : LocalM Reader.matchCitation.
Proof.
  intros x w y Hw. apply option_nat_ext. intros n.
  rewrite !matchCitation_spec. now apply CitationAt_local.
Qed.

Lemma matchWww_local : LocalM Reader.matchWww.
Proof.
  intros x w y Hw. apply option_nat_ext. intros n.
  rewrite !matchWww_spec. apply UrlAt_local; [apply lit_nonSpace_www | exact Hw].
Qed.

Lemma matchHttp_local : LocalM Reader.matchHttp.
Proof.
  intros x w y Hw. apply option_nat_ext. intros n.
  rewrite !matchHttp_spec. unfold HttpAt.
  rewrite (UrlAt_local (lit "https://")), (UrlAt_local (lit "http://"));
    try exact Hw; try apply lit_nonSpace_http; try apply lit_nonSpace_https.
  reflexivity.
Qed.

Lemma matchCitation_boundedM : BoundedM Reader.matchCitation.
Proof. intros s n H. apply matchCitation_spec in H. now apply CitationAt_bounded. Qed.

Lemma matchHttp_boundedM : BoundedM Reader.matchHttp.
Proof. intros s n H. apply matchHttp_spec in H. now apply HttpAt_bounded. Qed.

Lemma matchWww_boundedM : BoundedM Reader.matchWww.
Proof. intros s n H. apply matchWww_spec in H. now apply WwwAt_bounded. Qed.

Lemma UrlAt_to_space (p s : jsstring) (n : nat) :
  UrlAt p s n -> skipn n s = [] \/ startsWithSpace (skipn n s).
Proof.
  intros [body [rest [-> [_ [_ [Hr ->]]]]]].
  rewrite app_assoc, skipn_app, length_app, Nat.sub_diag.
  rewrite skipn_all2 by (rewrite length_app; lia). exact Hr.
Qed.

Lemma UrlAt_extends (p x q : jsstring) (n : nat) :
  UrlAt p x n -> exists n', UrlAt p (x ++ q) n'.
Proof.
  intros [body [rest [-> [Hne [Hb [[->|Hr] ->]]]]]].
  - set (C := fun c => negb (isWhiteSpace c)).
    exists (List.length p + List.length (body ++ firstn (run C q) q))%nat.
    exists (body ++ firstn (run C q) q), (skipn (run C q) q).
    split.
    { rewrite app_nil_r, <- !app_assoc. now rewrite firstn_skipn. }
    split; [destruct body; [contradiction | discriminate]|].
    split; [apply Forall_app; split; [exact Hb | apply run_prefix]|].
    split; [|reflexivity].
    destruct (run_rest C q) as [E|[c [r [E Hc]]]]; [now left | right].
    exists c, r. split; [exact E|]. unfold C in Hc.
    now destruct (isWhiteSpace c).
  - exists (List.length p + List.length body)%nat.
    exists body, (rest ++ q). split; [now rewrite <- !app_assoc|].
    split; [exact Hne|]. split; [exact Hb|]. split; [|reflexivity].
    right. destruct Hr as [c [r [-> Hc]]]. now exists c, (r ++ q).
Qed.

Lemma matchWww_to_space : ToSpace Reader.matchWww.
Proof.
  intros s n H. apply matchWww_spec in H. eapply UrlAt_to_space; exact H.
Qed.

Lemma matchHttp_to_space : ToSpace Reader.matchHttp.
Proof.
  intros s n H. apply matchHttp_spec in H.
  destruct H as [H|H]; eapply UrlAt_to_space; exact H.
Qed.

Lemma matchWww_extends : Extends Reader.matchWww.
Proof.
  intros x q n H. apply matchWww_spec in H.
  destruct (UrlAt_extends _ x q n H) as [n' H'].
  exists n'. now apply matchWww_spec.
Qed.

Lemma matchHttp_extends : Extends Reader.matchHttp.
Proof.
  intros x q n H. apply matchHttp_spec in H.
  destruct H as [H|H]; destruct (UrlAt_extends _ x q n H) as [n' H'];
    exists n'; apply matchHttp_spec; [now left | now right].
Qed.

Section Passes.

Variable m : jsstring -> option nat.

Hypothesis m_local : LocalM m.

Hypothesis m_bounded : BoundedM m.

Lemma never_on_empty : m [] = None.
Proof.
  destruct (m []) as [n|] eqn:E; [|reflexivity].
  apply m_bounded in E. simpl in E. lia.
Qed.

Lemma never_at_space (w : Z) (y : jsstring) :
  isWhiteSpace w = true -> m (w :: y) = None.
Proof.
  intros Hw. exact (eq_trans (m_local [] w y Hw) never_on_empty).
Qed.

(** A global replacement works on each side of a whitespace character by
    itself. *)
Lemma replaceAll_join (a : jsstring) :
  forall k b w,
    isWhiteSpace w = true -> (k <= List.length a)%nat ->
    replaceAll m k (a ++ w :: b)
    = replaceAll m k a ++ w :: replaceAll m O b.
Proof.
  induction a as [|c a IH]; intros k b w Hw Hk.
  - simpl in Hk. replace k with O by lia. simpl.
    now rewrite (never_at_space w b Hw).
  - destruct k as [|k].
    + simpl. change (c :: a ++ w :: b) with ((c :: a) ++ w :: b).
      rewrite (m_local (c :: a) w b Hw).
      destruct (m (c :: a)) as [[|j]|] eqn:E.
      * simpl. f_equal. apply IH; [exact Hw | lia].
      * apply m_bounded in E. simpl in E. apply IH; [exact Hw | lia].
      * simpl. f_equal. apply IH; [exact Hw | lia].
    + simpl. apply IH; [exact Hw|]. simpl in Hk. lia.
Qed.

Lemma m_lead (s : jsstring) : m s = m (lead s).
Proof.
  unfold lead. set (C := fun c => negb (isWhiteSpace c)).
  pose proof (split_at_run C s) as E.
  destruct (run_rest C s) as [H|[c [q [H Hc]]]]; rewrite H in E.
  - rewrite app_nil_r in E. now rewrite <- E.
  - rewrite E at 1. apply m_local. unfold C in Hc.
    now destruct (isWhiteSpace c).
Qed.

Lemma lead_cons (c : Z) (s : jsstring) :
  lead (c :: s) = if isWhiteSpace c then [] else c :: lead s.
Proof. unfold lead. simpl. now destruct (isWhiteSpace c). Qed.

Hypothesis m_to_space : ToSpace m.

(** After the replacement, what stands before the first whitespace stood
    at the start of the text before. *)
Lemma lead_replaceAll (s : jsstring) :
  exists q, s = lead (replaceAll m O s) ++ q.
Proof.
  induction s as [|c s IH]; [now exists []|].
  simpl. destruct (m (c :: s)) as [[|j]|] eqn:E.
  - rewrite lead_cons. destruct (isWhiteSpace c); [now exists (c :: s)|].
    destruct IH as [q Hq]. exists q. simpl. now f_equal.
  - exists (c :: s). rewrite replaceAll_skip.
    apply m_to_space in E. simpl skipn in E.
    destruct E as [->|[w [t [-> Hw]]]]; [reflexivity|].
    simpl. rewrite (never_at_space w t Hw), lead_cons, Hw. reflexivity.
  - rewrite lead_cons. destruct (isWhiteSpace c); [now exists (c :: s)|].
    destruct IH as [q Hq]. exists q. simpl. now f_equal.
Qed.

Variable Q : jsstring -> option nat.

Hypothesis Q_local : LocalM Q.

Hypothesis Q_extends : Extends Q.

Hypothesis Q_empty : Q [] = None.

Lemma unmatched_cons (c : Z) (s : jsstring) :
  unmatched Q (c :: s) = true <-> Q (c :: s) = None /\ unmatched Q s = true.
Proof.
  simpl. destruct (Q (c :: s)); split; try tauto; try discriminate.
  intros [H _]. discriminate H.
Qed.

(** A character kept by the replacement starts no match of [Q] afterwards
    if it started none before. *)
Lemma kept_unmatched (c : Z) (s : jsstring) :
  Q (c :: s) = None -> Q (c :: replaceAll m O s) = None.
Proof.
  intros H. destruct (Q (c :: replaceAll m O s)) as [n|] eqn:E; [|reflexivity].
  exfalso. destruct (isWhiteSpace c) eqn:Hc.
  - pose proof (Q_local [] c (replaceAll m O s) Hc) as E0.
    simpl in E0. congruence.
  - destruct (lead_replaceAll s) as [q Hq].
    assert (Q_lead : forall t, Q t = Q (lead t)).
    { intros t. unfold lead.
      set (C := fun c => negb (isWhiteSpace c)).
      pose proof (split_at_run C t) as Et.
      destruct (run_rest C t) as [Ht|[d [r [Ht Hd]]]]; rewrite Ht in Et.
      - rewrite app_nil_r in Et. now rewrite <- Et.
      - rewrite Et at 1. apply Q_local. unfold C in Hd.
        now destruct (isWhiteSpace d). }
    rewrite Q_lead, lead_cons, Hc in E.
    destruct (Q_extends _ q n E) as [n' E'].
    simpl in E'. rewrite <- Hq in E'. congruence.
Qed.

Lemma unmatched_kept (s : jsstring) :
  forall k, unmatched Q s = true -> unmatched Q (replaceAll m k s) = true.
Proof.
  induction s as [|c s IH]; intros k H; [exact H|].
  apply unmatched_cons in H. destruct H as [Hc Hs].
  destruct k as [|k]; simpl replaceAll; [|now apply IH].
  destruct (m (c :: s)) as [[|j]|]; try (now apply IH);
    apply unmatched_cons; (split; [now apply kept_unmatched | now apply IH]).
Qed.

End Passes.

(** After a pass that removes the matches of a pattern that ends at
    whitespace, no match of that pattern is left. *)
Lemma unmatched_self (m : jsstring -> option nat) :
  LocalM m -> BoundedM m -> ToSpace m -> Extends m ->
  forall s k, unmatched m (replaceAll m k s) = true.
Proof.
  intros Hl Hb Ht He.
  pose proof (never_on_empty m Hb) as H0.
  induction s as [|c s IH]; intros k.
  - simpl. now rewrite H0.
  - destruct k as [|k]; simpl replaceAll; [|apply IH].
    destruct (m (c :: s)) as [[|j]|] eqn:E; try apply IH.
    + apply Hb in E. lia.
    + apply (unmatched_cons m). split; [|apply IH].
      now apply (kept_unmatched m Hl Hb Ht m Hl He H0).
Qed.

Lemma unmatched_suffix (m : jsstring -> option nat) (pre s : jsstring) :
  unmatched m (pre ++ s) = true -> unmatched m s = true.
Proof.
  induction pre as [|c pre IH]; [tauto|].
  simpl. destruct (m (c :: pre ++ s)); [discriminate | exact IH].
Qed.

Lemma unmatched_cut (m : jsstring -> option nat) (t post : jsstring) :
  LocalM m -> BoundedM m ->
  post = [] \/ startsWithSpace post ->
  unmatched m (t ++ post) = true -> unmatched m t = true.
Proof.
  intros Hl Hb Hp. induction t as [|c t IH]; intros H.
  - simpl. now rewrite (never_on_empty m Hb).
  - simpl in H. simpl.
    destruct (m (c :: t ++ post)) eqn:E; [discriminate|].
    assert (E' : m (c :: t) = None).
    { destruct Hp as [->|[w [y [-> Hw]]]].
      - now rewrite app_nil_r in E.
      - change (c :: t ++ w :: y) with ((c :: t) ++ w :: y) in E.
        now rewrite (Hl (c :: t) w y Hw) in E. }
    rewrite E'. now apply IH.
Qed.

Lemma unmatched_run (m : jsstring -> option nat) (tok s : jsstring) :
  LocalM m -> BoundedM m ->
  MaximalRun tok s -> unmatched m s = true -> unmatched m tok = true.
Proof.
  intros Hl Hb [_ [_ [pre [post [-> [_ Hp]]]]]] H.
  apply unmatched_suffix in H. now apply unmatched_cut in H.
Qed.

Lemma no_url_left (text : jsstring) :
  unmatched Reader.matchHttp (Reader.removeCitations text) = true /\
  unmatched Reader.matchWww (Reader.removeCitations text) = true /\
  Forall (fun tok => unmatched Reader.matchHttp tok = true /\
                     unmatched Reader.matchWww tok = true)
    (Reader.parseText text).
Proof.
  assert (Hh : unmatched Reader.matchHttp (Reader.removeCitations text) = true).
  { unfold Reader.removeCitations.
    apply (unmatched_kept Reader.matchWww matchWww_local matchWww_boundedM
             matchWww_to_space Reader.matchHttp matchHttp_local
             matchHttp_extends (never_on_empty _ matchHttp_boundedM)).
    apply unmatched_self;
      auto using matchHttp_local, matchHttp_boundedM, matchHttp_to_space,
        matchHttp_extends. }
  assert (Hw : unmatched Reader.matchWww (Reader.removeCitations text) = true).
  { unfold Reader.removeCitations.
    apply unmatched_self;
      auto using matchWww_local, matchWww_boundedM, matchWww_to_space,
        matchWww_extends. }
  split; [exact Hh|]. split; [exact Hw|].
  pose proof (tokens_of_split (Reader.removeCitations text)) as Ht.
  unfold Reader.parseText.
  eapply Forall_impl; [|exact Ht].
  intros tok Hr. split.
  - exact (unmatched_run _ tok _ matchHttp_local matchHttp_boundedM Hr Hh).
  - exact (unmatched_run _ tok _ matchWww_local matchWww_boundedM Hr Hw).
Qed.

(** X1.  What [removeCitations] returns holds no URL of the kinds it
    removes: nowhere in it does [http://] or [https://] or [www.] stand
    before a character that is not whitespace.  The same is true of every
    token of [parseText]. *)
Theorem removeCitations_leaves_no_url (text : jsstring) :
  unmatched Reader.matchHttp (Reader.removeCitations text) = true /\
  unmatched Reader.matchWww (Reader.removeCitations text) = true /\
  Forall (fun tok => unmatched Reader.matchHttp tok = true /\
                     unmatched Reader.matchWww tok = true)
    (Reader.parseText text).
Proof. apply no_url_left. Qed.

(** What [unmatched] says, in the words of the patterns. *)
Lemma unmatched_spec (m : jsstring -> option nat) (s : jsstring) :
  unmatched m s = true <->
  forall pre suf, s = pre ++ suf -> m suf = None.
Proof.
  induction s as [|c s IH]; simpl.
  - destruct (m []) eqn:E; split; try discriminate; try tauto.
    + intros H. specialize (H [] [] eq_refl). congruence.
    + intros _ pre suf H. symmetry in H. apply app_eq_nil in H.
      destruct H as [_ ->]. exact E.
  - destruct (m (c :: s)) eqn:E; split; try discriminate.
    + intros H. specialize (H [] (c :: s) eq_refl). congruence.
    + intros H [|d pre] suf E'; simpl in E'.
      * now subst suf.
      * injection E' as _ E'. apply (proj1 IH H pre suf E').
    + intros H. apply IH. intros pre suf E'.
      apply (H (c :: pre) suf). simpl. now f_equal.
Qed.

Lemma pieces_join (x : jsstring) :
  forall sep cur w y,
    (sep = true -> cur = []) -> isWhiteSpace w = true ->
    pieces sep cur (x ++ w :: y) = pieces sep cur x ++ pieces true [] y.
Proof.
  unfold pieces.
  induction x as [|c x IH]; intros sep cur w y Hsep Hw; simpl.
  - rewrite Hw. destruct sep.
    + rewrite (Hsep eq_refl). reflexivity.
    + simpl. destruct (0 <? len (rev cur)); reflexivity.
  - destruct (isWhiteSpace c) eqn:Hc.
    + destruct sep.
      * now apply IH.
      * simpl. rewrite (IH true [] w y (fun _ => eq_refl) Hw).
        destruct (0 <? len (rev cur)); reflexivity.
    + apply IH; [congruence | exact Hw].
Qed.

Lemma pieces_sep (y : jsstring) : pieces true [] y = pieces false [] y.
Proof.
  unfold pieces. destruct y as [|c y]; [reflexivity|].
  simpl. destruct (isWhiteSpace c); reflexivity.
Qed.

Lemma pieces_after_space (w : Z) (s : jsstring) :
  isWhiteSpace w = true -> pieces false [] (w :: s) = pieces false [] s.
Proof.
  intros Hw. rewrite <- (pieces_sep s). unfold pieces. simpl.
  now rewrite Hw.
Qed.

Lemma pieces_of_space (t : jsstring) :
  Forall (fun c => isWhiteSpace c = true) t -> pieces false [] t = [].
Proof.
  induction 1 as [|w t Hw _ IH]; [reflexivity|].
  now rewrite pieces_after_space.
Qed.

Lemma pieces_before_space (s t : jsstring) :
  Forall (fun c => isWhiteSpace c = true) t ->
  pieces false [] (s ++ t) = pieces false [] s.
Proof.
  intros Ht. destruct Ht as [|w t Hw Ht]; [now rewrite app_nil_r|].
  rewrite pieces_join by (congruence || exact Hw).
  rewrite pieces_sep, (pieces_of_space t Ht). apply app_nil_r.
Qed.

Lemma pieces_lead_space (l s : jsstring) :
  Forall (fun c => isWhiteSpace c = true) l ->
  pieces false [] (l ++ s) = pieces false [] s.
Proof.
  induction 1 as [|w l Hw _ IH]; [reflexivity|].
  simpl. now rewrite pieces_after_space.
Qed.

(** Trimming first changes nothing once the empty pieces are dropped. *)
Lemma pieces_trim (s : jsstring) :
  pieces false [] (trim s) = pieces false [] s.
Proof.
  destruct (trim_split s) as [l [t [E [Hl Ht]]]].
  rewrite E at 2.
  now rewrite pieces_lead_space, pieces_before_space.
Qed.

Lemma parseText_pieces (text : jsstring) :
  Reader.parseText text = pieces false [] (Reader.removeCitations text).
Proof. apply pieces_trim. Qed.

Lemma part000_parseText_pieces (text : jsstring) :
  Part000.parseText text = pieces false [] text.
Proof. apply pieces_trim. Qed.

Lemma removeCitations_join (a b : jsstring) (w : Z) :
  isWhiteSpace w = true ->
  Reader.removeCitations (a ++ w :: b)
  = Reader.removeCitations a ++ w :: Reader.removeCitations b.
Proof.
  intros Hw. unfold Reader.removeCitations.
  rewrite (replaceAll_join _ matchCitation_local matchCitation_boundedM)
    by (exact Hw || lia).
  rewrite (replaceAll_join _ matchHttp_local matchHttp_boundedM)
    by (exact Hw || lia).
  rewrite (replaceAll_join _ matchWww_local matchWww_boundedM)
    by (exact Hw || lia).
  reflexivity.
Qed.

(** X2.  Tokenizing two texts joined by a whitespace character gives the
    tokens of the first followed by the tokens of the second: no citation
    marker and no URL reaches across whitespace.  This holds for
    [parseText] of both copies. *)
Theorem parseText_join (a b : jsstring) (w : Z) :
  isWhiteSpace w = true ->
  Reader.parseText (a ++ w :: b) = Reader.parseText a ++ Reader.parseText b /\
  Part000.parseText (a ++ w :: b)
  = Part000.parseText a ++ Part000.parseText b.
Proof.
  intros Hw. rewrite !parseText_pieces, !part000_parseText_pieces.
  rewrite (removeCitations_join a b w Hw).
  rewrite !pieces_join by (congruence || exact Hw).
  now rewrite !pieces_sep.
Qed.

Lemma parseText_join_witness :
  Reader.parseText (lit "See [12] www.a.b" ++ 10 :: lit "now, http://c")
  = Reader.parseText (lit "See [12] www.a.b")
    ++ Reader.parseText (lit "now, http://c") /\
  Part000.parseText (lit "See [12] www.a.b" ++ 10 :: lit "now, http://c")
  = Part000.parseText (lit "See [12] www.a.b")
    ++ Part000.parseText (lit "now, http://c").
Proof.
  apply (parseText_join (lit "See [12] www.a.b") (lit "now, http://c") 10).
  reflexivity.
Defined.

Lemma first_space (s : jsstring) :
  Forall nonSpace s \/
  exists a w b, s = a ++ w :: b /\ Forall nonSpace a /\ isWhiteSpace w = true.
Proof.
  induction s as [|c s IH]; [left; constructor|].
  destruct (isWhiteSpace c) eqn:Hc.
  - right. exists [], c, s. repeat split; [constructor | exact Hc].
  - destruct IH as [H|[a [w [b [-> [Ha Hw]]]]]].
    + left. now constructor.
    + right. exists (c :: a), w, b. repeat split; [now constructor | exact Hw].
Qed.

Lemma splitWS_word (x : jsstring) :
  forall cur, Forall nonSpace x -> splitWS false cur x = [rev cur ++ x].
Proof.
  induction x as [|c x IH]; intros cur H; simpl.
  - now rewrite app_nil_r.
  - inversion H as [|? ? Hc Hx]; subst. unfold nonSpace in Hc. rewrite Hc.
    rewrite IH by exact Hx. simpl. now rewrite <- app_assoc.
Qed.

Lemma pieces_word (x : jsstring) :
  Forall nonSpace x ->
  pieces false [] x = match x with [] => [] | _ :: _ => [x] end.
Proof.
  intros H. unfold pieces. rewrite splitWS_word by exact H.
  destruct x; reflexivity.
Qed.

(* ================================================================== *)
(** ** The tokens are the maximal runs, in their order *)
(* ================================================================== *)

Section Unique.

Variable m : jsstring -> option nat.
Variable P : jsstring -> nat -> Prop.
Hypothesis m_spec : forall s n, m s = Some n <-> P s n.
Hypothesis P_bounded : Bounded P.

(** The relation [Scan] leaves no choice: its result is what [replaceAll]
    computes. *)
Lemma Scan_replaceAll (s out : jsstring) :
  Scan P s out -> out = replaceAll m O s.
Proof.
  induction 1 as [|s n out HP _ IH|c s out Hno _ IH].
  - reflexivity.
  - pose proof (P_bounded s (S n) HP) as Hb.
    apply m_spec in HP.
    destruct s as [|c s]; [simpl in Hb; lia|].
    cbn [replaceAll]. rewrite HP. rewrite replaceAll_skip. exact IH.
  - cbn [replaceAll].
    destruct (m (c :: s)) as [k|] eqn:Hm.
    + apply m_spec in Hm. now apply Hno in Hm.
    + now rewrite IH.
Qed.

End Unique.

Lemma Tokens_pieces (s : jsstring) (toks : list jsstring) :
  Tokens s toks -> toks = pieces false [] s.
Proof.
  induction 1 as [s Hs|pre tok rest toks Hpre Hne Htok Hrest _ IH].
  - symmetry. now apply pieces_of_space.
  - rewrite (pieces_lead_space pre _ Hpre).
    destruct Hrest as [->|[c [q [-> Hc]]]].
    + rewrite app_nil_r, (pieces_word tok Htok).
      rewrite IH. destruct tok; [congruence | reflexivity].
    + rewrite (pieces_join tok false [] c q) by (congruence || exact Hc).
      rewrite (pieces_word tok Htok), pieces_sep.
      rewrite IH, (pieces_after_space c q Hc).
      destruct tok; [congruence | reflexivity].
Qed.

Lemma Tokens_exist_fuel (n : nat) :
  forall s, (List.length s <= n)%nat -> exists toks, Tokens s toks.
Proof.
  induction n as [|n IH]; intros s Hlen.
  - destruct s; [|simpl in Hlen; lia].
    exists []. apply Tokens_none. constructor.
  - destruct (dropStart_split isWhiteSpace s) as [pre [Es Hpre]].
    destruct (dropStart isWhiteSpace s) as [|c s'] eqn:Ed.
    + exists []. apply Tokens_none. rewrite Es, app_nil_r. exact Hpre.
    + assert (Hc : isWhiteSpace c = false).
      { clear - Ed. induction s as [|x s IH]; cbn [dropStart] in Ed;
          [discriminate|].
        destruct (isWhiteSpace x) eqn:Hx; [auto|]. now inversion Ed; subst. }
      set (C := fun x => negb (isWhiteSpace x)).
      pose proof (split_at_run C (c :: s')) as Ecut.
      pose proof (run_prefix C (c :: s')) as Hrun.
      pose proof (run_rest C (c :: s')) as Hrest.
      assert (Hpos : run C (c :: s') = S (run C s')).
      { cbn [run]. unfold C at 1. now rewrite Hc. }
      set (tok := firstn (run C (c :: s')) (c :: s')) in *.
      set (rest := skipn (run C (c :: s')) (c :: s')) in *.
      assert (Hlr : (List.length rest <= n)%nat).
      { unfold rest. rewrite length_skipn, Hpos.
        apply (f_equal (@List.length Z)) in Es.
        rewrite length_app in Es. cbn [List.length] in *. lia. }
      destruct (IH rest Hlr) as [toks Ht].
      exists (tok :: toks). rewrite Es, Ecut.
      apply Tokens_next; auto.
      * unfold tok. rewrite Hpos. discriminate.
      * eapply Forall_impl; [|exact Hrun]. intros x Hx. unfold C in Hx.
        unfold nonSpace. now destruct (isWhiteSpace x).
      * destruct Hrest as [H|[x [q [H Hx]]]]; [now left|right].
        exists x, q. split; [exact H|]. unfold C in Hx.
        now destruct (isWhiteSpace x).
Qed.

Lemma pieces_Tokens (s : jsstring) : Tokens s (pieces false [] s).
Proof.
  destruct (Tokens_exist_fuel (List.length s) s (le_n _)) as [toks H].
  now rewrite <- (Tokens_pieces s toks H).
Qed.

(** Every maximal run is a piece, and every piece a maximal run. *)
Lemma pieces_maximal_runs (s t : jsstring) :
  In t (pieces false [] s) <-> MaximalRun t s.
Proof.
  split.
  - intros Hin. rewrite <- pieces_trim in Hin.
    pose proof (tokens_of_split s) as H. rewrite Forall_forall in H.
    now apply H.
  - intros [Hne [Hns [pre [post [-> [Hpre Hpost]]]]]].
    assert (Hmid : In t (pieces false [] (t ++ post))).
    { destruct Hpost as [->|[c [q [-> Hc]]]].
      - rewrite app_nil_r, (pieces_word t Hns).
        destruct t; [congruence | now left].
      - rewrite (pieces_join t false [] c q) by (congruence || exact Hc).
        apply in_or_app. left. rewrite (pieces_word t Hns).
        destruct t; [congruence | now left]. }
    destruct Hpre as [->|[p' [c [-> Hc]]]]; [exact Hmid|].
    rewrite <- app_assoc. cbn [app].
    rewrite (pieces_join p' false [] c (t ++ post))
      by (congruence || exact Hc).
    apply in_or_app. right. now rewrite pieces_sep.
Qed.

(** C3.  [parseText] of [src/js/reader.js] first deletes, in three passes
    from the left, the citation markers (a bracket, one or more digits, a
    bracket), then every [http://] or [https://] and then every [www.]
    together with the characters that follow up to the next whitespace, at
    least one, wherever the prefix stands, the inside of a token included:
    the stripped text is the one text these passes can give.  The tokens
    are then the maximal runs of non-whitespace characters of the stripped
    text, all of them, each once, in their order, and nothing else.
    [parseText] of [src/unnamed/part_000] deletes nothing: its tokens are
    in the same way the maximal runs of the text itself. *)
Theorem parseText_tokens_are_maximal_runs (text : jsstring) :
  (forall out,
     (exists s1 s2,
        Scan CitationAt text s1 /\ Scan HttpAt s1 s2 /\
        Scan (UrlAt (lit "www.")) s2 out)
     <-> out = Reader.removeCitations text) /\
  (forall toks,
     Tokens (Reader.removeCitations text) toks
     <-> toks = Reader.parseText text) /\
  (forall tok,
     In tok (Reader.parseText text)
     <-> MaximalRun tok (Reader.removeCitations text)) /\
  (forall toks, Tokens text toks <-> toks = Part000.parseText text) /\
  (forall tok, In tok (Part000.parseText text) <-> MaximalRun tok text).
Proof.
  rewrite parseText_pieces, part000_parseText_pieces.
  split; [|split; [|split; [|split]]].
  - intros out. split.
    + intros [s1 [s2 [H1 [H2 H3]]]].
      apply (Scan_replaceAll _ _ matchCitation_spec CitationAt_bounded)
        in H1.
      apply (Scan_replaceAll _ _ matchHttp_spec HttpAt_bounded) in H2.
      apply (Scan_replaceAll _ _ matchWww_spec WwwAt_bounded) in H3.
      subst. reflexivity.
    + intros ->.
      exists (replaceAll Reader.matchCitation O text).
      exists (replaceAll Reader.matchHttp O
                (replaceAll Reader.matchCitation O text)).
      split; [apply replaceAll_scan;
              [apply matchCitation_spec | apply CitationAt_bounded]|].
      split; [apply replaceAll_scan;
              [apply matchHttp_spec | apply HttpAt_bounded]|].
      apply replaceAll_scan; [apply matchWww_spec | apply WwwAt_bounded].
  - intros toks. split; [apply Tokens_pieces|].
    intros ->. apply pieces_Tokens.
  - intros tok. apply pieces_maximal_runs.
  - intros toks. split; [apply Tokens_pieces|].
    intros ->. apply pieces_Tokens.
  - intros tok. apply pieces_maximal_runs.
Qed.

Lemma short_text_no_run (t s : jsstring) :
  (List.length s < List.length t)%nat -> ~ MaximalRun t s.
Proof.
  intros Hlen [_ [_ [pre [post [E _]]]]].
  apply (f_equal (@List.length Z)) in E.
  rewrite !length_app in E. lia.
Qed.

(** The claim fails on [src/unnamed/part_000], which deletes nothing: the
    marker of the text "a [1]" is a token there, and it is no run of the
    stripped text, which is "a" and a space.  It also fails on
    [src/js/reader.js] where [www.] stands inside a token: the text
    "awww.b.c" holds no marker, no [http] URL and no token that begins with
    [www.], its one maximal run is the text itself, and yet the one token
    returned is "a". *)
Lemma parseText_counterexample :
  (Scan CitationAt (lit "a [1]") (lit "a ") /\
   Scan HttpAt (lit "a ") (lit "a ") /\
   Scan (UrlAt (lit "www.")) (lit "a ") (lit "a ") /\
   Part000.parseText (lit "a [1]") = [lit "a"; lit "[1]"] /\
   ~ MaximalRun (lit "[1]") (lit "a ")) /\
  ((forall tok, MaximalRun tok (lit "awww.b.c") -> tok = lit "awww.b.c") /\
   firstn 4 (lit "awww.b.c") <> lit "www." /\
   unmatched Reader.matchCitation (lit "awww.b.c") = true /\
   unmatched Reader.matchHttp (lit "awww.b.c") = true /\
   Reader.parseText (lit "awww.b.c") = [lit "a"] /\
   ~ MaximalRun (lit "a") (lit "awww.b.c")).
Proof.
  split.
  - split; [exact (replaceAll_scan _ _ matchCitation_spec CitationAt_bounded
                     (lit "a [1]"))|].
    split; [exact (replaceAll_scan _ _ matchHttp_spec HttpAt_bounded
                     (lit "a "))|].
    split; [exact (replaceAll_scan _ _ matchWww_spec WwwAt_bounded
                     (lit "a "))|].
    split; [reflexivity|].
    apply short_text_no_run. cbn. lia.
  - split; [|split; [discriminate|split; [reflexivity|split;
             [reflexivity|split; [reflexivity|]]]]].
    + intros tok H. apply pieces_maximal_runs in H.
      cbn in H. destruct H as [H|[]]. now rewrite <- H.
    + intros H. apply pieces_maximal_runs in H.
      cbn in H. destruct H as [H|[]]. discriminate H.
Qed.

Lemma replaceAll_Forall (P : Z -> Prop) (m : jsstring -> option nat)
  (s : jsstring) :
  forall k, Forall P s -> Forall P (replaceAll m k s).
Proof.
  induction s as [|c s IH]; intros k H; [constructor|].
  inversion H as [|? ? Hc Hs]; subst.
  destruct k as [|k]; simpl; [|now apply IH].
  destruct (m (c :: s)) as [[|j]|]; try (now apply IH);
    constructor; auto.
Qed.

Lemma removeCitations_Forall (P : Z -> Prop) (s : jsstring) :
  Forall P s -> Forall P (Reader.removeCitations s).
Proof.
  intros H. unfold Reader.removeCitations.
  now repeat apply replaceAll_Forall.
Qed.

Lemma fewer_pieces_fuel (n : nat) :
  forall s, (List.length s <= n)%nat ->
  (List.length (pieces false [] (Reader.removeCitations s))
   <= List.length (pieces false [] s))%nat.
Proof.
  induction n as [|n IH]; intros s Hn.
  - destruct s; [simpl; lia | simpl in Hn; lia].
  - destruct (first_space s) as [H|[a [w [b [-> [Ha Hw]]]]]].
    + rewrite (pieces_word s H).
      rewrite (pieces_word _ (removeCitations_Forall _ s H)).
      destruct s; [reflexivity|].
      destruct (Reader.removeCitations (z :: s)); simpl; lia.
    + rewrite (removeCitations_join a b w Hw).
      rewrite !pieces_join by (congruence || exact Hw).
      rewrite !pieces_sep, !length_app.
      rewrite length_app in Hn. simpl in Hn.
      assert (Hb := IH b ltac:(lia)).
      rewrite (pieces_word a Ha).
      rewrite (pieces_word _ (removeCitations_Forall _ a Ha)).
      destruct a; [simpl; lia|].
      destruct (Reader.removeCitations (z :: a)); simpl; lia.
Qed.

(** X3.  The word count that [updateWordCount] shows is the number of tokens
    of the plain tokenizer (the one of the second copy of the engine), and
    the engine never gets more words than that count: stripping citations
    and URLs can only lose tokens.  So a disabled start button means the
    engine would have nothing to read. *)
Theorem wordCount_bounds_tokens (value : jsstring) :
  App.wordCount value = Z.of_nat (List.length (Part000.parseText value)) /\
  Z.of_nat (List.length (Reader.parseText value)) <= App.wordCount value /\
  (if App.startDisabled value then Reader.parseText value = [] else True).
Proof.
  assert (H1 : App.wordCount value
               = Z.of_nat (List.length (Part000.parseText value))).
  { unfold App.wordCount, Part000.parseText.
    destruct (trim value); reflexivity. }
  assert (H2 : Z.of_nat (List.length (Reader.parseText value))
               <= App.wordCount value).
  { rewrite H1, parseText_pieces, part000_parseText_pieces.
    apply Nat2Z.inj_le. apply (fewer_pieces_fuel (List.length value)). lia. }
  split; [exact H1|]. split; [exact H2|].
  unfold App.startDisabled. destruct (Z.eqb_spec (App.wordCount value) 0); [|exact I].
  destruct (Reader.parseText value); [reflexivity | simpl in H2; lia].
Qed.

(** A text of citations and URLs only counts words that the engine will not
    read. *)
Example wordCount_of_citations :
  App.wordCount (lit "[1] http://a.b") = 2 /\
  Reader.parseText (lit "[1] http://a.b") = [].
Proof. split; reflexivity. Qed.

Lemma isToken_spec (tok : jsstring) :
  isToken tok = true <-> tok <> [] /\ Forall nonSpace tok.
Proof.
  unfold isToken. destruct tok as [|c tok].
  - split; [discriminate | intros [H _]; contradiction].
  - rewrite forallb_forall, Forall_forall. split.
    + intros H. split; [discriminate|]. intros x Hx. apply negb_space. auto.
    + intros [_ H] x Hx. specialize (H x Hx). unfold nonSpace in H.
      now rewrite H.
Qed.

Lemma pieces_joinSpace (toks : list jsstring) :
  forallb isToken toks = true -> pieces false [] (joinSpace toks) = toks.
Proof.
  induction toks as [|t toks IH]; intros H; [reflexivity|].
  simpl in H. apply andb_true_iff in H. destruct H as [Ht Hs].
  apply isToken_spec in Ht. destruct Ht as [Hne Hns].
  assert (Ew : pieces false [] t = [t]).
  { rewrite pieces_word by exact Hns. destruct t; [contradiction | reflexivity]. }
  destruct toks as [|t2 toks]; [exact Ew|].
  change (joinSpace (t :: t2 :: toks)) with (t ++ 32 :: joinSpace (t2 :: toks)).
  rewrite pieces_join by (congruence || reflexivity).
  rewrite Ew, pieces_sep, (IH Hs). reflexivity.
Qed.

Lemma pieces_are_tokens (s : jsstring) :
  forallb isToken (pieces false [] s) = true.
Proof.
  apply forallb_forall. intros t Ht. apply isToken_spec.
  pose proof (nonempty_tokens s) as H. rewrite Forall_forall in H.
  apply H. exact Ht.
Qed.

(** X4.  In the second copy of the engine, joining tokens by single spaces
    and tokenizing the result gives the tokens back; in particular,
    tokenizing the joined tokens of any text gives the same tokens
    again. *)
Theorem part000_parseText_round_trip (toks : list jsstring)
  (text : jsstring) :
  (if forallb isToken toks
   then Part000.parseText (joinSpace toks) = toks else True) /\
  Part000.parseText (joinSpace (Part000.parseText text))
  = Part000.parseText text.
Proof.
  split.
  - destruct (forallb isToken toks) eqn:H; [|exact I].
    rewrite part000_parseText_pieces. now apply pieces_joinSpace.
  - rewrite !part000_parseText_pieces.
    apply pieces_joinSpace, pieces_are_tokens.
Qed.

Lemma replaceAll_unmatched (m : jsstring -> option nat) (s : jsstring) :
  unmatched m s = true -> replaceAll m O s = s.
Proof.
  induction s as [|c s IH]; [reflexivity|].
  simpl. destruct (m (c :: s)); [discriminate|].
  intros H. now rewrite IH.
Qed.

Lemma removeCitations_plain (s : jsstring) :
  plain s = true -> Reader.removeCitations s = s.
Proof.
  unfold plain, Reader.removeCitations. intros H.
  apply andb_true_iff in H. destruct H as [H H3].
  apply andb_true_iff in H. destruct H as [H1 H2].
  rewrite (replaceAll_unmatched _ s H1), (replaceAll_unmatched _ s H2).
  exact (replaceAll_unmatched _ s H3).
Qed.

(** X5.  On a text in which no citation marker and no URL starts,
    [removeCitations] changes nothing and the tokenizers of the two copies
    of the engine return the same tokens. *)
Theorem parseText_of_plain_text (text : jsstring) :
  plain text = true ->
  Reader.removeCitations text = text /\
  Reader.parseText text = Part000.parseText text.
Proof.
  intros H. pose proof (removeCitations_plain text H) as E.
  split; [exact E|]. unfold Reader.parseText, Part000.parseText.
  now rewrite E.
Qed.

Lemma parseText_of_plain_text_witness :
  Reader.removeCitations (lit "Hello, world. This is a test [sic]")
  = lit "Hello, world. This is a test [sic]" /\
  Reader.parseText (lit "Hello, world. This is a test [sic]")
  = Part000.parseText (lit "Hello, world. This is a test [sic]").
Proof.
  apply (parseText_of_plain_text (lit "Hello, world. This is a test [sic]")).
  reflexivity.
Defined.

Lemma forallb_false (A : Type) (f : A -> bool) (l : list A) :
  forallb f l = false -> exists x, In x l /\ f x = false.
Proof.
  induction l as [|a l IH]; [discriminate|].
  simpl. destruct (f a) eqn:E.
  - intros H. destruct (IH H) as [x [Hin Hx]]. exists x. auto.
  - intros _. exists a. auto.
Qed.

Lemma removeCitations_joinSpace (toks : list jsstring) :
  forallb plain toks = true ->
  Reader.removeCitations (joinSpace toks) = joinSpace toks.
Proof.
  induction toks as [|t toks IH]; intros H; [reflexivity|].
  simpl in H. apply andb_true_iff in H. destruct H as [Ht Hs].
  destruct toks as [|t2 toks]; [now apply removeCitations_plain|].
  change (joinSpace (t :: t2 :: toks)) with (t ++ 32 :: joinSpace (t2 :: toks)).
  rewrite removeCitations_join by reflexivity.
  now rewrite (removeCitations_plain t Ht), (IH Hs).
Qed.

(** X6.  Tokenizing again the tokens of a text, joined by single spaces,
    gives the same tokens, provided no token holds a citation marker (one
    can be left where a marker stood inside brackets and digits: the markers
    are removed in a single pass). *)
Theorem parseText_round_trip (text : jsstring) :
  if forallb (unmatched Reader.matchCitation) (Reader.parseText text)
  then Reader.parseText (joinSpace (Reader.parseText text))
       = Reader.parseText text
  else exists tok, In tok (Reader.parseText text) /\
                   unmatched Reader.matchCitation tok = false.
Proof.
  destruct (forallb (unmatched Reader.matchCitation) (Reader.parseText text))
    eqn:H.
  - assert (Hp : forallb plain (Reader.parseText text) = true).
    { apply forallb_forall. intros tok Hin.
      rewrite forallb_forall in H.
      destruct (no_url_left text) as [_ [_ Hu]].
      rewrite Forall_forall in Hu. destruct (Hu tok Hin) as [H2 H3].
      unfold plain. now rewrite (H tok Hin), H2, H3. }
    rewrite (parseText_pieces (joinSpace _)).
    rewrite (removeCitations_joinSpace _ Hp).
    apply pieces_joinSpace.
    rewrite parseText_pieces. apply pieces_are_tokens.
  - apply forallb_false. exact H.
Qed.

(** The markers are removed in one pass: a marker that the removal of
    another one puts together stays, and goes when the text is tokenized
    again. *)
Example parseText_nested_marker :
  Reader.parseText (lit "a [[1]2] b") = map lit ["a"; "[2]"; "b"]%string /\
  Reader.parseText (joinSpace (Reader.parseText (lit "a [[1]2] b")))
  = map lit ["a"; "b"]%string.
Proof. split; reflexivity. Qed.

(* ================================================================== *)
(** ** Further properties: highlight and word parts *)
(* ================================================================== *)

Lemma keep_idempotent (C : Z -> bool) (s : jsstring) :
  keep C (keep C s) = keep C s.
Proof.
  unfold keep. induction s as [|c s IH]; [reflexivity|].
  simpl. destruct (C c) eqn:E; [|exact IH].
  simpl. now rewrite E, IH.
Qed.

Lemma keep_Forall (C : Z -> bool) (s : jsstring) :
  Forall (fun c => C c = true) (keep C s).
Proof.
  apply Forall_forall. intros c H. apply filter_In in H. apply H.
Qed.

(** X7.  The parts that [splitWord] returns hold word characters only
    (ASCII letters, digits, underscores), and they do not depend on the
    punctuation of the word: the word and the word stripped of its
    punctuation are split alike, with the same recognition point. *)
Theorem splitWord_ignores_punctuation (word : jsstring) :
  let p := Reader.splitWord word in
  Forall (fun c => isWordChar c = true)
    (Reader.before p ++ Reader.highlight p ++ Reader.after p) /\
  Reader.getORPIndex (Reader.stripPunctuation word)
  = Reader.getORPIndex word /\
  Reader.splitWord (Reader.stripPunctuation word) = p.
Proof.
  cbv zeta. split; [|split].
  - unfold Reader.splitWord.
    cbn [Reader.before Reader.highlight Reader.after].
    rewrite cut_partition by apply getORPIndex_nonneg.
    apply keep_Forall.
  - unfold Reader.getORPIndex, Reader.stripPunctuation.
    now rewrite keep_idempotent.
  - unfold Reader.splitWord, Reader.getORPIndex, Reader.stripPunctuation.
    now rewrite !keep_idempotent.
Qed.

Lemma run_plus_keep (C : Z -> bool) (s : jsstring) :
  (run (fun c => negb (C c)) s + List.length (keep C s)
   <= List.length s)%nat.
Proof.
  unfold keep. induction s as [|c s IH]; [simpl; lia|].
  simpl. destruct (C c); simpl; [|lia].
  pose proof (filter_length_le C s). lia.
Qed.

Lemma run_all_length (C : Z -> bool) (s : jsstring) :
  keep C s = [] -> run (fun c => negb (C c)) s = List.length s.
Proof.
  unfold keep. induction s as [|c s IH]; [reflexivity|].
  simpl. destruct (C c); [discriminate|]. simpl. intros H. now rewrite IH.
Qed.

(** X8.  In the second copy of the engine [splitWord] cuts the word as it
    stands: its three parts, put together, are the word with its
    punctuation.  The highlighted part is one character whenever the word
    has a word character; a word of punctuation only goes whole into the
    first part. *)
Theorem part000_splitWord_keeps_word (word : jsstring) :
  let p := Part000.splitWord word in
  Reader.before p ++ Reader.highlight p ++ Reader.after p = word /\
  match keep isWordChar word with
  | [] => p = Reader.mkParts word [] []
  | _ :: _ => List.length (Reader.highlight p) = 1%nat
  end.
Proof.
  cbv zeta. pose proof (part000_splitWord_partition word) as Hp.
  cbv zeta in Hp. split; [exact Hp|].
  destruct (keep isWordChar word) as [|c s] eqn:E.
  - assert (Hi : Part000.getHighlightIndex word = len word).
    { unfold Part000.getHighlightIndex, Part000.getORPIndex.
      rewrite E, (run_all_length _ _ E). unfold len. simpl. lia. }
    unfold Part000.splitWord in *.
    cbn [Reader.before Reader.highlight Reader.after] in *. rewrite Hi in *.
    assert (Hh : Reader.charOrEmpty word (len word) = []).
    { unfold Reader.charOrEmpty, charAt, len.
      destruct (Z.ltb_spec (Z.of_nat (List.length word)) 0); [reflexivity|].
      rewrite Nat2Z.id.
      destruct (nth_error word (List.length word)) eqn:En; [|reflexivity].
      assert (nth_error word (List.length word) <> None) by congruence.
      apply nth_error_Some in H0. lia. }
    assert (Ha : substringFrom word (len word + 1) = []).
    { unfold substringFrom, substring, clamp, len.
      replace (Z.to_nat (Z.min (Z.max (Z.of_nat (List.length word) + 1) 0)
                           (Z.of_nat (List.length word))))
        with (List.length word) by lia.
      replace (Z.to_nat (Z.min (Z.max (Z.of_nat (List.length word)) 0)
                           (Z.of_nat (List.length word))))
        with (List.length word) by lia.
      rewrite Nat.max_id, Nat.min_id, Nat.sub_diag. reflexivity. }
    rewrite Hh, Ha in *. rewrite !app_nil_r in Hp. now rewrite Hp.
  - destruct (orp_inside word) as [H0|[_ [Hlo Hhi]]];
      unfold wordLength in *; rewrite E in *.
    + unfold len in H0. simpl in H0. lia.
    + pose proof (run_plus_keep isWordChar word) as Hr. rewrite E in Hr.
      unfold Part000.splitWord. cbn [Reader.highlight].
      unfold Reader.charOrEmpty, charAt, Part000.getHighlightIndex.
      unfold len in Hhi.
      set (i := Z.of_nat (run (fun c0 => negb (isWordChar c0)) word)
                + Part000.getORPIndex word) in *.
      destruct (Z.ltb_spec i 0); [lia|].
      destruct (nth_error word (Z.to_nat i)) eqn:En; [reflexivity|].
      apply nth_error_None in En. lia.
Qed.

(* ================================================================== *)
(** ** Further properties: display duration *)
(* ================================================================== *)

Lemma dropStart_app_all (C : Z -> bool) (l s : jsstring) :
  Forall (fun c => C c = true) l -> dropStart C (l ++ s) = dropStart C s.
Proof.
  induction 1 as [|c l Hc _ IH]; [reflexivity|].
  simpl. now rewrite Hc.
Qed.

Lemma dropEnd_app_all (C : Z -> bool) (s cs : jsstring) :
  forallb C cs = true -> dropEnd C (s ++ cs) = dropEnd C s.
Proof.
  intros H. unfold dropEnd. rewrite rev_app_distr.
  rewrite dropStart_app_all; [reflexivity|].
  apply Forall_rev, Forall_forall. now apply forallb_forall.
Qed.

Lemma isClosing_spec (c : Z) :
  Reader.isClosing c = true <-> In c [39; 34; 41; 93].
Proof.
  unfold Reader.isClosing. rewrite !orb_true_iff, !Z.eqb_eq. cbn [In].
  intuition auto.
Qed.

(** X9.  The four characters that the pattern of [getWordDuration] strips
    from the end of a word (apostrophe, double quote, closing parenthesis,
    closing square bracket), appended to a word in any number, do not
    change its display duration.  No other character is stripped: put at
    the end of a word it decides the multiplier by itself.  So a
    typographic closing quote (U+2019, U+201D) is not ignored: the word
    that ends in one gets the multiplier 1, whatever stands before the
    quote. *)
Theorem getWordDuration_ignores_closers
  (word cs : jsstring) (wpm : float) :
  Forall (fun c => In c [39; 34; 41; 93]) cs ->
  Reader.getWordDuration (word ++ cs) wpm = Reader.getWordDuration word wpm /\
  (forall c,
     In c [39; 34; 41; 93] \/
     Reader.getWordDuration (word ++ [c]) wpm
     = (60000 / wpm * tableMultiplier c)%float) /\
  Reader.getWordDuration (word ++ [8217]) wpm = (60000 / wpm * 1)%float /\
  Reader.getWordDuration (word ++ [8221]) wpm = (60000 / wpm * 1)%float.
Proof.
  intros H.
  assert (Hother : forall c, Reader.isClosing c = false ->
            Reader.getWordDuration (word ++ [c]) wpm
            = (60000 / wpm * tableMultiplier c)%float).
  { intros c Hc. apply getWordDuration_last with (body := word).
    now apply dropEnd_last. }
  split; [|split; [|split]].
  - unfold Reader.getWordDuration, Reader.multiplierOf.
    rewrite (dropEnd_app_all _ word cs); [reflexivity|].
    apply forallb_forall. rewrite Forall_forall in H.
    intros c Hc. apply isClosing_spec. now apply H.
  - intros c. destruct (Reader.isClosing c) eqn:Hc.
    + left. now apply isClosing_spec.
    + right. now apply Hother.
  - now apply (Hother 8217).
  - now apply (Hother 8221).
Qed.

Lemma getWordDuration_ignores_closers_witness :
  Reader.getWordDuration (lit "(end)." ++ lit ")]'") 300
  = Reader.getWordDuration (lit "(end).") 300 /\
  (forall c,
     In c [39; 34; 41; 93] \/
     Reader.getWordDuration (lit "(end)." ++ [c]) 300
     = (60000 / 300 * tableMultiplier c)%float) /\
  Reader.getWordDuration (lit "(end)." ++ [8217]) 300
  = (60000 / 300 * 1)%float /\
  Reader.getWordDuration (lit "(end)." ++ [8221]) 300
  = (60000 / 300 * 1)%float.
Proof.
  apply (getWordDuration_ignores_closers (lit "(end).") (lit ")]'") 300).
  simpl. repeat (apply Forall_cons; [simpl; lia|]). apply Forall_nil.
Defined.

Lemma tableMultiplier_values (c : Z) :
  In (tableMultiplier c) [1.0; 1.2; 1.5; 2.0]%float.
Proof.
  unfold tableMultiplier.
  repeat match goal with
         | |- context [?a =? ?b] => destruct (a =? b)
         end; simpl; auto.
Qed.

(** X10.  Whatever the word, its duration is the base delay [60000 / wpm]
    times one of four multipliers, 1, 1.2, 1.5 or 2, and the multiplier
    does not depend on the rate; the 1.3 of the table is never applied. *)
Theorem getWordDuration_multipliers (word : jsstring) :
  exists m,
    In m [1.0; 1.2; 1.5; 2.0]%float /\
    forall wpm, Reader.getWordDuration word wpm = (60000 / wpm * m)%float.
Proof.
  destruct (dropEnd Reader.isClosing word) as [|c s] eqn:E.
  - exists 1.0%float. split; [simpl; auto|].
    intros wpm. now apply getWordDuration_nothing_left.
  - assert (Hne : c :: s <> []) by discriminate.
    destruct (exists_last Hne) as [body [d Ed]]. rewrite Ed in E.
    exists (tableMultiplier d). split; [apply tableMultiplier_values|].
    intros wpm. now apply getWordDuration_last with (body := body).
Qed.

(* ================================================================== *)
(** ** Further properties: the engine *)
(* ================================================================== *)

(** X11.  [pause] and [stop] are idempotent in every state and [stop]
    absorbs [pause] on either side; [pause] leaves the engine stopped with
    no timer and keeps the index, [stop] keeps the words and the callback
    log. *)
Theorem pause_stop_idempotent (w : world) :
  pause (pause w) = pause w /\
  stop (stop w) = stop w /\
  stop (pause w) = stop w /\
  pause (stop w) = stop w /\
  isPlaying (pause w) = false /\ timer (pause w) = None /\
  currentIndex (pause w) = currentIndex w /\
  words (stop w) = words w /\ log (stop w) = log w.
Proof.
  destruct w as [ws idx pl tm et wc pr co pd nid lg].
  unfold stop, pause. destruct tm; cbn; repeat split; reflexivity.
Qed.

Lemma log_showWord (word : jsstring) (w : world) :
  log (showWord word w) = log w ++ wordEvents word w.
Proof.
  unfold showWord, wordEvents. destruct (onWordChange w); cbn;
    [reflexivity | now rewrite app_nil_r].
Qed.

Lemma log_showProgress (wpm : float) (w : world) :
  log (showProgress wpm w) = log w ++ progressEvents (currentIndex w) wpm w.
Proof.
  unfold showProgress, progressEvents. destruct (onProgress w); cbn;
    [reflexivity | now rewrite app_nil_r].
Qed.

Lemma goodEvents_app (l1 l2 : list event) :
  forallb goodEvent (l1 ++ l2) = true <->
  forallb goodEvent l1 = true /\ forallb goodEvent l2 = true.
Proof. rewrite forallb_app. apply andb_true_iff. Qed.

Lemma good_wordEvents (word : jsstring) (w : world) :
  forallb goodEvent (wordEvents word w) = true.
Proof. unfold wordEvents. now destruct (onWordChange w). Qed.

Lemma good_progressEvents (index : Z) (wpm : float) (w : world) :
  0 <= index -> index < total w \/ total w = 0 /\ index = 0 ->
  forallb goodEvent (progressEvents index wpm w) = true.
Proof.
  intros H0 H. unfold progressEvents.
  destruct (onProgress w); [|reflexivity].
  cbn [forallb goodEvent]. rewrite andb_true_r. unfold goodProgress.
  cbn [totalWords currentWord getProgress].
  destruct H as [H|[H1 H2]].
  - apply orb_true_iff. right. apply andb_true_iff. split; lia.
  - apply orb_true_iff. left. apply andb_true_iff. split; lia.
Qed.

(** Showing a word or the progress leaves the timeouts alone. *)
Lemma Good_show (w w' : world) :
  nextId w' = nextId w -> pending w' = pending w ->
  forallb goodEvent (log w') = true ->
  Good w -> Good w'.
Proof.
  intros Hn Hp Hl [G1 [G2 _]]. unfold Good. rewrite Hn, Hp. auto.
Qed.

Lemma okDelay_max0 (x : float) : okDelay (Math_max0 x) = true.
Proof.
  unfold Math_max0, okDelay.
  destruct (is_nan x) eqn:En; [reflexivity|].
  destruct (ltb zero x) eqn:El.
  - rewrite El. now rewrite orb_true_r.
  - reflexivity.
Qed.

Lemma Good_showWord (word : jsstring) (w : world) :
  Good w -> Good (showWord word w).
Proof.
  intros G. pose proof (showWord_facts word w) as F. cbv zeta in F.
  destruct F as [_ [_ [_ [_ [Hp [Hn _]]]]]].
  apply (Good_show w); auto.
  rewrite log_showWord. apply goodEvents_app.
  split; [apply G | apply good_wordEvents].
Qed.

Lemma Good_showProgress (wpm : float) (w : world) :
  0 <= currentIndex w ->
  currentIndex w < total w \/ total w = 0 /\ currentIndex w = 0 ->
  Good w -> Good (showProgress wpm w).
Proof.
  intros H0 H G. pose proof (showProgress_facts wpm w) as F. cbv zeta in F.
  destruct F as [_ [_ [_ [_ [Hp [Hn _]]]]]].
  apply (Good_show w); auto.
  rewrite log_showProgress. apply goodEvents_app.
  split; [apply G | now apply good_progressEvents].
Qed.

Lemma Good_setTimeout (delay : float) (w : world) :
  Good w -> Good (setTimeout (Math_max0 delay) w).
Proof.
  intros [P1 [P2 P3]]. unfold Good, setTimeout. cbn.
  split; [lia|]. split; [|exact P3].
  apply Forall_app. split.
  - eapply Forall_impl; [|exact P2]. cbn. intros t [Ht Hd].
    split; [lia | exact Hd].
  - constructor; [|constructor]. cbn. split; [lia|].
    apply okDelay_max0.
Qed.

(** Showing the word at the current position and then the progress. *)
Lemma Good_display (word : jsstring) (wpm : float) (w : world) :
  0 <= currentIndex w ->
  currentIndex w < total w \/ total w = 0 /\ currentIndex w = 0 ->
  Good w -> Good (showProgress wpm (showWord word w)).
Proof.
  intros H0 H G. pose proof (showWord_facts word w) as F. cbv zeta in F.
  destruct F as [[Hw _] [Hi _]].
  apply Good_showProgress; [| |now apply Good_showWord];
    unfold total in *; rewrite ?Hw, ?Hi; auto.
Qed.

Lemma Good_idle (w w' : world) :
  nextId w' = nextId w -> pending w' = [] -> log w' = log w ->
  Good w -> Good w'.
Proof.
  intros Hn Hp Hl [G1 [_ G3]]. unfold Good. rewrite Hn, Hp, Hl. auto.
Qed.

Lemma Good_pause (w : world) : TimerOk w -> Good w -> Good (pause w).
Proof.
  intros Ht G. rewrite pause_eq by exact Ht. now apply (Good_idle w).
Qed.

Lemma Good_scheduleNext (now : float) (rate : option float) (w w' : world) :
  0 <= currentIndex w -> Good w ->
  scheduleNext now rate w = Done w' -> Good w'.
Proof.
  intros H0 G. unfold scheduleNext.
  destruct (negb (isPlaying w) || (total w <=? currentIndex w)) eqn:Hc.
  - destruct ((total w <=? currentIndex w) && onComplete w);
      intros [= <-]; destruct G as [G1 [G2 G3]]; unfold Good; cbn;
      rewrite ?forallb_app; cbn; rewrite ?G3; auto.
  - apply orb_false_iff in Hc. destruct Hc as [_ Hc].
    apply Z.leb_gt in Hc.
    destruct (wordAt w (currentIndex w)) as [word|]; [|discriminate].
    cbv zeta. intros [= <-].
    apply Good_setTimeout. apply Good_display.
    + cbn. exact H0.
    + left. unfold total in *. cbn. exact Hc.
    + destruct G as [G1 [G2 G3]]. unfold Good. cbn. auto.
Qed.

Lemma Good_set_currentIndex (i : Z) (w : world) :
  Good w -> Good (set_currentIndex i w).
Proof. intros G. exact G. Qed.

Lemma Good_clearTimeout (id : nat) (w : world) :
  Good w -> Good (clearTimeout id w).
Proof.
  intros [G1 [G2 G3]]. unfold Good, clearTimeout. cbn.
  split; [exact G1|]. split; [|exact G3].
  apply Forall_forall. intros t Ht. apply filter_In in Ht.
  rewrite Forall_forall in G2. apply G2, Ht.
Qed.

Lemma Good_exec (o : op) (w w' : world) :
  Inv w -> Good w -> exec o w = Done w' -> Good w'.
Proof.
  intros I G. pose proof I as [Hb [Ht _]].
  pose proof (TimerInv_ok w Ht) as Hok.
  pose proof (Good_pause w Hok G) as Gp.
  assert (Hpi : currentIndex (pause w) = currentIndex w
                /\ words (pause w) = words w).
  { rewrite pause_eq by exact Hok. split; reflexivity. }
  destruct Hpi as [Hpi Hpw].
  destruct o as [text|now0 now rate|id now rate| | | | |index wpm]; cbn [exec].
  - intros [= <-]. unfold init, stop.
    match goal with |- Good (set_currentIndex 0 (pause ?w0)) =>
      assert (Hok0 : TimerOk w0) by exact Hok;
      assert (G0 : Good w0) by exact G;
      exact (Good_pause w0 Hok0 G0)
    end.
  - unfold play. destruct (isPlaying w) eqn:Ep.
    + now intros [= <-].
    + apply Good_scheduleNext.
      * destruct (total w <=? currentIndex w); cbn; lia.
      * destruct (total w <=? currentIndex w); exact G.
  - unfold expire.
    destruct (existsb (fun t => Nat.eqb (fst t) id) (pending w)).
    + apply Good_scheduleNext.
      * cbn. lia.
      * exact (Good_clearTimeout id w G).
    + now intros [= <-].
  - intros [= <-]. exact Gp.
  - intros [= <-]. exact Gp.
  - intros [= <-]. unfold restart. cbv zeta.
    change (words (set_currentIndex 0 (pause w))) with (words (pause w)).
    rewrite Hpw.
    assert (G0 : Good (set_currentIndex 0 (pause w))) by exact Gp.
    destruct (words w) as [|first rest] eqn:Ew.
    + apply Good_showProgress; [cbn [currentIndex set_currentIndex]; lia| |exact G0].
      right. unfold total. cbn [words currentIndex set_currentIndex].
      rewrite Hpw; try rewrite Ew. split; reflexivity.
    + apply Good_display; [cbn [currentIndex set_currentIndex]; lia| |exact G0].
      left. unfold total. cbn [words currentIndex set_currentIndex].
      rewrite Hpw; try rewrite Ew. cbn [List.length]. lia.
  - unfold goToEnd. cbv zeta.
    set (w1 := set_currentIndex (Z.max 0 (total (pause w) - 1)) (pause w)).
    assert (G1 : Good w1) by exact Gp.
    assert (Ht1 : total w1 = total w).
    { unfold total, w1. cbn [words set_currentIndex]. now rewrite Hpw. }
    assert (Hi1 : currentIndex w1 = Z.max 0 (total w - 1)).
    { unfold w1. cbn [currentIndex set_currentIndex]. unfold total.
      now rewrite Hpw. }
    assert (Hge : 0 <= total w) by (unfold total; lia).
    assert (Hpos : currentIndex w1 < total w1 \/
                   total w1 = 0 /\ currentIndex w1 = 0) by lia.
    destruct (0 <? total w1); [destruct (onWordChange w1) eqn:Ewc|].
    + destruct (wordAt w1 (currentIndex w1)) as [word|]; [|discriminate].
      intros [= <-]. apply Good_display; [lia|exact Hpos|exact G1].
    + intros [= <-]. apply Good_showProgress; [lia|exact Hpos|exact G1].
    + intros [= <-]. apply Good_showProgress; [lia|exact Hpos|exact G1].
  - unfold displayWordAt.
    destruct ((0 <=? index) && (index <? total w)) eqn:Er.
    + apply andb_true_iff in Er. destruct Er as [E1 E2].
      apply Z.leb_le in E1. apply Z.ltb_lt in E2. cbv zeta.
      assert (G1 : Good (set_currentIndex index w)) by exact G.
      assert (Hpos : currentIndex (set_currentIndex index w)
                     < total (set_currentIndex index w) \/
                     total (set_currentIndex index w) = 0 /\
                     currentIndex (set_currentIndex index w) = 0).
      { left. unfold total in *. cbn. exact E2. }
      destruct (onWordChange (set_currentIndex index w)).
      * destruct (wordAt (set_currentIndex index w) index) as [word|];
          [|discriminate].
        intros [= <-]. apply Good_display; [cbn; lia|exact Hpos|exact G1].
      * intros [= <-]. apply Good_showProgress; [cbn; lia|exact Hpos|exact G1].
    + now intros [= <-].
Qed.

Lemma Good_boot (wc pr co : bool) : Good (boot wc pr co).
Proof. unfold Good, boot. cbn. repeat split; auto. Qed.

Lemma Good_run_ops (os : list op) :
  forall w w', Inv w -> Good w -> run_ops os w = Done w' -> Good w'.
Proof.
  induction os as [|o os IH]; intros w w' I G; cbn [run_ops].
  - now intros [= <-].
  - destruct (Inv_exec o w I) as [w1 [E1 I1]]. rewrite E1.
    apply IH; [exact I1|]. exact (Good_exec o w w1 I G E1).
Qed.

Lemma Reachable_Good (w : world) : Reachable w -> Good w.
Proof.
  intros [wc [pr [co [os E]]]].
  exact (Good_run_ops os _ w (Inv_boot wc pr co) (Good_boot wc pr co) E).
Qed.

Lemma run_ops_reaches (wc pr co : bool) (os : list op) :
  exists w, run_ops os (boot wc pr co) = Done w /\ Reachable w.
Proof.
  destruct (Inv_run_ops os _ (Inv_boot wc pr co)) as [w [E _]].
  exists w. split; [exact E|]. now exists wc, pr, co, os.
Qed.

(** X12.  Whatever operations are applied, in whatever order, the engine
    never has more than one timeout pending: none while it is not playing,
    and while it is playing exactly the one [timer] names, whose identifier
    [setTimeout] has given out before and whose delay is not negative. *)
Theorem timer_discipline (wc pr co : bool) (os : list op) :
  match run_ops os (boot wc pr co) with
  | Done w =>
      match pending w with
      | [] => isPlaying w = false
      | [(id, d)] =>
          isPlaying w = true /\ timer w = Some id /\
          (1 <= id < nextId w)%nat /\ okDelay d = true
      | _ => False
      end
  | Throws => False
  end.
Proof.
  destruct (run_ops_reaches wc pr co os) as [w [E R]]. rewrite E.
  pose proof (Reachable_Inv w R) as [_ [Ht _]].
  pose proof (Reachable_Good w R) as [_ [Gp _]].
  unfold TimerInv in Ht.
  destruct (pending w) as [|[id d] [|t rest]]; [exact Ht| |exact Ht].
  destruct Ht as [H1 [H2 _]]. inversion Gp as [|? ? [H3 H4] _]; subst.
  cbn in H3, H4. auto.
Qed.

(** X13.  A timeout callback that runs although the engine does not wait
    for it (it was cancelled by a pause, a stop, a restart or a new text, or
    it has fired already) changes nothing; the one the engine waits for
    moves the position on by exactly one word. *)
Theorem only_the_awaited_timeout_advances (wc pr co : bool) (os : list op)
  (id : nat) (now : float) (rate : option float) :
  match run_ops os (boot wc pr co) with
  | Done w =>
      if awaited w id
      then exists w', expire id now rate w = Done w' /\
                      currentIndex w' = currentIndex w + 1 /\
                      words w' = words w
      else expire id now rate w = Done w
  | Throws => False
  end.
Proof.
  destruct (run_ops_reaches wc pr co os) as [w [E R]]. rewrite E.
  pose proof (Reachable_Inv w R) as I. pose proof I as [_ [Ht _]].
  unfold awaited. destruct (isPlaying w) eqn:Ep; cbn [andb].
  - destruct (playing_one_timeout w Ht Ep) as [id0 [d [Hpd [Htm _]]]].
    rewrite Htm. destruct (Nat.eqb_spec id0 id) as [->|Hne].
    + destruct (expire_spec id d now rate w I Hpd)
        as [w' [E' [_ [[Hw _] [Hi _]]]]].
      exists w'. auto.
    + unfold expire. rewrite Hpd. cbn [existsb fst orb].
      apply Nat.eqb_neq in Hne. now rewrite Hne.
  - apply expire_stale. now apply not_playing_idle.
Qed.

(** X14.  Every progress report a callback ever receives is sensible: word
    [k] of [n] with [1 <= k <= n], or word 1 of 0 when the text has no
    words. *)
Theorem progress_reports_in_range (wc pr co : bool) (os : list op) :
  match run_ops os (boot wc pr co) with
  | Done w =>
      Forall (fun e =>
                match e with
                | ProgressChanged p =>
                    1 <= currentWord p <= totalWords p \/
                    totalWords p = 0 /\ currentWord p = 1
                | _ => True
                end) (log w)
  | Throws => False
  end.
Proof.
  destruct (run_ops_reaches wc pr co os) as [w [E R]]. rewrite E.
  pose proof (Reachable_Good w R) as [_ [_ Gl]].
  rewrite forallb_forall in Gl. apply Forall_forall. intros e He.
  specialize (Gl e He). destruct e as [p|p|]; auto.
  cbn in Gl. unfold goodProgress in Gl.
  apply orb_true_iff in Gl. destruct Gl as [G|G];
    apply andb_true_iff in G; destruct G as [G1 G2].
  - right. split; lia.
  - left. split; lia.
Qed.

(** X15.  [getCurrentWord] answers [null] only when the index is at the
    terminal position; otherwise it answers the word at the index. *)
Theorem getCurrentWord_null_only_at_end (wc pr co : bool) (os : list op) :
  match run_ops os (boot wc pr co) with
  | Done w =>
      match getCurrentWord w with
      | Some word =>
          0 <= currentIndex w < total w /\
          nth_error (words w) (Z.to_nat (currentIndex w)) = Some word
      | None => currentIndex w = total w
      end
  | Throws => False
  end.
Proof.
  destruct (run_ops_reaches wc pr co os) as [w [E R]]. rewrite E.
  pose proof (Reachable_Inv w R) as [Hb _].
  unfold getCurrentWord.
  destruct (Z.ltb_spec (currentIndex w) (total w)) as [Hlt|Hge]; [|lia].
  destruct (wordAt_some w (currentIndex w)) as [word Hw]; [lia|].
  rewrite Hw. split; [lia|].
  unfold wordAt, elementAt in Hw.
  destruct (Z.ltb_spec (currentIndex w) 0); [lia | exact Hw].
Qed.

Lemma Reachable_demoPlaying : Reachable demoPlaying.
Proof.
  exists true, true, true,
    [Init (lit "Hello, world. This is a test"); Play zero zero None].
  vm_compute. reflexivity.
Defined.

(** X16.  Pausing and resuming from the controller keeps the place: the
    first [togglePlayPause] of a playing engine cancels its timeout, the
    second starts playing again at the same word with a fresh timeout, and
    no completion is reported in between. *)
Theorem togglePlayPause_resumes (w : world) (t0 t1 t2 t3 : float)
  (r1 r2 : option float) :
  Reachable w -> isPlaying w = true ->
  exists w1 w2 d,
    App.togglePlayPause t0 t1 r1 w = Done w1 /\
    isPlaying w1 = false /\ pending w1 = [] /\
    currentIndex w1 = currentIndex w /\
    App.togglePlayPause t2 t3 r2 w1 = Done w2 /\
    isPlaying w2 = true /\ currentIndex w2 = currentIndex w /\
    words w2 = words w /\
    pending w2 = [(nextId w, d)] /\ timer w2 = Some (nextId w) /\
    completions (log w2) = completions (log w).
Proof.
  intros R Hp. pose proof (Reachable_Inv w R) as [Hb [Ht _]].
  destruct (playing_one_timeout w Ht Hp) as [id [d0 [Hpd [Htm Hlt]]]].
  pose proof (pause_eq w (TimerInv_ok w Ht)) as Ep.
  assert (F : isPlaying (pause w) = false /\ pending (pause w) = [] /\
              currentIndex (pause w) = currentIndex w /\
              words (pause w) = words w /\ nextId (pause w) = nextId w /\
              log (pause w) = log w).
  { rewrite Ep. repeat split. }
  destruct F as [F1 [F2 [F3 [F4 [F5 F6]]]]].
  destruct (scheduleNext_shows t3 r2
              (set_expectedTime t2 (set_isPlaying true (pause w))) eq_refl)
    as [w2 [d [E2 [[S2 _] [I2 [P2 [T2 [Pd2 C2]]]]]]]].
  { unfold total.
    cbn [currentIndex words set_expectedTime set_isPlaying].
    rewrite F3, F4. unfold total in Hlt. lia. }
  cbn [currentIndex words pending nextId log set_expectedTime set_isPlaying]
    in S2, I2, T2, Pd2, C2.
  rewrite F2, F5 in Pd2. rewrite F5 in T2. rewrite F3 in I2.
  rewrite F4 in S2. rewrite F6 in C2.
  exists (pause w), w2, d.
  split; [unfold App.togglePlayPause; now rewrite Hp|].
  split; [exact F1|]. split; [exact F2|]. split; [exact F3|]. split.
  - unfold App.togglePlayPause. rewrite F1. unfold play. rewrite F1.
    unfold total at 1. rewrite F3, F4.
    destruct (Z.leb_spec (Z.of_nat (List.length (words w))) (currentIndex w))
      as [Hle|_]; [unfold total in Hlt; lia|].
    exact E2.
  - repeat split; assumption.
Qed.

Lemma togglePlayPause_resumes_witness :
  isPlaying demoPlaying = true /\
  exists w1 w2 d,
    App.togglePlayPause zero zero None demoPlaying = Done w1 /\
    isPlaying w1 = false /\ pending w1 = [] /\
    currentIndex w1 = currentIndex demoPlaying /\
    App.togglePlayPause 5000 5000 (Some 600%float) w1 = Done w2 /\
    isPlaying w2 = true /\ currentIndex w2 = currentIndex demoPlaying /\
    words w2 = words demoPlaying /\
    pending w2 = [(nextId demoPlaying, d)] /\
    timer w2 = Some (nextId demoPlaying) /\
    completions (log w2) = completions (log demoPlaying).
Proof.
  assert (Hp : isPlaying demoPlaying = true) by (vm_compute; reflexivity).
  split; [exact Hp|].
  exact (togglePlayPause_resumes demoPlaying zero zero 5000 5000 None
           (Some 600%float) Reachable_demoPlaying Hp).
Defined.

(** [displayWordAt] inside the range: only the index and the callback log
    change. *)
Lemma displayWordAt_moves (index : Z) (wpm : float) (w : world) :
  0 <= index < total w ->
  exists w1,
    displayWordAt index wpm w = Done w1 /\ SameSetup w w1 /\
    currentIndex w1 = index /\ isPlaying w1 = isPlaying w /\
    timer w1 = timer w /\ pending w1 = pending w /\
    nextId w1 = nextId w /\
    completions (log w1) = completions (log w).
Proof.
  intros Hi. unfold displayWordAt.
  destruct (Z.leb_spec 0 index) as [_|]; [|lia].
  destruct (Z.ltb_spec index (total w)) as [_|]; [|lia].
  cbn [andb]. cbv zeta.
  destruct (wordAt_some w index Hi) as [word Hw].
  change (wordAt (set_currentIndex index w) index) with (wordAt w index).
  rewrite Hw.
  destruct (onWordChange (set_currentIndex index w)); eexists;
    (split; [reflexivity|]).
  - pose proof (showWord_facts word (set_currentIndex index w)) as HW.
    pose proof (showProgress_facts wpm
                  (showWord word (set_currentIndex index w))) as HP.
    cbv zeta in HW, HP.
    destruct HW as [[W1 [W2 [W3 W4]]] [W5 [W6 [W7 [W8 [W9 [W10 W11]]]]]]].
    destruct HP as [[P1 [P2 [P3 P4]]] [P5 [P6 [P7 [P8 [P9 [P10 P11]]]]]]].
    unfold SameSetup.
    rewrite P1, P2, P3, P4, P5, P6, P7, P8, P9, P11.
    rewrite W1, W2, W3, W4, W5, W6, W7, W8, W9, W11.
    repeat split.
  - pose proof (showProgress_facts wpm (set_currentIndex index w)) as HQ.
    cbv zeta in HQ.
    destruct HQ as [[Q1 [Q2 [Q3 Q4]]] [Q5 [Q6 [Q7 [Q8 [Q9 [Q10 Q11]]]]]]].
    unfold SameSetup.
    rewrite Q1, Q2, Q3, Q4, Q5, Q6, Q7, Q8, Q9, Q11. repeat split.
Qed.

(** X17.  Seeking while the engine plays does not disturb the pending
    timeout: [displayWordAt] with an index inside the range moves the index
    and leaves the engine playing, and when the timeout expires playback
    goes on from the word after the new index (or ends, past the last
    word). *)
Theorem seek_while_playing (w : world) (index : Z) (wpm now : float)
  (rate : option float) :
  Reachable w -> isPlaying w = true -> 0 <= index < total w ->
  exists w1 w2,
    displayWordAt index wpm w = Done w1 /\
    currentIndex w1 = index /\ isPlaying w1 = true /\
    pending w1 = pending w /\ timer w1 = timer w /\
    tick now rate w1 = Done w2 /\
    currentIndex w2 = index + 1 /\
    isPlaying w2 = negb (total w <=? index + 1).
Proof.
  intros R Hp Hi. pose proof (Reachable_Inv w R) as I.
  pose proof I as [_ [Ht _]].
  destruct (playing_one_timeout w Ht Hp) as [id [d [Hpd _]]].
  destruct (displayWordAt_moves index wpm w Hi)
    as [w1 [E1 [[S1 _] [I1 [P1 [T1 [Pd1 _]]]]]]].
  destruct (Inv_displayWordAt index wpm w I) as [w1' [E1' Inv1]].
  assert (w1' = w1) by congruence. subst w1'.
  rewrite Hpd in Pd1.
  destruct (expire_spec id d now rate w1 Inv1 Pd1)
    as [w2 [E2 [_ [_ [I2 H2]]]]].
  assert (Htot : total w1 = total w) by (unfold total; now rewrite S1).
  rewrite Htot, I1 in H2. rewrite I1 in I2.
  exists w1, w2. split; [exact E1|]. split; [exact I1|].
  split; [congruence|]. split; [congruence|]. split; [exact T1|].
  split; [unfold tick; rewrite Pd1; exact E2|]. split; [exact I2|].
  destruct (total w <=? index + 1); cbn [negb]; tauto.
Qed.

Lemma seek_while_playing_witness :
  isPlaying demoPlaying = true /\ 0 <= 4 < total demoPlaying /\
  exists w1 w2,
    displayWordAt 4 300 demoPlaying = Done w1 /\
    currentIndex w1 = 4 /\ isPlaying w1 = true /\
    pending w1 = pending demoPlaying /\ timer w1 = timer demoPlaying /\
    tick zero None w1 = Done w2 /\
    currentIndex w2 = 4 + 1 /\
    isPlaying w2 = negb (total demoPlaying <=? 4 + 1).
Proof.
  assert (Hp : isPlaying demoPlaying = true) by (vm_compute; reflexivity).
  assert (Htot : total demoPlaying = 6) by (vm_compute; reflexivity).
  assert (Hi : 0 <= 4 < total demoPlaying) by (rewrite Htot; lia).
  split; [exact Hp|]. split; [exact Hi|].
  exact (seek_while_playing demoPlaying 4 300 zero None
           Reachable_demoPlaying Hp Hi).
Defined.

(** X18.  The controller's restart stops playback and shows the first word
    twice: once by [Reader.restart] with a progress report at the fixed 300
    words per minute, once by [displayWordAt] with a report at the rate in
    use.  On a text without words only the first report is made. *)
Theorem app_restart_reports (w : world) (wpm : float) :
  Reachable w ->
  exists w',
    App.restart wpm w = Done w' /\
    currentIndex w' = 0 /\ isPlaying w' = false /\ pending w' = [] /\
    words w' = words w /\
    log w' = log w ++
             match words w with
             | [] => progressEvents 0 300 w
             | first :: _ =>
                 wordEvents first w ++ progressEvents 0 300 w ++
                 wordEvents first w ++ progressEvents 0 wpm w
             end.
Proof.
  intros R. pose proof (Reachable_Inv w R) as [_ [Ht _]].
  pose proof (pause_eq w (TimerInv_ok w Ht)) as Ep.
  unfold App.restart, restart. rewrite Ep. clear Ep R Ht.
  destruct w as [ws idx pl tm et wc pr co pd nid lg].
  unfold wordEvents, progressEvents, total.
  cbn [words currentIndex isPlaying timer expectedTime onWordChange
       onProgress onComplete pending nextId log set_currentIndex].
  destruct ws as [|first rest].
  - unfold displayWordAt, showProgress, total, emit.
    destruct pr; cbn [words currentIndex isPlaying timer expectedTime
       onWordChange onProgress onComplete pending nextId log List.length
       Z.of_nat Z.leb Z.ltb Z.compare andb];
      eexists; (split; [reflexivity|]); repeat split.
    now rewrite app_nil_r.
  - assert (Hpos : (0 <? Z.of_nat (List.length (first :: rest))) = true).
    { apply Z.ltb_lt. cbn [List.length]. lia. }
    unfold displayWordAt, showProgress, showWord, total, emit, wordAt,
      elementAt.
    destruct wc, pr;
      cbn [words currentIndex isPlaying timer expectedTime
       onWordChange onProgress onComplete pending nextId log
       set_currentIndex];
      rewrite Hpos;
      cbn [Z.leb Z.ltb Z.compare andb Z.to_nat nth_error
       words currentIndex isPlaying timer expectedTime
       onWordChange onProgress onComplete pending nextId log
       set_currentIndex];
      eexists; (split; [reflexivity|]); repeat split;
      rewrite <- ?app_assoc; cbn [app]; rewrite ?app_nil_r; reflexivity.
Qed.

Lemma app_restart_reports_witness :
  exists w',
    App.restart 450 demoPlaying = Done w' /\
    currentIndex w' = 0 /\ isPlaying w' = false /\ pending w' = [] /\
    words w' = words demoPlaying /\
    log w' = log demoPlaying ++
             match words demoPlaying with
             | [] => progressEvents 0 300 demoPlaying
             | first :: _ =>
                 wordEvents first demoPlaying ++
                 progressEvents 0 300 demoPlaying ++
                 wordEvents first demoPlaying ++
                 progressEvents 0 450 demoPlaying
             end.
Proof. exact (app_restart_reports demoPlaying 450 Reachable_demoPlaying). Defined.

(** [goToEnd]: playback stops and the index goes to the last word. *)
Lemma goToEnd_spec (w : world) :
  TimerOk w ->
  exists w1,
    goToEnd w = Done w1 /\ SameSetup w w1 /\
    currentIndex w1 = Z.max 0 (total w - 1) /\ isPlaying w1 = false /\
    timer w1 = None /\ pending w1 = [] /\ nextId w1 = nextId w /\
    completions (log w1) = completions (log w).
Proof.
  intros Hok. unfold goToEnd. rewrite (pause_eq w Hok). cbv zeta.
  match goal with
  | |- context [set_currentIndex ?i ?w0] => set (w1 := set_currentIndex i w0)
  end.
  assert (F : SameSetup w w1 /\ currentIndex w1 = Z.max 0 (total w - 1) /\
              isPlaying w1 = false /\ timer w1 = None /\ pending w1 = [] /\
              nextId w1 = nextId w /\ log w1 = log w).
  { unfold SameSetup. repeat split. }
  destruct F as [[F1 [F2 [F3 F4]]] [F5 [F6 [F7 [F8 [F9 F10]]]]]].
  assert (Htot : total w1 = total w) by (unfold total; now rewrite F1).
  pose proof (showProgress_facts 300 w1) as HQ. cbv zeta in HQ.
  destruct HQ as [[Q1 [Q2 [Q3 Q4]]] [Q5 [Q6 [Q7 [Q8 [Q9 [Q10 Q11]]]]]]].
  assert (Plain : exists w2,
             Done (showProgress 300 w1) = Done w2 /\ SameSetup w w2 /\
             currentIndex w2 = Z.max 0 (total w - 1) /\ isPlaying w2 = false /\
             timer w2 = None /\ pending w2 = [] /\ nextId w2 = nextId w /\
             completions (log w2) = completions (log w)).
  { eexists. split; [reflexivity|]. unfold SameSetup.
    rewrite Q1, Q2, Q3, Q4, Q5, Q6, Q7, Q8, Q9, Q11.
    rewrite F1, F2, F3, F4, F5, F6, F7, F8, F9, F10. repeat split. }
  destruct (Z.ltb_spec 0 (total w1)) as [Hpos|_]; [|exact Plain].
  destruct (onWordChange w1) eqn:Ewc; [|exact Plain].
  destruct (wordAt_some w1 (currentIndex w1)) as [word Hw]; [lia|].
  rewrite Hw.
  pose proof (showWord_facts word w1) as HW.
  pose proof (showProgress_facts 300 (showWord word w1)) as HP.
  cbv zeta in HW, HP.
  destruct HW as [[W1 [W2 [W3 W4]]] [W5 [W6 [W7 [W8 [W9 [W10 W11]]]]]]].
  destruct HP as [[P1 [P2 [P3 P4]]] [P5 [P6 [P7 [P8 [P9 [P10 P11]]]]]]].
  eexists. split; [reflexivity|]. unfold SameSetup.
  rewrite P1, P2, P3, P4, P5, P6, P7, P8, P9, P11.
  rewrite W1, W2, W3, W4, W5, W6, W7, W8, W9, W11.
  rewrite F1, F3, F4, F5, F6, F7, F8, F9, F10. rewrite <- F2, Ewc.
  repeat split.
Qed.

(** X19.  [goToEnd] never throws: it stops playback and puts the index on
    the last word, or on 0 when there is no word.  [play] after it shows
    that last word only, and the next expiry ends playback at the terminal
    position, the completion callback being called once; on a text without
    words [play] itself reports the completion at once. *)
Theorem goToEnd_then_play (w : world) (t0 t1 t2 : float)
  (r1 r2 : option float) :
  Reachable w ->
  exists w1 w2 w3,
    goToEnd w = Done w1 /\
    currentIndex w1 = Z.max 0 (total w - 1) /\
    isPlaying w1 = false /\ pending w1 = [] /\
    play t0 t1 r1 w1 = Done w2 /\
    currentIndex w2 = currentIndex w1 /\ isPlaying w2 = (0 <? total w) /\
    tick t2 r2 w2 = Done w3 /\
    currentIndex w3 = total w /\ isPlaying w3 = false /\ pending w3 = [] /\
    completions (log w3)
    = (completions (log w) + if onComplete w then 1 else 0)%nat.
Proof.
  intros R. pose proof (Reachable_Inv w R) as I. pose proof I as [_ [Ht _]].
  destruct (goToEnd_spec w (TimerInv_ok w Ht))
    as [w1 [E1 [[S1 [_ [_ S4]]] [I1 [P1 [_ [Pd1 [_ C1]]]]]]]].
  destruct (Inv_goToEnd w I) as [w1' [E1' Inv1]].
  assert (w1' = w1) by congruence. subst w1'.
  assert (Htot1 : total w1 = total w) by (unfold total; now rewrite S1).
  assert (Hge : 0 <= total w) by (unfold total; lia).
  destruct (play_spec t0 t1 r1 w1 Inv1 P1)
    as [w2 [E2 [Inv2 [[S2 [_ [_ S24]]] [I2 H2]]]]].
  cbv zeta in I2, H2. rewrite Htot1, I1 in I2, H2.
  assert (Htot2 : total w2 = total w) by (unfold total; now rewrite S2, S1).
  destruct (Z.eq_dec (total w) 0) as [Hz|Hnz].
  - rewrite Hz in *. cbn in I2, H2. destruct H2 as [Hp2 Hc2].
    exists w1, w2, w2. rewrite I1. cbn.
    pose proof (not_playing_idle w2 (proj1 (proj2 Inv2)) Hp2) as Pd2.
    unfold tick. rewrite Pd2.
    repeat split; auto. rewrite Hc2, C1, S4. reflexivity.
  - assert (Hmax : Z.max 0 (total w - 1) = total w - 1) by lia.
    rewrite Hmax in *.
    destruct (Z.leb_spec (total w) (total w - 1)) as [|_]; [lia|].
    destruct (Z.leb_spec (total w) (total w - 1)) as [|_]; [lia|].
    destruct H2 as [Hp2 Hc2].
    destruct (playing_one_timeout w2 (proj1 (proj2 Inv2)) Hp2)
      as [id [d [Pd2 _]]].
    destruct (expire_spec id d t2 r2 w2 Inv2 Pd2)
      as [w3 [E3 [Inv3 [_ [I3 H3]]]]].
    rewrite I2 in I3. rewrite Htot2, I2 in H3.
    destruct (Z.leb_spec (total w) (total w - 1 + 1)) as [_|]; [|lia].
    destruct H3 as [Hp3 Hc3].
    exists w1, w2, w3. unfold tick. rewrite Pd2.
    destruct (Z.ltb_spec 0 (total w)) as [_|]; [|lia].
    repeat split; auto; try lia.
    + apply not_playing_idle; [apply Inv3 | exact Hp3].
    + rewrite Hc3, Hc2, C1, S24, S4. reflexivity.
Qed.

Lemma goToEnd_then_play_witness :
  exists w1 w2 w3,
    goToEnd demoPlaying = Done w1 /\
    currentIndex w1 = Z.max 0 (total demoPlaying - 1) /\
    isPlaying w1 = false /\ pending w1 = [] /\
    play zero zero None w1 = Done w2 /\
    currentIndex w2 = currentIndex w1 /\
    isPlaying w2 = (0 <? total demoPlaying) /\
    tick 200 None w2 = Done w3 /\
    currentIndex w3 = total demoPlaying /\ isPlaying w3 = false /\
    pending w3 = [] /\
    completions (log w3)
    = (completions (log demoPlaying)
       + if onComplete demoPlaying then 1 else 0)%nat.
Proof.
  exact (goToEnd_then_play demoPlaying zero zero 200 None None
           Reachable_demoPlaying).
Defined.

(* ================================================================== *)
(** ** Further properties: the controller and the storage *)
(* ================================================================== *)

Lemma removeCitations_nil : Reader.removeCitations [] = [].
Proof. reflexivity. Qed.

Lemma removeCitations_after_space (l s : jsstring) :
  Forall (fun c => isWhiteSpace c = true) l ->
  Reader.removeCitations (l ++ s) = l ++ Reader.removeCitations s.
Proof.
  induction 1 as [|w l Hw _ IH]; [reflexivity|].
  change ((w :: l) ++ s) with ([] ++ w :: (l ++ s)).
  rewrite (removeCitations_join [] (l ++ s) w Hw), IH.
  now rewrite removeCitations_nil.
Qed.

Lemma removeCitations_before_space (s t : jsstring) :
  Forall (fun c => isWhiteSpace c = true) t ->
  Reader.removeCitations (s ++ t) = Reader.removeCitations s ++ t.
Proof.
  intros Ht. destruct Ht as [|w t Hw Ht]; [now rewrite !app_nil_r|].
  rewrite (removeCitations_join s t w Hw).
  now rewrite (removeCitations_of_space t Ht).
Qed.

Lemma parseText_trim (text : jsstring) :
  Reader.parseText (trim text) = Reader.parseText text.
Proof.
  destruct (trim_split text) as [lead [trail [E [Hl Ht]]]].
  rewrite !parseText_pieces. rewrite E at 2.
  rewrite (removeCitations_after_space lead _ Hl).
  rewrite (removeCitations_before_space _ trail Ht).
  rewrite (pieces_lead_space lead _ Hl).
  now rewrite (pieces_before_space _ trail Ht).
Qed.

Lemma dropStart_head (C : Z -> bool) (s : jsstring) c rest :
  dropStart C s = c :: rest -> C c = false.
Proof.
  induction s as [|x s IH]; cbn [dropStart]; [discriminate|].
  destruct (C x) eqn:Hx; [exact IH|]. intros [= <- _]. exact Hx.
Qed.

Lemma trim_head (s : jsstring) c rest :
  trim s = c :: rest -> isWhiteSpace c = false.
Proof.
  unfold trim. intros E.
  destruct (dropEnd_split isWhiteSpace (dropStart isWhiteSpace s))
    as [trail [Es _]].
  rewrite E in Es. cbn [app] in Es.
  exact (dropStart_head isWhiteSpace s c _ Es).
Qed.

Lemma splitWS_first (s : jsstring) :
  forall cur, cur <> [] ->
  exists p rest, splitWS false cur s = p :: rest /\ p <> [].
Proof.
  induction s as [|c s IH]; intros cur Hc; cbn [splitWS].
  - exists (rev cur), []. split; [reflexivity|].
    intros E. apply Hc. apply (f_equal (@rev Z)) in E.
    now rewrite rev_involutive in E.
  - destruct (isWhiteSpace c).
    + exists (rev cur), (splitWS true [] s). split; [reflexivity|].
      intros E. apply Hc. apply (f_equal (@rev Z)) in E.
      now rewrite rev_involutive in E.
    + apply IH. discriminate.
Qed.

(** Trimmed text that is not empty has a word to count. *)
Lemma wordCount_of_text (value : jsstring) c rest :
  trim value = c :: rest -> 0 < App.wordCount value.
Proof.
  intros E. unfold App.wordCount. rewrite E. cbv zeta.
  unfold split_whitespace. cbn [splitWS].
  rewrite (trim_head value c rest E).
  destruct (splitWS_first rest [c]) as [p [ps [Ep Hp]]]; [discriminate|].
  rewrite Ep. cbn [filter].
  destruct p as [|x p]; [congruence|].
  assert (Hl : (0 <? len (x :: p)) = true).
  { apply Z.ltb_lt. unfold len. cbn [List.length]. lia. }
  rewrite Hl. cbn [List.length]. lia.
Qed.

(** X20.  The two ways into the reader agree: [startReading], which trims
    the text of the input field first, and [startReadingDirect], which the
    bookmarklet calls with the text as it is, leave the engine in the same
    state, because [parseText] gives the same words for a text and for the
    text trimmed.  Both do nothing while the word counter keeps the start
    button disabled. *)
Theorem start_entry_points_agree (value : jsstring) (wpm : float)
  (w : world) :
  Reader.parseText (trim value) = Reader.parseText value /\
  App.startReading value wpm w = App.startReadingDirect value wpm w /\
  (if App.startDisabled value
   then App.startReading value wpm w = Done w
   else True).
Proof.
  pose proof (parseText_trim value) as Ht.
  split; [exact Ht|]. split.
  - unfold App.startReading, App.startReadingDirect.
    assert (Ei : init (trim value) w = init value w).
    { unfold init. now rewrite Ht. }
    cbv zeta. rewrite Ei. clear Ei Ht.
    destruct value as [|v rest]; [reflexivity|].
    destruct (trim (v :: rest)); reflexivity.
  - unfold App.startDisabled.
    destruct (Z.eqb_spec (App.wordCount value) 0) as [E0|_]; [|exact I].
    unfold App.startReading. cbv zeta.
    destruct (trim value) as [|c rest] eqn:Et; [reflexivity|].
    pose proof (wordCount_of_text value c rest Et). lia.
Qed.

Lemma getItem_setItem (l : list (jsstring * jsstring))
  (key value other : jsstring) :
  Storage.getItem (Storage.setItem l key value) other
  = if eqb_string key other then Some value else Storage.getItem l other.
Proof.
  unfold Storage.setItem. cbn [Storage.getItem].
  destruct (eqb_string key other) eqn:Ek; [reflexivity|].
  induction l as [|[k v] l IH]; [reflexivity|].
  cbn [filter fst Storage.getItem].
  unfold eqb_string in *.
  destruct (list_eq_dec Z.eq_dec k key) as [->|Hk]; cbn [negb].
  - rewrite Ek. exact IH.
  - cbn [Storage.getItem]. rewrite IH. reflexivity.
Qed.

(** X21.  The theme read back after [saveTheme] is the theme saved, unless
    it is the empty string, which reads back as the default, or the storage
    refuses: where writing is refused the former theme stays, where reading
    is refused the answer is the default.  [getTheme] never answers the
    empty string, and [saveTheme] leaves the stored settings alone. *)
Theorem theme_round_trip (theme : jsstring) (s : Storage.localStorage) :
  Storage.getTheme (Storage.saveTheme theme s)
  = (if Storage.refusesRead s then lit "system"
     else if Storage.refusesWrite s then Storage.getTheme s
     else match theme with
          | [] => lit "system"
          | _ :: _ => theme
          end) /\
  Storage.getTheme s <> [] /\
  Storage.getItem (Storage.items (Storage.saveTheme theme s)) Storage.SETTINGS
  = Storage.getItem (Storage.items s) Storage.SETTINGS.
Proof.
  assert (Hsame : eqb_string Storage.THEME Storage.THEME = true)
    by (vm_compute; reflexivity).
  assert (Hdiff : eqb_string Storage.THEME Storage.SETTINGS = false)
    by (vm_compute; reflexivity).
  destruct s as [l rr rw]. unfold Storage.getTheme, Storage.saveTheme.
  cbn [Storage.refusesRead Storage.refusesWrite Storage.items].
  split; [|split].
  - destruct rw; cbn [Storage.refusesRead Storage.items];
      destruct rr; try reflexivity.
    rewrite getItem_setItem, Hsame. now destruct theme.
  - destruct rr; [discriminate|].
    destruct (Storage.getItem l Storage.THEME) as [[|c v]|]; discriminate.
  - destruct rw; cbn [Storage.items]; [reflexivity|].
    now rewrite getItem_setItem, Hdiff.
Qed.
